(** * Builtin-library composition of the ispc compiler (src/builtins.cpp)

    A shallow embedding of the functions of [builtins.cpp] that link the
    precompiled bitcode libraries into the module under construction, demote
    linkage, anchor persistent functions in [llvm.compiler.used], prune with
    dead-code elimination and cross-check intrinsic signatures.

    The LLVM objects the code manipulates (modules, functions, global
    variables, constants, use lists) are modelled by the records of the first
    part; the functions of [builtins.cpp] follow, with their names. *)

From stdpp Require Import base gmap sets list strings pretty.

Open Scope string_scope.
Open Scope list_scope.
Open Scope nat_scope.

(** ** LLVM IR objects *)

(** [llvm::GlobalValue::LinkageTypes]. *)
Inductive LinkageTypes :=
  | ExternalLinkage
  | AvailableExternallyLinkage
  | LinkOnceAnyLinkage
  | LinkOnceODRLinkage
  | WeakAnyLinkage
  | WeakODRLinkage
  | AppendingLinkage
  | InternalLinkage
  | PrivateLinkage
  | ExternalWeakLinkage
  | CommonLinkage.

Global Instance LinkageTypes_eq_dec : EqDecision LinkageTypes.
Proof. solve_decision. Defined.

(** [GlobalValue::isLocalLinkage]. *)
Definition isLocalLinkage (l : LinkageTypes) : bool :=
  match l with
  | InternalLinkage | PrivateLinkage => true
  | _ => false
  end.

(** [GlobalValue::isDiscardableIfUnused]: linkonce, local and
    available-externally symbols may be dropped when nothing refers to them. *)
Definition isDiscardableIfUnused (l : LinkageTypes) : bool :=
  match l with
  | LinkOnceAnyLinkage | LinkOnceODRLinkage
  | InternalLinkage | PrivateLinkage
  | AvailableExternallyLinkage => true
  | _ => false
  end.

Inductive VisibilityTypes :=
  | DefaultVisibility
  | HiddenVisibility
  | ProtectedVisibility.

Global Instance VisibilityTypes_eq_dec : EqDecision VisibilityTypes.
Proof. solve_decision. Defined.

(** A constant operand.  Global values are referred to by name (names are
    unique in a module's symbol table).  Of a constant expression only
    operand 0 is kept: the expressions met here are casts of a global. *)
Inductive Constant :=
  | GlobalRef (n : string)
  | ConstantExpr (op0 : Constant)
  | ConstantData (d : Z).

Global Instance Constant_eq_dec : EqDecision Constant.
Proof. solve_decision. Defined.

(** The global value a constant is built on, through any wrapping
    expression. *)
Fixpoint stripped_global (c : Constant) : option string :=
  match c with
  | GlobalRef n => Some n
  | ConstantExpr o => stripped_global o
  | ConstantData _ => None
  end.

(** The constants a constant is built from, itself included. *)
Fixpoint subconstants (c : Constant) : list Constant :=
  c :: match c with
       | ConstantExpr o => subconstants o
       | _ => []
       end.

(** [llvm::isa<llvm::ConstantArray>] of what [ConstantArray::get] makes of
    the elements of an array of pointers.  An array without elements is
    canonicalised to [ConstantAggregateZero], and so is an array of nulls;
    an array whose elements are all undef, or all poison, to [UndefValue] or
    [PoisonValue]: these have no operands.  Any other list of elements gives
    a [ConstantArray] with the elements as operands.  ([ConstantData d] is a
    pointer constant without operands: null, undef or poison, told apart by
    [d].) *)
Definition isa_ConstantArray (elems : list Constant) : bool :=
  match elems with
  | [] => false
  | ConstantData d :: rest =>
      negb (forallb (fun c => bool_decide (c = ConstantData d)) rest)
  | _ :: _ => true
  end.

Section Builtins.

(** LLVM types are uniqued objects compared by identity; the model keeps
    them abstract, with a decidable equality. *)
Context {LType : Type} `{!EqDecision LType}.

(** [llvm::FunctionType]. *)
Record FnType := {
  ReturnType : LType;
  ParamTypes : list LType;
  isVarArg : bool
}.

Global Instance FnType_eq_dec : EqDecision FnType.
Proof. solve_decision. Defined.

(** [llvm::Function].  [Body] is [None] for a declaration; for a definition
    it lists the constants (global values, mostly) the instructions of the
    body use, one entry per use. *)
Record Function := {
  Name : string;
  FunctionTy : FnType;
  AddressSpace : nat;
  Attributes : list string;
  Linkage : LinkageTypes;
  Visibility : VisibilityTypes;
  DSOLocal : bool;
  Body : option (list Constant)
}.

Global Instance Function_eq_dec : EqDecision Function.
Proof. solve_decision. Defined.

(** [llvm::GlobalVariable].  [Initializer] is [None] for a declaration; for a
    definition it lists the elements of the initializer, which is an array
    of pointers as the marker's is: the constant [ConstantArray::get] makes
    of the elements (see [isa_ConstantArray]). *)
Record GlobalVariable := {
  GName : string;
  GConstant : bool;
  GLinkage : LinkageTypes;
  GVisibility : VisibilityTypes;
  GDSOLocal : bool;
  Initializer : option (list Constant);
  GSection : string
}.

Global Instance GlobalVariable_eq_dec : EqDecision GlobalVariable.
Proof. solve_decision. Defined.

(** [llvm::Module]: the function list and the global list in their order,
    the names of the named metadata nodes, target triple and data layout,
    and the counter the symbol table uses to make a clashing name unique. *)
Record Module := {
  FunctionList : list Function;
  GlobalList : list GlobalVariable;
  NamedMDList : list string;
  TargetTriple : string;
  DataLayout : string;
  LastUnique : nat
}.

Global Instance Module_eq_dec : EqDecision Module.
Proof. solve_decision. Defined.


(** ** Operations of the LLVM API used by [builtins.cpp] *)

(** [Function::isDeclaration], [GlobalVariable::isDeclaration]. *)
Definition isDeclaration (F : Function) : bool :=
  match Body F with None => true | Some _ => false end.

Definition GisDeclaration (G : GlobalVariable) : bool :=
  match Initializer G with None => true | Some _ => false end.

(** [Module::getFunction], [Module::getNamedGlobal]: look a name up in the
    symbol table. *)
Definition getFunction (M : Module) (name : string) : option Function :=
  find (fun F => bool_decide (Name F = name)) (FunctionList M).

Definition getNamedGlobal (M : Module) (name : string) : option GlobalVariable :=
  find (fun G => bool_decide (GName G = name)) (GlobalList M).

(** The names in the symbol table of a module: functions and global
    variables share it. *)
Definition function_names (M : Module) : list string := Name <$> FunctionList M.
Definition global_names (M : Module) : list string := GName <$> GlobalList M.
Definition symbol_names (M : Module) : list string :=
  function_names M ++ global_names M.

(** The operands a global value holds: the uses in a function body, the
    elements of an initializer. *)
Definition function_operands (F : Function) : list Constant :=
  default [] (Body F).
Definition global_operands (G : GlobalVariable) : list Constant :=
  default [] (Initializer G).

(** The operands of the instructions of a module, one entry per operand. *)
Definition instruction_operands (M : Module) : list Constant :=
  FunctionList M ≫= function_operands.

(** The constant arrays of a module.  Constants are uniqued in their
    context: two variables initialized with the same elements share one
    array, which is listed once. *)
Definition module_arrays (M : Module) : list (list Constant) :=
  remove_dups (filter (fun elems => isa_ConstantArray elems)
                      (omap Initializer (GlobalList M))).

(** The constants that stand in a module: the operands of the instructions,
    the elements of the arrays, and what these are built from. *)
Definition module_constants (M : Module) : list Constant :=
  (instruction_operands M ++ mjoin (module_arrays M)) ≫= subconstants.

Definition count_operand (v : Constant) (ops : list Constant) : nat :=
  length (filter (fun c => c = v) ops).

(** [Value::getNumUses]: the length of the use list of [v] in module [M].
    The users of a value are the instructions that have it as an operand,
    one entry per operand; the constant arrays that have it as an element,
    one entry per element of each array; and the constant expression over
    it.  Arrays and expressions are uniqued: a cast of a function that two
    instructions (or an instruction and the marker) hold is one user of the
    function, and an array that two variables are initialized with is one
    user of its elements.  A constant that no instruction and no
    initializer of the module holds any more is taken to be gone, as after
    [Value::removeDeadConstantUsers]; a constant of this kind that lingers
    in the context would add an entry. *)
Definition getNumUses (M : Module) (v : Constant) : nat :=
  count_operand v (instruction_operands M) +
  sum_list_with (count_operand v) (module_arrays M) +
  (if bool_decide (ConstantExpr v ∈ module_constants M) then 1 else 0).

(** [llvm::isa<llvm::Function>(val)]. *)
Definition isa_Function (M : Module) (val : Constant) : bool :=
  match val with
  | GlobalRef n => bool_decide (is_Some (getFunction M n))
  | _ => false
  end.

(** [GlobalValue::setLinkage]: a local linkage resets the visibility to
    default and makes the symbol dso_local. *)
Definition isImplicitDSOLocal (l : LinkageTypes) (v : VisibilityTypes) : bool :=
  isLocalLinkage l ||
  (negb (bool_decide (v = DefaultVisibility)) &&
   negb (bool_decide (l = ExternalWeakLinkage))).

Definition setLinkage (F : Function) (LT : LinkageTypes) : Function :=
  let vis := if isLocalLinkage LT then DefaultVisibility else Visibility F in
  {| Name := Name F; FunctionTy := FunctionTy F; AddressSpace := AddressSpace F;
     Attributes := Attributes F; Linkage := LT; Visibility := vis;
     DSOLocal := if isImplicitDSOLocal LT vis then true else DSOLocal F;
     Body := Body F |}.

Definition GsetLinkage (G : GlobalVariable) (LT : LinkageTypes) : GlobalVariable :=
  let vis := if isLocalLinkage LT then DefaultVisibility else GVisibility G in
  {| GName := GName G; GConstant := GConstant G; GLinkage := LT;
     GVisibility := vis;
     GDSOLocal := if isImplicitDSOLocal LT vis then true else GDSOLocal G;
     Initializer := Initializer G; GSection := GSection G |}.

(** Replacing the function list or the global list of a module. *)
Definition with_functions (M : Module) (fs : list Function) : Module :=
  {| FunctionList := fs; GlobalList := GlobalList M;
     NamedMDList := NamedMDList M; TargetTriple := TargetTriple M;
     DataLayout := DataLayout M; LastUnique := LastUnique M |}.

Definition with_globals (M : Module) (gs : list GlobalVariable) : Module :=
  {| FunctionList := FunctionList M; GlobalList := gs;
     NamedMDList := NamedMDList M; TargetTriple := TargetTriple M;
     DataLayout := DataLayout M; LastUnique := LastUnique M |}.

(** [ValueSymbolTable::makeUniqueName]: a global value inserted under a name
    that is taken gets the name with a dot and the next value of the table's
    counter that is free.  The loop of the original is bounded here by the
    number of names in the table plus one, which is enough to find a free
    one. *)
Fixpoint makeUniqueName (fuel : nat) (taken : list string) (base : string)
    (last : nat) : string * nat :=
  let cand := base +:+ "." +:+ pretty (S last) in
  match fuel with
  | 0 => (cand, S last)
  | S k =>
      if bool_decide (cand ∈ taken) then makeUniqueName k taken base (S last)
      else (cand, S last)
  end.

(** [new llvm::GlobalVariable(M, ...)]: the variable is appended to the
    global list under its name, or under a unique one when the name is
    taken. *)
Definition insertGlobalVariable (M : Module) (G : GlobalVariable) : Module :=
  let taken := symbol_names M in
  let '(name, last) :=
    if bool_decide (GName G ∈ taken)
    then makeUniqueName (S (length taken)) taken (GName G) (LastUnique M)
    else (GName G, LastUnique M) in
  {| FunctionList := FunctionList M;
     GlobalList := GlobalList M ++
       [{| GName := name; GConstant := GConstant G; GLinkage := GLinkage G;
           GVisibility := GVisibility G; GDSOLocal := GDSOLocal G;
           Initializer := Initializer G; GSection := GSection G |}];
     NamedMDList := NamedMDList M; TargetTriple := TargetTriple M;
     DataLayout := DataLayout M; LastUnique := last |}.

(** [GlobalVariable::eraseFromParent] for the variable named [name]. *)
Definition eraseGlobal (M : Module) (name : string) : Module :=
  with_globals M (filter (fun G => GName G ≠ name) (GlobalList M)).

(** ** Results and diagnostics *)

(** [Assert] and [FATAL] abort the compiler; [Error] reports a diagnostic
    and lets the compilation go on. *)
Inductive Result (A : Type) :=
  | Ok (a : A)
  | Fatal (msg : string).
Global Arguments Ok {A} a.
Global Arguments Fatal {A} msg.

(** ** The types of the source language ([type.h]) *)

(** The atomic types [AtomicType::Void], [AtomicType::UniformBool], ... *)
Inductive AtomicType :=
  | Void
  | UniformBool | UniformInt8 | UniformUInt8 | UniformInt16 | UniformUInt16
  | UniformInt32 | UniformUInt32 | UniformFloat16 | UniformFloat
  | UniformDouble | UniformInt64 | UniformUInt64
  | VaryingBool | VaryingInt8 | VaryingUInt8 | VaryingInt16 | VaryingUInt16
  | VaryingInt32 | VaryingUInt32 | VaryingFloat16 | VaryingFloat
  | VaryingDouble | VaryingInt64 | VaryingUInt64.

(** An ispc type, as far as [lLLVMTypeToISPCType] builds them: an atomic
    type or [PointerType::GetUniform] of one. *)
Inductive ISPCType :=
  | Atomic (a : AtomicType)
  | PointerType_GetUniform (t : ISPCType).

(** The table [LLVMTypes] of [llvmutil.h]: the LLVM types of the target's
    scalars, vectors and pointers, set up once per target. *)
Record LLVMTypesTable := {
  VoidType : LType; BoolType : LType;
  Int8Type : LType; Int16Type : LType; Int32Type : LType; Int64Type : LType;
  Float16Type : LType; FloatType : LType; DoubleType : LType;
  Int8VectorType : LType; Int16VectorType : LType; Int32VectorType : LType;
  Int64VectorType : LType; Float16VectorType : LType;
  FloatVectorType : LType; DoubleVectorType : LType; MaskType : LType;
  Int8PointerType : LType; Int16PointerType : LType;
  Int32PointerType : LType; Int64PointerType : LType;
  Float16PointerType : LType; FloatPointerType : LType;
  DoublePointerType : LType;
  Int8VectorPointerType : LType; Int16VectorPointerType : LType;
  Int32VectorPointerType : LType; Int64VectorPointerType : LType;
  Float16VectorPointerType : LType; FloatVectorPointerType : LType;
  DoubleVectorPointerType : LType
}.

Variable LLVMTypes : LLVMTypesTable.

(** The comparison [t == LLVMTypes::X] of the source. *)
Definition is_type (t : LType) (X : LLVMTypesTable -> LType) : bool :=
  bool_decide (t = X LLVMTypes).

(** [lLLVMTypeToISPCType]: the ispc type of an LLVM type, [None] (the
    [nullptr] of the source) when there is none. *)
Definition lLLVMTypeToISPCType (t : LType) (intAsUnsigned : bool)
    : option ISPCType :=
  let su (u s : AtomicType) := if intAsUnsigned then u else s in
  if is_type t VoidType then Some (Atomic Void)
  (* uniform *)
  else if is_type t BoolType then Some (Atomic UniformBool)
  else if is_type t Int8Type then Some (Atomic (su UniformUInt8 UniformInt8))
  else if is_type t Int16Type then Some (Atomic (su UniformUInt16 UniformInt16))
  else if is_type t Int32Type then Some (Atomic (su UniformUInt32 UniformInt32))
  else if is_type t Float16Type then Some (Atomic UniformFloat16)
  else if is_type t FloatType then Some (Atomic UniformFloat)
  else if is_type t DoubleType then Some (Atomic UniformDouble)
  else if is_type t Int64Type then Some (Atomic (su UniformUInt64 UniformInt64))
  (* varying *)
  else if is_type t Int8VectorType then Some (Atomic (su VaryingUInt8 VaryingInt8))
  else if is_type t Int16VectorType then Some (Atomic (su VaryingUInt16 VaryingInt16))
  else if is_type t Int32VectorType then Some (Atomic (su VaryingUInt32 VaryingInt32))
  else if is_type t Float16VectorType then Some (Atomic VaryingFloat16)
  else if is_type t FloatVectorType then Some (Atomic VaryingFloat)
  else if is_type t DoubleVectorType then Some (Atomic VaryingDouble)
  else if is_type t Int64VectorType then Some (Atomic (su VaryingUInt64 VaryingInt64))
  else if is_type t MaskType then Some (Atomic VaryingBool)
  (* pointers to uniform *)
  else if is_type t Int8PointerType
    then Some (PointerType_GetUniform (Atomic (su UniformUInt8 UniformInt8)))
  else if is_type t Int16PointerType
    then Some (PointerType_GetUniform (Atomic (su UniformUInt16 UniformInt16)))
  else if is_type t Int32PointerType
    then Some (PointerType_GetUniform (Atomic (su UniformUInt32 UniformInt32)))
  else if is_type t Int64PointerType
    then Some (PointerType_GetUniform (Atomic (su UniformUInt64 UniformInt64)))
  else if is_type t Float16PointerType
    then Some (PointerType_GetUniform (Atomic UniformFloat16))
  else if is_type t FloatPointerType
    then Some (PointerType_GetUniform (Atomic UniformFloat))
  else if is_type t DoublePointerType
    then Some (PointerType_GetUniform (Atomic UniformDouble))
  (* pointers to varying *)
  else if is_type t Int8VectorPointerType
    then Some (PointerType_GetUniform (Atomic (su VaryingUInt8 VaryingInt8)))
  else if is_type t Int16VectorPointerType
    then Some (PointerType_GetUniform (Atomic (su VaryingUInt16 VaryingInt16)))
  else if is_type t Int32VectorPointerType
    then Some (PointerType_GetUniform (Atomic (su VaryingUInt32 VaryingInt32)))
  else if is_type t Int64VectorPointerType
    then Some (PointerType_GetUniform (Atomic (su VaryingUInt64 VaryingInt64)))
  else if is_type t Float16VectorPointerType
    then Some (PointerType_GetUniform (Atomic VaryingFloat16))
  else if is_type t FloatVectorPointerType
    then Some (PointerType_GetUniform (Atomic VaryingFloat))
  else if is_type t DoubleVectorPointerType
    then Some (PointerType_GetUniform (Atomic VaryingDouble))
  else None.

(** ** Symbols for LLVM intrinsics *)

(** [SourcePos], of which only the name is set here. *)
Record SourcePos := { pos_name : string }.

(** [ispc::FunctionType] and [ispc::Symbol] ([type.h], [sym.h]) with the
    fields [CreateISPCSymbolForLLVMIntrinsic] sets. *)
Record FunctionType := {
  returnType : ISPCType;
  paramTypes : list ISPCType;
  ftPos : SourcePos
}.

Inductive SymbolKind := SymbolKind_Default | SymbolKind_Function.

Record Symbol := {
  sym_name : string;
  sym_pos : SourcePos;
  sym_kind : SymbolKind;
  sym_type : FunctionType;
  sym_function : option Function
}.

(** The intrinsics part of the symbol table ([sym.h]) is used through its
    two methods only. *)
Context {SymbolTable : Type}.
Variable LookupIntrinsics : SymbolTable -> Function -> option Symbol.
Variable AddIntrinsics : SymbolTable -> Symbol -> SymbolTable.

(** The loop over the parameters: the index of the first parameter whose
    type has no ispc counterpart, or the translated types in order. *)
Fixpoint lTranslateParams (j : nat) (params : list LType)
    (argTypes : list ISPCType) : nat + list ISPCType :=
  match params with
  | [] => inr argTypes
  | llvmArgType :: rest =>
      match lLLVMTypeToISPCType llvmArgType false with
      | None => inl j
      | Some type => lTranslateParams (S j) rest (argTypes ++ [type])
      end
  end.

(** [CreateISPCSymbolForLLVMIntrinsic]: the symbol returned ([None] for
    [nullptr]), the symbol table after the call and the diagnostics that
    [Error] reported. *)
Definition CreateISPCSymbolForLLVMIntrinsic (func : Function)
    (symbolTable : SymbolTable) : option Symbol * SymbolTable * list string :=
  match LookupIntrinsics symbolTable func with
  | Some existingSym => (Some existingSym, symbolTable, [])
  | None =>
      let noPos := {| pos_name := "LLVM Intrinsic" |} in
      let ftype := FunctionTy func in
      let name := Name func in
      match lLLVMTypeToISPCType (ReturnType ftype) false with
      | None =>
          (None, symbolTable,
           ["Return type not representable for Intrinsic " +:+ name +:+ "."])
      | Some returnType =>
          match lTranslateParams 0 (ParamTypes ftype) [] with
          | inl j =>
              (None, symbolTable,
               ["Type of parameter " +:+ pretty j +:+
                " not representable for Intrinsic " +:+ name])
          | inr argTypes =>
              let funcType :=
                {| returnType := returnType; paramTypes := argTypes;
                   ftPos := noPos |} in
              let sym :=
                {| sym_name := name; sym_pos := noPos;
                   sym_kind := SymbolKind_Function; sym_type := funcType;
                   sym_function := Some func |} in
              (Some sym, AddIntrinsics symbolTable sym, [])
          end
      end
  end.

(** ** The intrinsic signature check *)

(** [Function::isIntrinsic]: the name is in LLVM's reserved name space. *)
Definition isIntrinsic (F : Function) : bool := String.prefix "llvm." (Name F).

(** The backend's intrinsic table: [Function::lookupIntrinsicID] gives the
    identifier of an intrinsic name (0, [not_intrinsic], when it has none),
    [Intrinsic::getType] the function type of an identifier, and
    [PointerType::get] the pointer type to a function type in an address
    space. *)
Variable lookupIntrinsicID : string -> nat.
Variable Intrinsic_getType : nat -> FnType.
Variable PointerType_get : FnType -> nat -> LType.

(** [Function::getIntrinsicID] and [Function::getType]. *)
Definition getIntrinsicID (F : Function) : nat :=
  if isIntrinsic F then lookupIntrinsicID (Name F) else 0.

Definition getType (F : Function) : LType :=
  PointerType_get (FunctionTy F) (AddressSpace F).

(** The test [funcName.length() >= llvm_x86.length() &&
    !funcName.compare(0, llvm_x86.length(), llvm_x86)]. *)
Definition lIsX86Name (funcName : string) : bool :=
  let llvm_x86 := "llvm.x86." in
  bool_decide (String.length llvm_x86 ≤ String.length funcName)%nat &&
  bool_decide (String.substring 0 (String.length llvm_x86) funcName = llvm_x86).

(** The body of the loop of [lCheckModuleIntrinsics] for one function. *)
Definition lCheckIntrinsic (func : Function) : Result unit :=
  if negb (isIntrinsic func) then Ok tt
  else
    let funcName := Name func in
    if lIsX86Name funcName then
      let id := getIntrinsicID func in
      if bool_decide (id = 0) then
        Fatal ("Intrinsic is not found: " +:+ funcName)
      else
        let intrinsicType := PointerType_get (Intrinsic_getType id) 0 in
        if bool_decide (getType func = intrinsicType) then Ok tt
        else Fatal "Assertion failed: func->getType() == intrinsicType"
    else Ok tt.

(** [lCheckModuleIntrinsics]: the loop stops at the first function that
    aborts. *)
Fixpoint lCheckFunctions (fs : list Function) : Result unit :=
  match fs with
  | [] => Ok tt
  | func :: rest =>
      match lCheckIntrinsic func with
      | Ok _ => lCheckFunctions rest
      | Fatal msg => Fatal msg
      end
  end.

Definition lCheckModuleIntrinsics (module : Module) : Result unit :=
  lCheckFunctions (FunctionList module).

(** ** Attributes of Xe intrinsics *)

(** [StringRef::contains]. *)
Fixpoint str_contains (pat s : string) : bool :=
  String.prefix pat s ||
  match s with
  | EmptyString => false
  | String _ s' => str_contains pat s'
  end.

(** Build configuration ([ISPC_XE_ENABLED], [ISPC_LLVM_VERSION]) and the
    GenX intrinsic library: [GenXIntrinsic::isGenXIntrinsic], the attributes
    [GenXIntrinsic::getAttributes] gives for the intrinsic of a function,
    and [FixFunctionAttribute] of [llvmutil.h], which trades one attribute
    of a function for a memory effect: it is given as the attribute list it
    leaves. *)
Variable ISPC_XE_ENABLED : bool.
Variable ISPC_LLVM_VERSION : N.
Definition ISPC_LLVM_16_0 : N := 160000.
Definition ISPC_LLVM_17_0 : N := 170000.
Variable isGenXIntrinsic : Function -> bool.
Variable GenXIntrinsic_getAttributes : Function -> list string.
Variable FixFunctionAttribute : list string -> string -> string -> list string.

Definition setAttributes (F : Function) (attrs : list string) : Function :=
  {| Name := Name F; FunctionTy := FunctionTy F; AddressSpace := AddressSpace F;
     Attributes := attrs; Linkage := Linkage F; Visibility := Visibility F;
     DSOLocal := DSOLocal F; Body := Body F |}.

Definition lFixAttribute (Fn : Function) (attr memEffects : string) : Function :=
  setAttributes Fn (FixFunctionAttribute (Attributes Fn) attr memEffects).

(** The body of the loop of [lUpdateIntrinsicsAttributes]. *)
Definition lUpdateIntrinsicAttributes (Fn : Function) : Function :=
  if str_contains "prefetch" (Name Fn) then Fn
  else if isGenXIntrinsic Fn then
    let Fn := setAttributes Fn (GenXIntrinsic_getAttributes Fn) in
    if bool_decide (ISPC_LLVM_16_0 ≤ ISPC_LLVM_VERSION)%N then
      (* ReadNone, ReadOnly and WriteOnly are not supported for intrinsics
         anymore: *)
      let Fn := lFixAttribute Fn "readnone" "none" in
      let Fn := lFixAttribute Fn "readonly" "readOnly" in
      lFixAttribute Fn "writeonly" "writeOnly"
    else Fn
  else Fn.

(** [lUpdateIntrinsicsAttributes]. *)
Definition lUpdateIntrinsicsAttributes (module : Module) : Module :=
  if ISPC_XE_ENABLED then
    with_functions module (lUpdateIntrinsicAttributes <$> FunctionList module)
  else module.

(** ** Linkage normalisation *)

(** [lSetAsInternal]: [functions] is the [llvm::StringSet] of names. *)
Definition lSetAsInternal (module : Module) (functions : gset string) : Module :=
  with_functions module
    ((fun F =>
        if negb (isDeclaration F) && bool_decide (Name F ∈ functions)
        then setLinkage F InternalLinkage
        else F) <$> FunctionList module).

(** [lSetInternalLinkageGlobal]: the variable found by [getNamedGlobal] is
    the first of that name in the global list. *)
Fixpoint lSetFirstInternal (name : string) (gs : list GlobalVariable)
    : list GlobalVariable :=
  match gs with
  | [] => []
  | GV :: rest =>
      if bool_decide (GName GV = name) then GsetLinkage GV InternalLinkage :: rest
      else GV :: lSetFirstInternal name rest
  end.

Definition lSetInternalLinkageGlobal (module : Module) (name : string) : Module :=
  match getNamedGlobal module name with
  | Some GV => with_globals module (lSetFirstInternal name (GlobalList module))
  | None => module
  end.

Definition lSetInternalLinkageGlobals (module : Module) : Module :=
  let module := lSetInternalLinkageGlobal module "__fast_masked_vload" in
  let module := lSetInternalLinkageGlobal module "__math_lib" in
  lSetInternalLinkageGlobal module "__memory_alignment".

(** ** Inserting declarations *)

(** The address space of functions that a data layout string names, and the
    attributes the backend gives an intrinsic on construction. *)
Variable getProgramAddressSpace : string -> nat.
Variable Intrinsic_getAttributes : nat -> list string.

(** [Function::Create] as [getOrInsertFunction] calls it: a declaration
    with external linkage in the program address space; an intrinsic gets
    its attributes on construction, another function the ones given. *)
Definition newDeclaration (M : Module) (name : string) (ty : FnType)
    (attrs : list string) : Function :=
  let New :=
    {| Name := name; FunctionTy := ty;
       AddressSpace := getProgramAddressSpace (DataLayout M);
       Attributes := []; Linkage := ExternalLinkage;
       Visibility := DefaultVisibility; DSOLocal := false; Body := None |} in
  if isIntrinsic New
  then setAttributes New (Intrinsic_getAttributes (getIntrinsicID New))
  else setAttributes New attrs.

(** [Module::getOrInsertFunction]: when the symbol table has no value of
    that name, the new declaration is appended to the function list;
    otherwise the module is left as it is. *)
Definition getOrInsertFunction (M : Module) (name : string) (ty : FnType)
    (attrs : list string) : Module :=
  if bool_decide (name ∈ symbol_names M) then M
  else with_functions M (FunctionList M ++ [newDeclaration M name ty attrs]).

(** ** Dead-code elimination *)

(** The least set that holds [X] and is closed under [succ], reached by
    adding the successors [fuel] times. *)
Definition closure_step (succ : string -> gset string) (X : gset string)
    : gset string :=
  X ∪ set_bind succ X.

Fixpoint closure (fuel : nat) (succ : string -> gset string) (X : gset string)
    : gset string :=
  match fuel with
  | 0 => X
  | S k => closure k succ (closure_step succ X)
  end.

Definition referenced_names (ops : list Constant) : gset string :=
  list_to_set (omap stripped_global ops).

Definition symbol_set (M : Module) : gset string :=
  list_to_set (symbol_names M).

(** The global values of [M] that the global value named [n] refers to. *)
Definition references (M : Module) (n : string) : gset string :=
  referenced_names
    ((filter (fun F => Name F = n) (FunctionList M) ≫= function_operands) ++
     (filter (fun G => GName G = n) (GlobalList M) ≫= global_operands))
  ∩ symbol_set M.

(** The roots of the elimination: the definitions whose linkage does not
    allow discarding them (external, weak, common and appending ones). *)
Definition dce_roots (M : Module) : gset string :=
  list_to_set (Name <$>
    filter (fun F => negb (isDeclaration F) &&
                     negb (isDiscardableIfUnused (Linkage F)))
           (FunctionList M))
  ∪ list_to_set (GName <$>
    filter (fun G => negb (GisDeclaration G) &&
                     negb (isDiscardableIfUnused (GLinkage G)))
           (GlobalList M)).

Definition alive (M : Module) : gset string :=
  closure (size (symbol_set M)) (references M) (dce_roots M).

(** Modelled from the spec: the whole-module dead-code elimination pass of
    the backend ([llvm::GlobalDCEPass]), which is not part of this
    repository.  Every global value reachable from the preservation marker,
    from the other externally visible definitions, or transitively from
    either, survives; everything else is removed. *)
Definition GlobalDCEPass (M : Module) : Module :=
  let live := alive M in
  {| FunctionList := filter (fun F => Name F ∈ live) (FunctionList M);
     GlobalList := filter (fun G => GName G ∈ live) (GlobalList M);
     NamedMDList := NamedMDList M; TargetTriple := TargetTriple M;
     DataLayout := DataLayout M; LastUnique := LastUnique M |}.

(** [lRemoveUnused]: a pass manager that runs the one pass. *)
Definition lRemoveUnused (M : Module) : Module := GlobalDCEPass M.

(** ** The preservation marker [llvm.compiler.used] *)

(** The tables [builtin::persistentGroups] and [builtin::persistentFuncs]
    of [builtins-info.h], in the order the loops visit them.  A group is
    identified by its key (the enum [PersistentGroup]). *)
Definition PersistentGroup := nat.
Variable persistentGroups : list (PersistentGroup * list string).
Variable persistentFuncs : list (string * Z).

(** The pointer type the functions are cast to: [PointerType::getUnqual] of
    the context from LLVM 17 on, [Type::getInt8PtrTy] before. *)
Variable Int8PtrTy : LType.

(** [ConstantExpr::getBitCast] of a function: the function itself when it
    has the type already, a cast expression otherwise. *)
Definition getBitCast (F : Function) (type : LType) : Constant :=
  if bool_decide (getType F = type) then GlobalRef (Name F)
  else ConstantExpr (GlobalRef (Name F)).

(** [lFuncAsConstInt8Ptr]. *)
Definition lFuncAsConstInt8Ptr (M : Module) (name : string) : option Constant :=
  match getFunction M name with
  | Some F => Some (getBitCast F Int8PtrTy)
  | None => None
  end.

(** [lExtractUsedFunctions]: the cast of the initializer and the loop over
    its operands.  [lOperandValue] is [CE ? CE->getOperand(0) : C];
    functions are kept in the set by name.  [llvm::cast<ConstantArray>] of
    an initializer that is no constant array (the one of an empty marker is
    a [ConstantAggregateZero]) is an assertion failure where LLVM's
    assertions are compiled in and undefined otherwise: the run aborts
    here.  [Assert(val)] never fails, an operand being never null. *)
Definition lOperandValue (C : Constant) : Constant :=
  match C with ConstantExpr op0 => op0 | _ => C end.

Definition lExtractUsedOperand (M : Module) (C : Constant)
    (usedFunctions : gset string) : Result (gset string) :=
  let val := lOperandValue C in
  if bool_decide (1 < getNumUses M val)%nat then
    match val with
    | GlobalRef n =>
        if isa_Function M val then Ok ({[n]} ∪ usedFunctions)
        else Fatal "Assertion failed: llvm::isa<llvm::Function>(val)"
    | _ => Fatal "Assertion failed: llvm::isa<llvm::Function>(val)"
    end
  else Ok usedFunctions.

Fixpoint lExtractUsedOperands (M : Module) (initList : list Constant)
    (usedFunctions : gset string) : Result (gset string) :=
  match initList with
  | [] => Ok usedFunctions
  | C :: rest =>
      match lExtractUsedOperand M C usedFunctions with
      | Ok usedFunctions => lExtractUsedOperands M rest usedFunctions
      | Fatal msg => Fatal msg
      end
  end.

Definition lExtractUsedFunctions (M : Module) (llvmUsed : GlobalVariable)
    (usedFunctions : gset string) : Result (gset string) :=
  match Initializer llvmUsed with
  | Some initList =>
      if isa_ConstantArray initList
      then lExtractUsedOperands M initList usedFunctions
      else Fatal "cast<ConstantArray>() argument of incompatible type"
  | None => Fatal "llvmUsed has no initializer"
  end.

(** [lFindUsedPersistentGroups]. *)
Definition lGroupHasUsed (M : Module) (usedFunctions : gset string)
    (functions : list string) : bool :=
  existsb (fun name =>
             match getFunction M name with
             | Some F => bool_decide (Name F ∈ usedFunctions)
             | None => false
             end) functions.

Definition lFindUsedPersistentGroups (M : Module) (usedFunctions : gset string)
    (usedPersistentGroups : gset PersistentGroup) : gset PersistentGroup :=
  foldl (fun used '(group, functions) =>
           if lGroupHasUsed M usedFunctions functions then {[group]} ∪ used
           else used)
        usedPersistentGroups persistentGroups.

(** [lCollectPreservedFunctions]. *)
Definition lCollectPreservedFunctions (M : Module)
    (newElements : list Constant)
    (usedPersistentGroups : gset PersistentGroup) : list Constant :=
  newElements ++
  (persistentGroups ≫= fun '(group, functions) =>
     if bool_decide (group ∈ usedPersistentGroups)
     then omap (lFuncAsConstInt8Ptr M) functions
     else []) ++
  omap (fun '(name, val) => lFuncAsConstInt8Ptr M name) persistentFuncs.

(** [lCreateLLVMUsed]: the variable that is created, and its insertion in
    the module. *)
Definition lNewLLVMUsed (ConstPtrs : list Constant) : GlobalVariable :=
  {| GName := "llvm.compiler.used"; GConstant := false;
     GLinkage := AppendingLinkage; GVisibility := DefaultVisibility;
     GDSOLocal := false; Initializer := Some ConstPtrs;
     GSection := "llvm.metadata" |}.

Definition lCreateLLVMUsed (M : Module) (ConstPtrs : list Constant) : Module :=
  insertGlobalVariable M (lNewLLVMUsed ConstPtrs).

(** [lUpdateLLVMUsed]. *)
Definition lUpdateLLVMUsed (M : Module) (llvmUsed : GlobalVariable)
    (newElements : list Constant) : Module :=
  lCreateLLVMUsed (eraseGlobal M (GName llvmUsed)) newElements.

(** [lRemoveUnusedPersistentFunctions]. *)
Definition lRemoveUnusedPersistentFunctions (M : Module) : Result Module :=
  match getNamedGlobal M "llvm.compiler.used" with
  | Some llvmUsed =>
      match lExtractUsedFunctions M llvmUsed ∅ with
      | Ok usedFunctions =>
          let usedPersistentGroups := lFindUsedPersistentGroups M usedFunctions ∅ in
          let newElements := lCollectPreservedFunctions M [] usedPersistentGroups in
          Ok (lRemoveUnused (lUpdateLLVMUsed M llvmUsed newElements))
      | Fatal msg => Fatal msg
      end
  | None => Ok M
  end.

(** [lAddPersistentToLLVMUsed]. *)
Definition lIsGroupUsed (M : Module) (functions : list string) : bool :=
  existsb (fun name =>
             match getFunction M name with
             | Some F => bool_decide (0 < getNumUses M (GlobalRef (Name F)))%nat
             | None => false
             end) functions.

Definition lPersistentConstPtrs (M : Module) : list Constant :=
  (persistentGroups ≫= fun '(group, functions) =>
     if lIsGroupUsed M functions
     then omap (lFuncAsConstInt8Ptr M) functions
     else []) ++
  omap (fun '(name, val) => lFuncAsConstInt8Ptr M name) persistentFuncs.

Definition lAddPersistentToLLVMUsed (M : Module) : Module :=
  let ConstPtrs := lPersistentConstPtrs M in
  match ConstPtrs with
  | [] => M
  | _ => lCreateLLVMUsed M ConstPtrs
  end.

(** [lStartsWithLLVM]. *)
Definition lStartsWithLLVM (name : string) : bool := String.prefix "llvm." name.

(** ** Linking a library module into the target module *)

(** What the linker looks at in a global value. *)
Record GVInfo := {
  gv_isFunction : bool;
  gv_linkage : LinkageTypes;
  gv_isDeclaration : bool
}.

(** [Module::getNamedValue]. *)
Definition getNamedValue (M : Module) (name : string) : option GVInfo :=
  match getFunction M name with
  | Some F =>
      Some {| gv_isFunction := true; gv_linkage := Linkage F;
              gv_isDeclaration := isDeclaration F |}
  | None =>
      match getNamedGlobal M name with
      | Some G =>
          Some {| gv_isFunction := false; gv_linkage := GLinkage G;
                  gv_isDeclaration := GisDeclaration G |}
      | None => None
      end
  end.

(** [getLinkedToGlobal]: the destination's value a source value links to;
    local symbols on either side take no part in name resolution. *)
Definition getLinkedToGlobal (DstM : Module) (name : string)
    (SrcLinkage : LinkageTypes) : option GVInfo :=
  if isLocalLinkage SrcLinkage then None
  else
    match getNamedValue DstM name with
    | Some DGV => if isLocalLinkage (gv_linkage DGV) then None else Some DGV
    | None => None
    end.

Definition isDeclarationForLinker (GV : GVInfo) : bool :=
  gv_isDeclaration GV || bool_decide (gv_linkage GV = AvailableExternallyLinkage).

(** [ModuleLinker::linkIfNeeded] under [LinkOnlyNeeded]: a definition of the
    source is linked when the destination declares it without defining it;
    variables with appending linkage are always linked. *)
Definition linkIfNeeded (DstM : Module) (name : string) (GV : GVInfo) : bool :=
  negb (gv_isDeclaration GV) &&
  (bool_decide (gv_linkage GV = AppendingLinkage) ||
   match getLinkedToGlobal DstM name (gv_linkage GV) with
   | Some DGV => gv_isDeclaration DGV
   | None => false
   end).

Definition isNeeded (DstM SrcM : Module) (n : string) : bool :=
  match getNamedValue SrcM n with
  | Some GV => linkIfNeeded DstM n GV
  | None => false
  end.

Definition valuesToLink (DstM SrcM : Module) : gset string :=
  list_to_set (filter (fun n => isNeeded DstM SrcM n) (symbol_names SrcM)).

(** [IRLinker::shouldLink] for a value of the source that a linked body
    refers to: local definitions always come along, other definitions do
    unless the destination defines the name already. *)
Definition shouldLink (DstM SrcM : Module) (r : string) : bool :=
  match getNamedValue SrcM r with
  | None => false
  | Some SGV =>
      isLocalLinkage (gv_linkage SGV) ||
      (match getLinkedToGlobal DstM r (gv_linkage SGV) with
       | Some DGV => isDeclarationForLinker DGV
       | None => true
       end && negb (gv_isDeclaration SGV))
  end.

(** The definitions of the source that are moved: the needed ones and, in
    turn, what their bodies refer to. *)
Definition linkedDefinitions (DstM SrcM : Module) : gset string :=
  closure (size (symbol_set SrcM))
    (fun n => filter (fun r => shouldLink DstM SrcM r) (references SrcM n))
    (valuesToLink DstM SrcM).

(** The declarations of the source that a moved body refers to and the
    destination has no value for: a declaration is created for each. *)
Definition needsDeclaration (DstM SrcM : Module) (r : string) : bool :=
  match getNamedValue SrcM r with
  | Some SGV =>
      match getLinkedToGlobal DstM r (gv_linkage SGV) with
      | Some _ => false
      | None => true
      end
  | None => false
  end.

Definition linkedDeclarations (DstM SrcM : Module) (L : gset string)
    : gset string :=
  filter (fun r => (r ∉ L) ∧ needsDeclaration DstM SrcM r)
         (set_bind (references SrcM) L).

(** Renaming of global values: the linker gives a fresh name to a local
    symbol whose name is wanted by another symbol. *)
Definition rename (ren : gmap string string) (n : string) : string :=
  default n (ren !! n).

Fixpoint rename_const (ren : gmap string string) (c : Constant) : Constant :=
  match c with
  | GlobalRef n => GlobalRef (rename ren n)
  | ConstantExpr o => ConstantExpr (rename_const ren o)
  | ConstantData d => ConstantData d
  end.

Fixpoint uniqueNames (names taken : list string) (last : nat)
    : gmap string string * list string * nat :=
  match names with
  | [] => (∅, taken, last)
  | n :: rest =>
      let '(n', last) := makeUniqueName (S (length taken)) taken n last in
      let '(ren, taken, last) := uniqueNames rest (n' :: taken) last in
      (<[n := n']> ren, taken, last)
  end.

Definition renameFunction (ren : gmap string string) (F : Function) : Function :=
  {| Name := rename ren (Name F); FunctionTy := FunctionTy F;
     AddressSpace := AddressSpace F; Attributes := Attributes F;
     Linkage := Linkage F; Visibility := Visibility F; DSOLocal := DSOLocal F;
     Body := (fun ops : list Constant => rename_const ren <$> ops) <$> Body F |}.

Definition renameGlobal (ren : gmap string string) (G : GlobalVariable)
    : GlobalVariable :=
  {| GName := rename ren (GName G); GConstant := GConstant G;
     GLinkage := GLinkage G; GVisibility := GVisibility G;
     GDSOLocal := GDSOLocal G;
     Initializer :=
       (fun ops : list Constant => rename_const ren <$> ops) <$> Initializer G;
     GSection := GSection G |}.

(** The declaration the linker creates in the destination for a value of
    the source that is referred to and not moved. *)
Definition declarationLinkage (l : LinkageTypes) : LinkageTypes :=
  if bool_decide (l = ExternalWeakLinkage) then ExternalWeakLinkage
  else ExternalLinkage.

Definition functionProto (F : Function) : Function :=
  {| Name := Name F; FunctionTy := FunctionTy F;
     AddressSpace := AddressSpace F; Attributes := Attributes F;
     Linkage := declarationLinkage (Linkage F); Visibility := Visibility F;
     DSOLocal := DSOLocal F; Body := None |}.

Definition globalProto (G : GlobalVariable) : GlobalVariable :=
  {| GName := GName G; GConstant := GConstant G;
     GLinkage := declarationLinkage (GLinkage G); GVisibility := GVisibility G;
     GDSOLocal := GDSOLocal G; Initializer := None; GSection := GSection G |}.

Definition isLocalIn (M : Module) (n : string) : bool :=
  match getNamedValue M n with
  | Some GV => isLocalLinkage (gv_linkage GV)
  | None => false
  end.

(** A value with appending linkage links only to another one. *)
Definition appendingClash (DstM SrcM : Module) (n : string) : bool :=
  match getNamedValue SrcM n with
  | Some SGV =>
      match getLinkedToGlobal DstM n (gv_linkage SGV) with
      | Some DGV =>
          let sa := bool_decide (gv_linkage SGV = AppendingLinkage) in
          let da := bool_decide (gv_linkage DGV = AppendingLinkage) in
          xorb sa da || (sa && (gv_isFunction SGV || gv_isFunction DGV))
      | None => false
      end
  | None => false
  end.

(** The elements of the destination's appending variable that a source
    variable of that name is appended to. *)
Definition appendedTo (DstM : Module) (G : GlobalVariable) : list Constant :=
  if bool_decide (GLinkage G = AppendingLinkage) then
    match getNamedGlobal DstM (GName G) with
    | Some DG =>
        if isLocalLinkage (GLinkage DG) then [] else global_operands DG
    | None => []
    end
  else [].

Definition isReplaced (DstM SrcM : Module) (L : gset string) (n : string) : bool :=
  negb (isLocalIn DstM n) && bool_decide (n ∈ L) && negb (isLocalIn SrcM n).

(** The functions and variables of the source that enter the destination:
    the moved definitions (local ones renamed by [rho] where their name is
    taken), and declarations for the others that moved bodies refer to. *)
Definition movedFunctions (SrcM : Module) (L D : gset string)
    (rho : gmap string string) : list Function :=
  omap (fun F =>
          if bool_decide (Name F ∈ L) then Some (renameFunction rho F)
          else if bool_decide (Name F ∈ D) then Some (functionProto F)
          else None)
       (FunctionList SrcM).

Definition movedGlobals (DstM SrcM : Module) (L D : gset string)
    (sigma rho : gmap string string) : list GlobalVariable :=
  omap (fun G =>
          if bool_decide (GName G ∈ L) then
            Some {| GName := rename rho (GName G); GConstant := GConstant G;
                    GLinkage := GLinkage G; GVisibility := GVisibility G;
                    GDSOLocal := GDSOLocal G;
                    Initializer :=
                      Some ((rename_const sigma <$> appendedTo DstM G) ++
                            (rename_const rho <$> global_operands G));
                    GSection := GSection G |}
          else if bool_decide (GName G ∈ D) then Some (globalProto G)
          else None)
       (GlobalList SrcM).

(** Modelled from the spec: the module linking of the backend
    ([llvm::Linker::linkModules] with [LinkOnlyNeeded]), which is not part of
    this repository: merge the library module into the target, keeping only
    what is needed.  A definition of the source is moved when the
    destination declares its name without defining it, or when a moved body
    refers to it; a declaration is created for what moved bodies refer to
    and the destination lacks; a declaration of the destination that gets
    its definition is replaced by it, and variables with appending linkage
    are concatenated.  New values are appended in the order of the source.
    The result is the linker's error flag and the destination; when the
    flag is set the model leaves the destination as it was. *)
Definition linkModules (DstM SrcM : Module) : bool * Module :=
  let L := linkedDefinitions DstM SrcM in
  let D := linkedDeclarations DstM SrcM L in
  if existsb (appendingClash DstM SrcM)
       (elements (L ∪ set_bind (references SrcM) L))
  then (true, DstM)
  else
    let incoming := L ∪ D in
    let dstRenamed :=
      filter (fun n => isLocalIn DstM n && bool_decide (n ∈ incoming) &&
                       negb (isLocalIn SrcM n))
             (symbol_names DstM) in
    let srcRenamed :=
      filter (fun n => bool_decide (n ∈ L) && isLocalIn SrcM n &&
                       bool_decide (n ∈ symbol_names DstM))
             (symbol_names SrcM) in
    let taken := symbol_names DstM ++ elements incoming in
    let '(sigma, taken, last) := uniqueNames dstRenamed taken (LastUnique DstM) in
    let '(rho, taken, last) := uniqueNames srcRenamed taken last in
    (false,
     {| FunctionList :=
          (renameFunction sigma <$>
             filter (fun F => negb (isReplaced DstM SrcM L (Name F)))
                    (FunctionList DstM)) ++
          movedFunctions SrcM L D rho;
        GlobalList :=
          (renameGlobal sigma <$>
             filter (fun G => negb (isReplaced DstM SrcM L (GName G)))
                    (GlobalList DstM)) ++
          movedGlobals DstM SrcM L D sigma rho;
        NamedMDList :=
          NamedMDList DstM ++
          filter (fun md => md ∉ NamedMDList DstM) (NamedMDList SrcM);
        TargetTriple :=
          if bool_decide (TargetTriple DstM = "") then TargetTriple SrcM
          else TargetTriple DstM;
        DataLayout :=
          if bool_decide (DataLayout DstM = "") then DataLayout SrcM
          else DataLayout DstM;
        LastUnique := last |}).

(** ** The bitcode-merge primitive *)

Definition eraseNamedMetadata (M : Module) (name : string) : Module :=
  {| FunctionList := FunctionList M; GlobalList := GlobalList M;
     NamedMDList := filter (fun md => md ≠ name) (NamedMDList M);
     TargetTriple := TargetTriple M; DataLayout := DataLayout M;
     LastUnique := LastUnique M |}.

(** The loop of [lAddBitcodeToModule] over the functions of the library:
    the declarations without a use are inserted in the target by hand. *)
Definition lMoveDeclaration (bcModule module : Module) (f : Function) : Module :=
  if isDeclaration f then
    (* Declarations with uses will be moved by Linker. *)
    if bool_decide (0 < getNumUses bcModule (GlobalRef (Name f))) then module
    (* Declarations with 0 uses are moved by hands. *)
    else getOrInsertFunction module (Name f) (FunctionTy f) (Attributes f)
  else module.

Definition lMoveUnusedDeclarations (bcModule module : Module) : Module :=
  foldl (lMoveDeclaration bcModule) module (FunctionList bcModule).

(** [lAddBitcodeToModule]: the target module after the call and the
    diagnostics reported.  [bcModule] is [None] for a null pointer;
    [isXeTarget] is [g->target->isXeTarget()].  The library module is
    consumed by the linker. *)
Definition lAddBitcodeToModule (isXeTarget : bool) (bcModule : option Module)
    (module : Module) : Module * list string :=
  match bcModule with
  | None => (module, ["Error library module is nullptr"])
  | Some bcModule =>
      let bcModule :=
        if isXeTarget then lUpdateIntrinsicsAttributes bcModule else bcModule in
      let module := lMoveUnusedDeclarations bcModule module in
      let bcModule := eraseNamedMetadata bcModule "llvm.ident" in
      let '(failed, module) := linkModules module bcModule in
      (module, if failed then ["Error linking stdlib bitcode."] else [])
  end.

Definition setTargetTriple (M : Module) (triple : string) : Module :=
  {| FunctionList := FunctionList M; GlobalList := GlobalList M;
     NamedMDList := NamedMDList M; TargetTriple := triple;
     DataLayout := DataLayout M; LastUnique := LastUnique M |}.

Definition setDataLayout (M : Module) (layout : string) : Module :=
  {| FunctionList := FunctionList M; GlobalList := GlobalList M;
     NamedMDList := NamedMDList M; TargetTriple := TargetTriple M;
     DataLayout := layout; LastUnique := LastUnique M |}.

(** [lAddDeclarationsToModule]: the library module and the target module
    after the call, and the diagnostics.  [m_module] is the module of the
    compilation unit, [m->module], whose triple is read. *)
Definition lAddDeclarationsToModule (isXeTarget : bool) (m_module : Module)
    (bcModule : option Module) (module : Module)
    : option Module * Module * list string :=
  match bcModule with
  | None => (None, module, ["Error library module is nullptr"])
  | Some bcModule =>
      let mTriple := TargetTriple m_module in
      let bcModule := setTargetTriple bcModule mTriple in
      let bcModule := setDataLayout bcModule (DataLayout module) in
      let bcModule :=
        if isXeTarget then lUpdateIntrinsicsAttributes bcModule else bcModule in
      let module :=
        foldl (fun module f =>
                 match getFunction module (Name f) with
                 | None =>
                     getOrInsertFunction module (Name f) (FunctionTy f)
                       (Attributes f)
                 | Some _ => module
                 end)
              module (FunctionList bcModule) in
      (Some bcModule, module, [])
  end.

(** ** Renaming for multi-target compilation *)

(** [Value::setName] on the function named [old]: the new name is made
    unique when it is taken; every reference follows. *)
Definition setName (M : Module) (old new : string) : Module :=
  if bool_decide (new = old) then M
  else
    let taken := symbol_names M in
    let '(name, last) :=
      if bool_decide (new ∈ taken)
      then makeUniqueName (S (length taken)) taken new (LastUnique M)
      else (new, LastUnique M) in
    let ren : gmap string string := {[ old := name ]} in
    {| FunctionList := renameFunction ren <$> FunctionList M;
       GlobalList := renameGlobal ren <$> GlobalList M;
       NamedMDList := NamedMDList M; TargetTriple := TargetTriple M;
       DataLayout := DataLayout M; LastUnique := last |}.

(** The first loop of [lLinkStdlib]: every defined function of the library
    outside LLVM's name space gets the target's suffix. *)
Definition lAddTargetSuffix (suffix : string) (stdlibBCModule : Module) : Module :=
  foldl (fun M F =>
           if negb (isDeclaration F) && negb (lStartsWithLLVM (Name F))
           then setName M (Name F) (Name F +:+ suffix)
           else M)
        stdlibBCModule (FunctionList stdlibBCModule).

(** ** The store: modules and libraries behind pointers *)

(** The composition works on [llvm::Module] objects through pointers and
    borrows the precompiled libraries ([BitcodeLib]) from the registry.  An
    object of the store is a module or a library; a library holds its
    bitcode image, [None] when the image does not parse. *)
Definition loc := positive.

Inductive Object :=
  | ObjModule (M : Module)
  | ObjBitcodeLib (image : option Module).

(** The file system as [debugDumpModule] meets it: the paths that exist,
    and the message of the error code that creating a directory or opening
    a file for writing at a path gives, [None] when it succeeds. *)
Record FileSystem := {
  fs_paths : gset string;
  fs_create_directories : string -> option string;
  fs_open : string -> option string
}.

(** The state of a compilation: the store, the diagnostics reported by
    [Error], the modules written by [debugDumpModule] with their
    destination, and the file system. *)
Record State := {
  heap : gmap loc Object;
  errors : list string;
  dumped : list (option string * Module);
  files : FileSystem
}.

(** A computation on the state that may abort the compiler. *)
Definition Comp (A : Type) : Type := State -> Result (A * State).

Global Instance Comp_ret : MRet Comp := fun A a s => Ok (a, s).
Global Instance Comp_bind : MBind Comp := fun A B f c s =>
  match c s with
  | Ok (a, s') => f a s'
  | Fatal msg => Fatal msg
  end.

Definition abort {A} (msg : string) : Comp A := fun _ => Fatal msg.

(** [Assert(p)] on a pointer: the pointee, or an abort for a null one. *)
Definition Assert_ptr {A} (p : option A) (what : string) : Comp A :=
  match p with
  | Some a => mret a
  | None => abort ("Assertion failed: " +:+ what)
  end.

(** Reading and writing a module through a pointer; a pointer that does
    not point to a module stops the run. *)
Definition readModule (p : loc) : Comp Module := fun s =>
  match heap s !! p with
  | Some (ObjModule M) => Ok (M, s)
  | _ => Fatal "invalid module pointer"
  end.

Definition writeModule (p : loc) (M : Module) : Comp unit := fun s =>
  match heap s !! p with
  | Some (ObjModule _) =>
      Ok (tt, {| heap := <[p := ObjModule M]> (heap s); errors := errors s;
                 dumped := dumped s; files := files s |})
  | _ => Fatal "invalid module pointer"
  end.

(** The module is destroyed (the linker owns and frees its source). *)
Definition deleteModule (p : loc) : Comp unit := fun s =>
  match heap s !! p with
  | Some (ObjModule _) =>
      Ok (tt, {| heap := delete p (heap s); errors := errors s;
                 dumped := dumped s; files := files s |})
  | _ => Fatal "invalid module pointer"
  end.

(** In-place update of a module. *)
Definition updateModule (p : loc) (f : Module -> Module) : Comp unit :=
  M ← readModule p; writeModule p (f M).

(** [Error(SourcePos(), ...)] for each message. *)
Definition report (msgs : list string) : Comp unit := fun s =>
  Ok (tt, {| heap := heap s; errors := errors s ++ msgs; dumped := dumped s;
             files := files s |}).

(** Modelled from the spec: [BitcodeLib::getLLVMModule] of the library
    registry, which is not under src/.  Precompiled Library instances are
    borrowed read-only and never mutated; what a composition adapts is a
    private copy: each call makes a new module from the library's image and
    hands out a pointer to it, a null pointer when the image does not
    parse. *)
Definition getLLVMModule (lib : loc) : Comp (option loc) := fun s =>
  match heap s !! lib with
  | Some (ObjBitcodeLib (Some image)) =>
      let p := fresh (dom (heap s)) in
      Ok (Some p, {| heap := <[p := ObjModule image]> (heap s);
                     errors := errors s; dumped := dumped s;
                     files := files s |})
  | Some (ObjBitcodeLib None) => Ok (None, s)
  | _ => Fatal "invalid library pointer"
  end.

(** ** Global state of the compiler ([ispc.h]) *)

(** [g->target]: the target being compiled for. *)
Record Target := {
  isXeTarget : bool;
  getArch : nat;
  getISPCTarget : nat;
  GetTargetSuffix : string;
  getDataLayout : string;
  GetISAString : string
}.

(** [g->target_registry]: the registry of precompiled libraries; each
    lookup gives a pointer to a library or a null pointer. *)
Record TargetLibRegistry := {
  getDispatchLib : nat -> option loc;
  getBuiltinsCLib : nat -> nat -> option loc;
  getISPCTargetLib : nat -> nat -> nat -> option loc;
  getISPCStdLib : nat -> nat -> nat -> option loc
}.

(** The fields of [g] that [builtins.cpp] reads. *)
Record Globals := {
  includeStdlib : bool;
  isMultiTargetCompilation : bool;
  target : Target;
  target_os : nat;
  target_registry : TargetLibRegistry;
  off_stages : gset Z;
  debug_stages : gset Z;
  dumpFile : bool;
  dumpFilePath : string
}.

(** The module is printed to a file or to the standard output ([None]). *)
Definition printModule (dest : option string) (M : Module) : Comp unit :=
  fun s =>
    Ok (tt, {| heap := heap s; errors := errors s;
               dumped := dumped s ++ [(dest, M)]; files := files s |}).

(** [llvm::sys::fs::exists], [llvm::sys::fs::create_directories] and the
    constructor of [llvm::raw_fd_ostream]: the last two give the message of
    their error code, [None] for success, and on success the path
    exists. *)
Definition with_path (fs : FileSystem) (path : string) : FileSystem :=
  {| fs_paths := {[path]} ∪ fs_paths fs;
     fs_create_directories := fs_create_directories fs;
     fs_open := fs_open fs |}.

Definition sys_fs_exists (path : string) : Comp bool := fun s =>
  Ok (bool_decide (path ∈ fs_paths (files s)), s).

Definition sys_fs_create_directories (path : string) : Comp (option string) :=
  fun s =>
    match fs_create_directories (files s) path with
    | Some message => Ok (Some message, s)
    | None =>
        Ok (None, {| heap := heap s; errors := errors s; dumped := dumped s;
                     files := with_path (files s) path |})
    end.

Definition raw_fd_ostream (path : string) : Comp (option string) := fun s =>
  match fs_open (files s) path with
  | Some message => Ok (Some message, s)
  | None =>
      Ok (None, {| heap := heap s; errors := errors s; dumped := dumped s;
                   files := with_path (files s) path |})
  end.

(** [llvm::sys::path::append] of a component that starts with no
    separator to a path that is not empty: a separator comes between the
    two unless the path ends with one. *)
Fixpoint ends_with_separator (path : string) : bool :=
  match path with
  | EmptyString => false
  | String c rest =>
      match rest with
      | EmptyString => bool_decide (path = "/")
      | String _ _ => ends_with_separator rest
      end
  end.

Definition path_append (path name : string) : string :=
  if ends_with_separator path then path +:+ name else path +:+ "/" +:+ name.

(** [debugDumpModule]: when the stage is to be dumped, the module is
    written to a file of the dump directory, which is created when it does
    not exist, or to the standard output.  When the directory cannot be
    created or the file cannot be opened, the error is reported and nothing
    is printed. *)
Definition debugDumpModule (g : Globals) (module : loc) (name : string)
    (stage : Z) : Comp unit :=
  if negb (bool_decide (stage ∉ off_stages g) &&
           bool_decide (stage ∈ debug_stages g))
  then mret tt
  else
    let name := "pre_" +:+ pretty stage +:+ "_" +:+ name +:+ ".ll" in
    if dumpFile g && negb (bool_decide (dumpFilePath g = "")) then
      let path := dumpFilePath g in
      found ← sys_fs_exists path;
      EC ← (if found : bool then mret None
            else sys_fs_create_directories (dumpFilePath g));
      match EC with
      | Some message =>
          report ["Error creating directory '" +:+ dumpFilePath g +:+ "': "
                  +:+ message]
      | None =>
          let name :=
            if isMultiTargetCompilation g
            then name +:+ "_" +:+ GetISAString (target g) else name in
          let path := path_append path name in
          EC ← raw_fd_ostream path;
          match EC with
          | Some message =>
              report ["Error opening file '" +:+ path +:+ "': " +:+ message]
          | None =>
              M ← readModule module;
              (* dump to the file *)
              printModule (Some path) M
          end
      end
    else
      (* dump to stdout *)
      M ← readModule module;
      printModule None M.

(** ** The link stages, on pointers *)

(** A null pointer that is dereferenced stops the run. *)
Definition deref (p : option loc) : Comp loc :=
  match p with
  | Some p => mret p
  | None => abort "null pointer dereference"
  end.

(** [lAddBitcodeToModule] on pointers: the library module is read, linked
    into the target module and destroyed. *)
Definition lAddBitcodeToModule_at (g : Globals) (bcModule : option loc)
    (module : loc) : Comp unit :=
  match bcModule with
  | None => report ["Error library module is nullptr"]
  | Some p =>
      bc ← readModule p;
      M ← readModule module;
      let '(M', errs) :=
        lAddBitcodeToModule (isXeTarget (target g)) (Some bc) M in
      deleteModule p;;
      writeModule module M';;
      report errs
  end.

(** [lAddDeclarationsToModule] on pointers; [m] points to [m->module]. *)
Definition lAddDeclarationsToModule_at (g : Globals) (m : loc)
    (bcModule : option loc) (module : loc) : Comp unit :=
  match bcModule with
  | None => report ["Error library module is nullptr"]
  | Some p =>
      bc ← readModule p;
      m_module ← readModule m;
      M ← readModule module;
      let '(bc', M', errs) :=
        lAddDeclarationsToModule (isXeTarget (target g)) m_module (Some bc) M in
      from_option (writeModule p) (mret tt) bc';;
      writeModule module M';;
      report errs
  end.

(** [LinkDispatcher]. *)
Definition LinkDispatcher (g : Globals) (m : loc) (module : loc) : Comp unit :=
  dispatch ← Assert_ptr (getDispatchLib (target_registry g) (target_os g))
                        "dispatch";
  dispatchBCModule ← getLLVMModule dispatch;
  lAddDeclarationsToModule_at g m dispatchBCModule module;;
  lAddBitcodeToModule_at g dispatchBCModule module.

(** [lLinkCommonBuiltins]; [builtin::__do_print] and [builtin::__num_cores]
    are the names ["__do_print"] and ["__num_cores"]. *)
Definition lLinkCommonBuiltins (g : Globals) (module : loc) : Comp unit :=
  builtins ← Assert_ptr
    (getBuiltinsCLib (target_registry g) (target_os g) (getArch (target g)))
    "builtins";
  builtinsBCModule ← getLLVMModule builtins;
  lAddBitcodeToModule_at g builtinsBCModule module;;
  let commonBuiltins : gset string := {[ "__do_print"; "__num_cores" ]} in
  updateModule module (fun M => lSetAsInternal M commonBuiltins).

(** [lLinkTargetBuiltins]. *)
Definition lLinkTargetBuiltins (g : Globals) (module : loc) : Comp unit :=
  target_lib ← Assert_ptr
    (getISPCTargetLib (target_registry g) (getISPCTarget (target g))
       (target_os g) (getArch (target g)))
    "target";
  targetBCModule ← getLLVMModule target_lib;
  p ← deref targetBCModule;
  bc ← readModule p;
  let targetBuiltins : gset string :=
    list_to_set (filter (fun name => negb (lStartsWithLLVM name))
                        (function_names bc)) in
  updateModule p (fun bc => setDataLayout bc (getDataLayout (target g)));;
  lAddBitcodeToModule_at g targetBCModule module;;
  updateModule module (fun M => lSetAsInternal M targetBuiltins).

(** [lLinkStdlib]. *)
Definition lLinkStdlib (g : Globals) (module : loc) : Comp unit :=
  stdlib ← Assert_ptr
    (getISPCStdLib (target_registry g) (getISPCTarget (target g))
       (target_os g) (getArch (target g)))
    "stdlib";
  stdlibBCModule ← getLLVMModule stdlib;
  p ← deref stdlibBCModule;
  (if isMultiTargetCompilation g
   then updateModule p (lAddTargetSuffix (GetTargetSuffix (target g)))
   else mret tt);;
  bc ← readModule p;
  let stdlibFunctions : gset string := list_to_set (function_names bc) in
  lAddBitcodeToModule_at g stdlibBCModule module;;
  updateModule module (fun M => lSetAsInternal M stdlibFunctions).

(** A step that may abort, applied to the module behind a pointer. *)
Definition tryUpdateModule (p : loc) (f : Module -> Result Module) : Comp unit :=
  M ← readModule p;
  match f M with
  | Ok M' => writeModule p M'
  | Fatal msg => abort msg
  end.

Definition checkModule (p : loc) (f : Module -> Result unit) : Comp unit :=
  M ← readModule p;
  match f M with
  | Ok _ => mret tt
  | Fatal msg => abort msg
  end.

(** [LinkStandardLibraries]: the result is the value of [debug_num] after
    the call. *)
Definition LinkStandardLibraries (g : Globals) (module : loc) (debug_num : Z)
    : Comp Z :=
  debug_num ←
    (if includeStdlib g then
       lLinkStdlib g module;;
       (* Remove from module here only function definitions that unused (or
          cannot be used) in module. *)
       updateModule module lAddPersistentToLLVMUsed;;
       updateModule module lRemoveUnused;;
       tryUpdateModule module lRemoveUnusedPersistentFunctions;;
       debugDumpModule g module "LinkStdlib" debug_num;;
       mret (debug_num + 1)%Z
     else
       updateModule module lAddPersistentToLLVMUsed;;
       mret debug_num);
  lLinkCommonBuiltins g module;;
  updateModule module lRemoveUnused;;
  debugDumpModule g module "LinkCommonBuiltins" debug_num;;
  let debug_num := (debug_num + 1)%Z in
  lLinkTargetBuiltins g module;;
  updateModule module lRemoveUnused;;
  debugDumpModule g module "LinkTargetBuiltins" debug_num;;
  let debug_num := (debug_num + 1)%Z in
  updateModule module lSetInternalLinkageGlobals;;
  checkModule module lCheckModuleIntrinsics;;
  mret debug_num.

(** ** Predicates of the statements *)

(** What the signature check demands of a function in the checked name
    space: its identifier resolves, and its type is the pointer type to the
    backend's function type for that identifier. *)
Definition lSignatureOk (func : Function) : Prop :=
  getIntrinsicID func ≠ 0 ∧
  getType func = PointerType_get (Intrinsic_getType (getIntrinsicID func)) 0.

(** The preservation markers a module holds: the variables with appending
    linkage in the section [llvm.metadata] that list what to preserve. *)
Definition isMarker (G : GlobalVariable) : bool :=
  bool_decide (GLinkage G = AppendingLinkage) &&
  bool_decide (GSection G = "llvm.metadata") &&
  String.prefix "llvm.compiler.used" (GName G).

Definition markers (M : Module) : list GlobalVariable :=
  filter (fun G => isMarker G) (GlobalList M).

(** Reachability from a set of names along a successor function, and the
    global values of a module that dead-code elimination has to keep: those
    reachable from the roots along the references. *)
Inductive reachable (succ : string -> gset string) (X : gset string)
    : string -> Prop :=
  | reachable_root n : n ∈ X -> reachable succ X n
  | reachable_step n r : reachable succ X n -> r ∈ succ n -> reachable succ X r.

Definition live (M : Module) (n : string) : Prop :=
  reachable (references M) (dce_roots M) n.

(** The protect-prune sequence that [LinkStandardLibraries] runs after the
    standard library is linked: anchor, prune, re-closure with its prune. *)
Definition lProtectPrune (M : Module) : Result Module :=
  lRemoveUnusedPersistentFunctions (lRemoveUnused (lAddPersistentToLLVMUsed M)).

(** A constant among operands refers to the global value [r]. *)
Definition refers_to (ops : list Constant) (r : string) : Prop :=
  ∃ c, c ∈ ops ∧ stripped_global c = Some r.

(** The global value named [n] of [M] refers to [r]. *)
Definition references_from (M : Module) (n r : string) : Prop :=
  (∃ F, F ∈ FunctionList M ∧ Name F = n ∧ refers_to (function_operands F) r) ∨
  (∃ G, G ∈ GlobalList M ∧ GName G = n ∧ refers_to (global_operands G) r).

(** The invariant of a module's symbol table: no two global values share a
    name. *)
Definition wf_module (M : Module) : Prop := NoDup (symbol_names M).

(** The libraries of the store are kept: every library of [st] is in
    [st'], with the image it had. *)
Definition libs_unchanged (st st' : State) : Prop :=
  ∀ l image, heap st !! l = Some (ObjBitcodeLib image) →
             heap st' !! l = Some (ObjBitcodeLib image).

(** A computation that keeps the libraries whenever it returns. *)
Definition preserves_libs {A} (c : Comp A) : Prop :=
  ∀ st a st', c st = Ok (a, st') → libs_unchanged st st'.

(** The stages of [LinkStandardLibraries] that come after the one of the
    standard library, from the value of [debug_num] they are entered with:
    common builtins, target builtins, each with its pruning and dump, then
    the demotion of the global variables and the intrinsic check. *)
Definition lLinkBuiltinsStages (g : Globals) (module : loc) (debug_num : Z)
    : Comp Z :=
  lLinkCommonBuiltins g module;;
  updateModule module lRemoveUnused;;
  debugDumpModule g module "LinkCommonBuiltins" debug_num;;
  lLinkTargetBuiltins g module;;
  updateModule module lRemoveUnused;;
  debugDumpModule g module "LinkTargetBuiltins" (debug_num + 1)%Z;;
  updateModule module lSetInternalLinkageGlobals;;
  checkModule module lCheckModuleIntrinsics;;
  mret (debug_num + 1 + 1)%Z.

(** The stage of the standard library with the protect-prune sequence that
    follows it. *)
Definition lLinkStdlibStage (g : Globals) (module : loc) (debug_num : Z)
    : Comp unit :=
  lLinkStdlib g module;;
  updateModule module lAddPersistentToLLVMUsed;;
  updateModule module lRemoveUnused;;
  tryUpdateModule module lRemoveUnusedPersistentFunctions;;
  debugDumpModule g module "LinkStdlib" debug_num.

(** The compiler state with another registry entry for the standard
    library. *)
Definition with_ISPCStdLib (g : Globals)
    (stdlib : nat -> nat -> nat -> option loc) : Globals :=
  {| includeStdlib := includeStdlib g;
     isMultiTargetCompilation := isMultiTargetCompilation g;
     target := target g; target_os := target_os g;
     target_registry :=
       {| getDispatchLib := getDispatchLib (target_registry g);
          getBuiltinsCLib := getBuiltinsCLib (target_registry g);
          getISPCTargetLib := getISPCTargetLib (target_registry g);
          getISPCStdLib := stdlib |};
     off_stages := off_stages g; debug_stages := debug_stages g;
     dumpFile := dumpFile g; dumpFilePath := dumpFilePath g |}.

(** The entries of the table [LLVMTypes] that [lLLVMTypeToISPCType]
    compares a type with. *)
Definition lKnownLLVMTypes : list LType :=
  [VoidType LLVMTypes; BoolType LLVMTypes; Int8Type LLVMTypes;
   Int16Type LLVMTypes; Int32Type LLVMTypes; Float16Type LLVMTypes;
   FloatType LLVMTypes; DoubleType LLVMTypes; Int64Type LLVMTypes;
   Int8VectorType LLVMTypes; Int16VectorType LLVMTypes;
   Int32VectorType LLVMTypes; Float16VectorType LLVMTypes;
   FloatVectorType LLVMTypes; DoubleVectorType LLVMTypes;
   Int64VectorType LLVMTypes; MaskType LLVMTypes;
   Int8PointerType LLVMTypes; Int16PointerType LLVMTypes;
   Int32PointerType LLVMTypes; Int64PointerType LLVMTypes;
   Float16PointerType LLVMTypes; FloatPointerType LLVMTypes;
   DoublePointerType LLVMTypes;
   Int8VectorPointerType LLVMTypes; Int16VectorPointerType LLVMTypes;
   Int32VectorPointerType LLVMTypes; Int64VectorPointerType LLVMTypes;
   Float16VectorPointerType LLVMTypes; FloatVectorPointerType LLVMTypes;
   DoubleVectorPointerType LLVMTypes].

(** The body of the loop of [lAddDeclarationsToModule] over the functions
    of the library. *)
Definition lDeclareFunction (module : Module) (f : Function) : Module :=
  match getFunction module (Name f) with
  | None => getOrInsertFunction module (Name f) (FunctionTy f) (Attributes f)
  | Some _ => module
  end.

(** A computation that, whenever it returns, leaves the store with the
    objects it had; and one that destroys the object at [p] and keeps the
    others. *)
Definition keeps_objects {A} (c : Comp A) : Prop :=
  ∀ st a st', c st = Ok (a, st') → dom (heap st') = dom (heap st).

Definition frees_object {A} (p : loc) (c : Comp A) : Prop :=
  ∀ st a st', c st = Ok (a, st') → dom (heap st') = dom (heap st) ∖ {[p]}.

(** The global value named [n] of [M] has [r] itself among its operands:
    an instruction of the function, or the initializer of the variable,
    holds the value and not an expression over it. *)
Definition uses_directly (M : Module) (n r : string) : Prop :=
  (∃ F, F ∈ FunctionList M ∧ Name F = n ∧ GlobalRef r ∈ function_operands F) ∨
  (∃ G, G ∈ GlobalList M ∧ GName G = n ∧ GlobalRef r ∈ global_operands G).
End Builtins.

(** * A small compilation

    Concrete tables, modules and a store, on which the functions above are
    run.  LLVM types are numbers here. *)
Module Sample.

Definition Ty : Type := nat.

Definition LLVMTypes : @LLVMTypesTable Ty :=
  {| VoidType := 0; BoolType := 1;
     Int8Type := 2; Int16Type := 3; Int32Type := 4; Int64Type := 5;
     Float16Type := 6; FloatType := 7; DoubleType := 8;
     Int8VectorType := 9; Int16VectorType := 10; Int32VectorType := 11;
     Int64VectorType := 12; Float16VectorType := 13;
     FloatVectorType := 14; DoubleVectorType := 15; MaskType := 16;
     Int8PointerType := 17; Int16PointerType := 18;
     Int32PointerType := 19; Int64PointerType := 20;
     Float16PointerType := 21; FloatPointerType := 22;
     DoublePointerType := 23;
     Int8VectorPointerType := 24; Int16VectorPointerType := 25;
     Int32VectorPointerType := 26; Int64VectorPointerType := 27;
     Float16VectorPointerType := 28; FloatVectorPointerType := 29;
     DoubleVectorPointerType := 30 |}.

(** The symbol table as the list of its intrinsic symbols. *)
Definition SymbolTable : Type := list (@Symbol Ty).
Definition LookupIntrinsics (t : SymbolTable) (F : @Function Ty)
    : option (@Symbol Ty) :=
  find (fun sym => bool_decide (sym_name sym = Name F)) t.
Definition AddIntrinsics (t : SymbolTable) (sym : @Symbol Ty) : SymbolTable :=
  t ++ [sym].

(** The backend's tables: one x86 intrinsic, of type [float (float)]. *)
Definition fnty (ret : Ty) (params : list Ty) : @FnType Ty :=
  {| ReturnType := ret; ParamTypes := params; isVarArg := false |}.
Definition lookupIntrinsicID (name : string) : nat :=
  if bool_decide (name = "llvm.x86.sse.sqrt.ss") then 1 else 0.
Definition Intrinsic_getType (id : nat) : @FnType Ty := fnty 7 [7].
Definition PointerType_get (ty : @FnType Ty) (addressSpace : nat) : Ty :=
  31 + ReturnType ty.
Definition Int8PtrTy : Ty := 17.
Definition isGenXIntrinsic (F : @Function Ty) : bool := false.
Definition GenXIntrinsic_getAttributes (F : @Function Ty) : list string := [].
Definition FixFunctionAttribute (attrs : list string) (attr memEffects : string)
    : list string := attrs.
Definition getProgramAddressSpace (layout : string) : nat := 0.
Definition Intrinsic_getAttributes (id : nat) : list string := ["nounwind"].

(** Functions, variables and modules. *)
Definition declare (name : string) (ty : @FnType Ty) : @Function Ty :=
  {| Name := name; FunctionTy := ty; AddressSpace := 0; Attributes := [];
     Linkage := ExternalLinkage; Visibility := DefaultVisibility;
     DSOLocal := false; Body := None |}.
Definition define (name : string) (linkage : LinkageTypes)
    (operands : list Constant) : @Function Ty :=
  {| Name := name; FunctionTy := fnty 0 []; AddressSpace := 0;
     Attributes := []; Linkage := linkage; Visibility := DefaultVisibility;
     DSOLocal := false; Body := Some operands |}.
Definition variable (name : string) (operands : list Constant)
    : @GlobalVariable :=
  {| GName := name; GConstant := false; GLinkage := InternalLinkage;
     GVisibility := DefaultVisibility; GDSOLocal := true;
     Initializer := Some operands; GSection := "" |}.
Definition module_of (fs : list (@Function Ty)) (gs : list (@GlobalVariable))
    : @Module Ty :=
  {| FunctionList := fs; GlobalList := gs; NamedMDList := [];
     TargetTriple := ""; DataLayout := ""; LastUnique := 0 |}.

(** The persistence tables: one group of two functions, one persistent
    function. *)
Definition persistentGroups : list (PersistentGroup * list string) :=
  [(0, ["A"; "B"])].
Definition persistentFuncs : list (string * Z) := [("P", 0%Z)].

(** The library images and the module of the compilation unit. *)
Definition user_module : @Module Ty :=
  module_of [define "main" ExternalLinkage [GlobalRef "stdfn"];
             declare "stdfn" (fnty 0 [])] [].
Definition stdlib_image : @Module Ty :=
  module_of [define "stdfn" ExternalLinkage
               [GlobalRef "__do_print"; GlobalRef "A"; GlobalRef "P"];
             define "unused_std" ExternalLinkage [GlobalRef "B"];
             define "A" ExternalLinkage [];
             define "B" ExternalLinkage [];
             define "P" ExternalLinkage [GlobalRef "llvm.x86.sse.sqrt.ss"];
             declare "__do_print" (fnty 0 []);
             declare "llvm.x86.sse.sqrt.ss" (fnty 7 [7])] [].
Definition builtins_c_image : @Module Ty :=
  module_of [define "__do_print" ExternalLinkage [GlobalRef "__num_cores"];
             define "__num_cores" ExternalLinkage []] [].
Definition target_image : @Module Ty :=
  module_of [define "__target_fn" ExternalLinkage []] [].
Definition dispatch_image : @Module Ty :=
  module_of [define "__dispatch" ExternalLinkage []] [].

(** A file system with nothing in it, where every operation succeeds. *)
Definition empty_disk : FileSystem :=
  {| fs_paths := ∅; fs_create_directories := fun _ => None;
     fs_open := fun _ => None |}.

(** The store: the module at 1, the four libraries at 2 to 5. *)
Definition store : @State Ty :=
  {| heap := {[ 1%positive := ObjModule user_module;
                2%positive := ObjBitcodeLib (Some stdlib_image);
                3%positive := ObjBitcodeLib (Some builtins_c_image);
                4%positive := ObjBitcodeLib (Some target_image);
                5%positive := ObjBitcodeLib (Some dispatch_image) ]};
     errors := []; dumped := []; files := empty_disk |}.

Definition sse4 : Target :=
  {| isXeTarget := false; getArch := 0; getISPCTarget := 0;
     GetTargetSuffix := "_sse4"; getDataLayout := "e-m:e-i64:64";
     GetISAString := "sse4" |}.
Definition registry : TargetLibRegistry :=
  {| getDispatchLib := fun _ => Some 5%positive;
     getBuiltinsCLib := fun _ _ => Some 3%positive;
     getISPCTargetLib := fun _ _ _ => Some 4%positive;
     getISPCStdLib := fun _ _ _ => Some 2%positive |}.
Definition globals (withStdlib : bool) : Globals :=
  {| includeStdlib := withStdlib; isMultiTargetCompilation := false;
     target := sse4; target_os := 0; target_registry := registry;
     off_stages := ∅; debug_stages := {[ 0%Z ]}; dumpFile := false;
     dumpFilePath := "" |}.

(** Modules for the protect-prune sequence and the merge. *)
Definition lone_member : @Module Ty :=
  module_of [define "A" ExternalLinkage []] [].
Definition marked : @Module Ty :=
  module_of [define "P" InternalLinkage []]
            [lNewLLVMUsed [ConstantExpr (GlobalRef "P")]].
Definition with_persistent : @Module Ty :=
  module_of [define "main" ExternalLinkage []; define "P" InternalLinkage [];
             define "dead" InternalLinkage []] [].
Definition holds_variable : @Module Ty :=
  module_of [] [variable "x" []; lNewLLVMUsed [GlobalRef "x"]].
Definition library : @Module Ty :=
  module_of [define "g" ExternalLinkage [GlobalRef "d"];
             declare "d" (fnty 0 []); declare "z" (fnty 7 [7])] [].
Definition target_module : @Module Ty :=
  module_of [define "main" ExternalLinkage []] [].
Definition sqrt_ss : @Function Ty := declare "llvm.x86.sse.sqrt.ss" (fnty 7 [7]).

(** The functions of the composition on these tables. *)
Definition protectPrune : @Module Ty -> Result (@Module Ty) :=
  lProtectPrune PointerType_get persistentGroups persistentFuncs Int8PtrTy.
Definition anchor : @Module Ty -> @Module Ty :=
  lAddPersistentToLLVMUsed PointerType_get persistentGroups persistentFuncs
    Int8PtrTy.
Definition addBitcode (isXe : bool) (bc : option (@Module Ty))
    (M : @Module Ty) : @Module Ty * list string :=
  lAddBitcodeToModule lookupIntrinsicID false 170000%N isGenXIntrinsic
    GenXIntrinsic_getAttributes FixFunctionAttribute getProgramAddressSpace
    Intrinsic_getAttributes isXe bc M.
Definition compose (g : Globals) (module : loc) (debug_num : Z)
    : Comp (LType:=Ty) Z :=
  LinkStandardLibraries lookupIntrinsicID Intrinsic_getType PointerType_get
    false 170000%N isGenXIntrinsic GenXIntrinsic_getAttributes
    FixFunctionAttribute getProgramAddressSpace Intrinsic_getAttributes
    persistentGroups persistentFuncs Int8PtrTy g module debug_num.

(** The table of types under opaque pointers: the pointer types are one
    type. *)
Definition OpaquePointerTypes : @LLVMTypesTable Ty :=
  {| VoidType := 0; BoolType := 1;
     Int8Type := 2; Int16Type := 3; Int32Type := 4; Int64Type := 5;
     Float16Type := 6; FloatType := 7; DoubleType := 8;
     Int8VectorType := 9; Int16VectorType := 10; Int32VectorType := 11;
     Int64VectorType := 12; Float16VectorType := 13;
     FloatVectorType := 14; DoubleVectorType := 15; MaskType := 16;
     Int8PointerType := 17; Int16PointerType := 17;
     Int32PointerType := 17; Int64PointerType := 17;
     Float16PointerType := 17; FloatPointerType := 17;
     DoublePointerType := 17;
     Int8VectorPointerType := 17; Int16VectorPointerType := 17;
     Int32VectorPointerType := 17; Int64VectorPointerType := 17;
     Float16VectorPointerType := 17; FloatVectorPointerType := 17;
     DoubleVectorPointerType := 17 |}.

(** The store where the library of common builtins has no module. *)
Definition store_without_builtins : @State Ty :=
  {| heap := <[ 3%positive := ObjBitcodeLib None ]> (heap store);
     errors := []; dumped := []; files := empty_disk |}.

(** Opaque pointers: the pointer type does not depend on the pointee. *)
Definition OpaquePointerType_get (ty : @FnType Ty) (addressSpace : nat) : Ty :=
  17 + addressSpace.

(** A module that declares the intrinsic with another signature than the
    backend's [fnty 7 [7]]. *)
Definition other_signature : @Module Ty :=
  module_of [declare "llvm.x86.sse.sqrt.ss" (fnty 4 [4; 4])] [].

(** Modules for the re-closure: [main] holds a cast of the group member
    [A]; the only user of [A] is a function that the first prune removes. *)
Definition cast_user : @Module Ty :=
  module_of [define "main" ExternalLinkage [ConstantExpr (GlobalRef "A")];
             define "A" InternalLinkage []; define "B" InternalLinkage []] [].
Definition dead_user : @Module Ty :=
  module_of [define "main" ExternalLinkage [];
             define "dead" InternalLinkage [GlobalRef "A"];
             define "A" InternalLinkage []; define "B" InternalLinkage []] [].

(** [main] calls the group member [A]. *)
Definition direct_user : @Module Ty :=
  module_of [define "main" ExternalLinkage [GlobalRef "A"];
             define "A" InternalLinkage []; define "B" InternalLinkage []] [].

(** A compilation that dumps stage 0 to the directory [dumps], on a disk
    where no directory can be created. *)
Definition dumping : Globals :=
  {| includeStdlib := true; isMultiTargetCompilation := false;
     target := sse4; target_os := 0; target_registry := registry;
     off_stages := ∅; debug_stages := {[ 0%Z ]}; dumpFile := true;
     dumpFilePath := "dumps" |}.
Definition full_disk : FileSystem :=
  {| fs_paths := ∅;
     fs_create_directories := fun _ => Some "No space left on device";
     fs_open := fun _ => None |}.
Definition store_on_full_disk : @State Ty :=
  {| heap := heap store; errors := []; dumped := []; files := full_disk |}.
End Sample.

Lemma filter_none {A} (P : A → Prop) `{!∀ x, Decision (P x)} (l : list A) :
  (∀ x, x ∈ l → ¬ P x) → filter P l = [].
Proof.
  induction l as [|x l IH]; intros Hall; [done|].
  rewrite filter_cons_False; [|apply Hall; by left].
  apply IH. intros y Hy. apply Hall. by right.
Qed.

Lemma filter_all {A} (P : A → Prop) `{!∀ x, Decision (P x)} (l : list A) :
  (∀ x, x ∈ l → P x) → filter P l = l.
Proof.
  induction l as [|x l IH]; intros Hall; [done|].
  rewrite filter_cons_True; [|apply Hall; by left].
  f_equal. apply IH. intros y Hy. apply Hall. by right.
Qed.

Section SymbolTableProperties.
Context {LType : Type}.
Implicit Types (M : @Module LType) (G : @GlobalVariable).

Lemma string_app_ne (base x : string) : x ≠ "" → base +:+ x ≠ base.
Proof.
  intros Hx. induction base as [|a base IH]; simpl; [done|].
  intros [= H]. by apply IH.
Qed.

(** A name made unique differs from the name asked for. *)
Lemma makeUniqueName_ne fuel taken base last :
  (makeUniqueName fuel taken base last).1 ≠ base.
Proof.
  revert last. induction fuel as [|fuel IH]; intros last; simpl.
  - by apply string_app_ne.
  - case_bool_decide; [apply IH|]. by apply string_app_ne.
Qed.

(** The bound of the loop is enough: with more rounds than names in the
    table, the name made unique is not in the table. *)
Lemma makeUniqueName_fresh_aux fuel taken base last tried :
  NoDup tried →
  (∀ x, x ∈ tried → x ∈ taken) →
  (∀ x, x ∈ tried → ∃ k, (k ≤ last) ∧ x = (base +:+ "." +:+ pretty k)) →
  length taken < fuel + length tried →
  (makeUniqueName fuel taken base last).1 ∉ taken.
Proof.
  revert last tried. induction fuel as [|fuel IH]; intros last tried Hnd Hsub Hform Hlen.
  - pose proof (submseteq_length _ _ (NoDup_submseteq _ _ Hnd Hsub)). simpl in *. lia.
  - simpl. case_bool_decide as Hin; [|done].
    apply (IH (S last) ((base +:+ "." +:+ pretty (S last)) :: tried)).
    + constructor; [|done]. intros Htried.
      destruct (Hform _ Htried) as (k & Hk & Heq).
      apply (inj (String.app base)), (inj (String.app ".")), (inj pretty) in Heq. lia.
    + intros x [->|Hx]%elem_of_cons; auto.
    + intros x [->|Hx]%elem_of_cons; [eauto|].
      destruct (Hform _ Hx) as (k & Hk & Heq). exists k. split; [lia|done].
    + simpl. lia.
Qed.

Lemma makeUniqueName_fresh taken base last :
  (makeUniqueName (S (length taken)) taken base last).1 ∉ taken.
Proof.
  apply (makeUniqueName_fresh_aux _ _ _ _ []).
  - constructor.
  - by intros x ?%elem_of_nil.
  - by intros x ?%elem_of_nil.
  - simpl. lia.
Qed.

Lemma insertGlobalVariable_functions M G :
  FunctionList (insertGlobalVariable M G) = FunctionList M.
Proof. unfold insertGlobalVariable. by destruct (if bool_decide _ then _ else _). Qed.

Lemma insertGlobalVariable_free M G :
  GName G ∉ symbol_names M →
  GlobalList (insertGlobalVariable M G) = GlobalList M ++ [G].
Proof.
  intros Hfree. unfold insertGlobalVariable.
  rewrite (bool_decide_eq_false_2 _ Hfree). simpl. by destruct G.
Qed.

(** Inserting a variable keeps the variables that are there, in place; the
    new one is the last, under its name when that is free and under another
    name when it is taken. *)
Lemma insertGlobalVariable_globals M G :
  ∃ G', GlobalList (insertGlobalVariable M G) = GlobalList M ++ [G'] ∧
        Initializer G' = Initializer G ∧ GLinkage G' = GLinkage G ∧
        GSection G' = GSection G ∧
        GisDeclaration G' = GisDeclaration G ∧
        (GName G' ∉ symbol_names M) ∧
        (GName G ∉ symbol_names M → G' = G) ∧
        (GName G ∈ symbol_names M → GName G' ≠ GName G).
Proof.
  unfold insertGlobalVariable. case_bool_decide as Hin.
  - pose proof (makeUniqueName_ne (S (length (symbol_names M))) (symbol_names M)
                  (GName G) (LastUnique M)) as Hne.
    pose proof (makeUniqueName_fresh (symbol_names M) (GName G) (LastUnique M))
      as Hfresh.
    destruct (makeUniqueName _ _ _ _) as [name last]. simpl in *.
    eexists. split; [done|]. simpl. split_and!; done.
  - simpl. eexists. split; [done|]. simpl. split_and!; try done.
    intros _. by destruct G.
Qed.

Lemma eraseGlobal_functions M name :
  FunctionList (eraseGlobal M name) = FunctionList M.
Proof. done. Qed.

Lemma eraseGlobal_names M name :
  name ∉ global_names (eraseGlobal M name).
Proof.
  unfold global_names, eraseGlobal. simpl. intros [G [-> HG]]%list_elem_of_fmap.
  apply list_elem_of_filter in HG as [Hne _]. done.
Qed.
End SymbolTableProperties.

Section ClosureProperties.
Variable succ : string -> gset string.
Implicit Types (X U : gset string).

Lemma closure_step_incl X : X ⊆ closure_step succ X.
Proof. unfold closure_step. set_solver. Qed.

Lemma closure_incl fuel X : X ⊆ closure fuel succ X.
Proof.
  revert X. induction fuel as [|fuel IH]; intros X; simpl; [done|].
  etrans; [apply closure_step_incl|apply IH].
Qed.

Lemma closure_step_fixed fuel X :
  closure_step succ X = X → closure fuel succ X = X.
Proof.
  intros Hfix. induction fuel as [|fuel IH]; simpl; [done|].
  by rewrite Hfix.
Qed.

Lemma reachable_closure_step X n :
  reachable succ (closure_step succ X) n → reachable succ X n.
Proof.
  intros H. induction H as [n Hn|n r _ IHr Hr].
  - unfold closure_step in Hn.
    apply elem_of_union in Hn as [Hn|Hn]; [by constructor|].
    apply elem_of_set_bind in Hn as (x & Hx & Hn).
    eapply reachable_step; [|done]. by constructor.
  - eapply reachable_step; [exact IHr|exact Hr].
Qed.

Lemma closure_sound fuel X n :
  n ∈ closure fuel succ X → reachable succ X n.
Proof.
  revert X. induction fuel as [|fuel IH]; intros X; simpl.
  - by constructor.
  - intros H%IH. by apply reachable_closure_step.
Qed.

(** Within a finite universe the iteration reaches a fixed point after as
    many steps as the universe has elements outside the start set. *)
Lemma closure_fixed_point fuel X U :
  X ⊆ U → (∀ x, succ x ⊆ U) → size U - size X ≤ fuel →
  closure_step succ (closure fuel succ X) = closure fuel succ X.
Proof.
  intros HX Hsucc. revert X HX.
  assert (∀ X, X ⊆ U → closure_step succ X ⊆ U) as Hstep.
  { intros X HX. unfold closure_step. intros n [Hn|Hn]%elem_of_union; [auto|].
    apply elem_of_set_bind in Hn as (x & _ & Hn). by eapply Hsucc. }
  induction fuel as [|fuel IH]; intros X HX Hsize; simpl.
  - apply (anti_symm (⊆)); [|apply closure_step_incl].
    assert (X = U) as ->.
    { apply set_subseteq_size_eq; [done|lia]. }
    by apply Hstep.
  - destruct (decide (closure_step succ X = X)) as [Hfix|Hne].
    + rewrite Hfix. rewrite (closure_step_fixed fuel X Hfix). done.
    + apply IH; [by apply Hstep|].
      assert (X ⊂ closure_step succ X) as Hlt.
      { split; [apply closure_step_incl|].
        intros Hsub. apply Hne.
        apply (anti_symm (⊆)); [done|apply closure_step_incl]. }
      apply subset_size in Hlt.
      pose proof (subseteq_size _ _ (Hstep X HX)). lia.
Qed.

Lemma closure_complete fuel X U n :
  X ⊆ U → (∀ x, succ x ⊆ U) → size U - size X ≤ fuel →
  reachable succ X n → n ∈ closure fuel succ X.
Proof.
  intros HX Hsucc Hsize Hn. induction Hn as [n Hn|n r _ IHn Hr].
  - by apply closure_incl.
  - rewrite <- (closure_fixed_point fuel X U HX Hsucc Hsize).
    unfold closure_step. apply elem_of_union. right.
    apply elem_of_set_bind. eauto.
Qed.

Lemma reachable_mono (succ' : string -> gset string) X X' n :
  (∀ x, x ∈ X → reachable succ' X' x) →
  (∀ x r, reachable succ X x → reachable succ' X' x → r ∈ succ x →
          reachable succ' X' r) →
  reachable succ X n → reachable succ' X' n.
Proof.
  intros Hroots Hstep Hn. induction Hn as [n Hn|n r Hn IHn Hr]; [auto|].
  by eapply Hstep.
Qed.
End ClosureProperties.

Section DCEProperties.
Context {LType : Type}.
Implicit Types (M : @Module LType) (F : @Function LType) (G : @GlobalVariable).

Lemma elem_of_referenced_names ops r :
  r ∈ referenced_names ops ↔ refers_to ops r.
Proof.
  unfold referenced_names, refers_to.
  rewrite elem_of_list_to_set, list_elem_of_omap. done.
Qed.

Lemma elem_of_symbol_set M n : n ∈ symbol_set M ↔ n ∈ symbol_names M.
Proof. unfold symbol_set. by rewrite elem_of_list_to_set. Qed.

Lemma function_name_symbol M F : F ∈ FunctionList M → Name F ∈ symbol_set M.
Proof.
  intros HF. apply elem_of_symbol_set. unfold symbol_names, function_names.
  apply elem_of_app. left. by apply list_elem_of_fmap_2.
Qed.

Lemma global_name_symbol M G : G ∈ GlobalList M → GName G ∈ symbol_set M.
Proof.
  intros HG. apply elem_of_symbol_set. unfold symbol_names, global_names.
  apply elem_of_app. right. by apply list_elem_of_fmap_2.
Qed.

Lemma elem_of_references M n r :
  r ∈ references M n ↔ r ∈ symbol_set M ∧ references_from M n r.
Proof.
  unfold references, references_from.
  rewrite elem_of_intersection, elem_of_referenced_names.
  split.
  - intros [(c & Hc & Hr) H2]. split; [done|].
    apply elem_of_app in Hc as [Hc|Hc];
      apply list_elem_of_bind in Hc as (x & Hc & Hx);
      apply list_elem_of_filter in Hx as [Hn Hx]; [left|right];
      exists x; (split_and!; [done|done|]); by exists c.
  - intros [H1 H2]. split; [|done].
    destruct H2 as [(F & HF & Hn & c & Hc & Hr)|(G & HG & Hn & c & Hc & Hr)];
      exists c; (split; [|done]); apply elem_of_app; [left|right];
      apply list_elem_of_bind; eexists; (split; [done|]);
      by apply list_elem_of_filter.
Qed.

Lemma references_symbols M n : references M n ⊆ symbol_set M.
Proof. intros r Hr. by apply elem_of_references in Hr as [? _]. Qed.

Lemma elem_of_dce_roots M n :
  n ∈ dce_roots M ↔
  (∃ F, F ∈ FunctionList M ∧ Name F = n ∧ isDeclaration F = false ∧
        isDiscardableIfUnused (Linkage F) = false) ∨
  (∃ G, G ∈ GlobalList M ∧ GName G = n ∧ GisDeclaration G = false ∧
        isDiscardableIfUnused (GLinkage G) = false).
Proof.
  unfold dce_roots. rewrite elem_of_union, !elem_of_list_to_set, !list_elem_of_fmap.
  split; (intros [H|H]; [left|right]).
  - destruct H as (F & -> & HF). apply list_elem_of_filter in HF as [Hp HF].
    exists F. apply andb_prop_elim in Hp as [H1 H2].
    apply negb_prop_elim, Is_true_false in H1.
    apply negb_prop_elim, Is_true_false in H2. done.
  - destruct H as (G & -> & HG). apply list_elem_of_filter in HG as [Hp HG].
    exists G. apply andb_prop_elim in Hp as [H1 H2].
    apply negb_prop_elim, Is_true_false in H1.
    apply negb_prop_elim, Is_true_false in H2. done.
  - destruct H as (F & HF & <- & H1 & H2). exists F. split; [done|].
    apply list_elem_of_filter. split; [|done]. by rewrite H1, H2.
  - destruct H as (G & HG & <- & H1 & H2). exists G. split; [done|].
    apply list_elem_of_filter. split; [|done]. by rewrite H1, H2.
Qed.

Lemma dce_roots_symbols M : dce_roots M ⊆ symbol_set M.
Proof.
  intros n [(F & HF & <- & _)|(G & HG & <- & _)]%elem_of_dce_roots.
  - by apply function_name_symbol.
  - by apply global_name_symbol.
Qed.

(** The set that the pass computes is the set of live global values. *)
Lemma elem_of_alive M n : n ∈ alive M ↔ live M n.
Proof.
  unfold alive, live. split; [apply closure_sound|].
  apply (closure_complete _ _ _ (symbol_set M)).
  - apply dce_roots_symbols.
  - apply references_symbols.
  - lia.
Qed.

Lemma live_symbol M n : live M n → n ∈ symbol_set M.
Proof.
  intros H. induction H as [n Hn|n r _ _ Hr].
  - by apply dce_roots_symbols.
  - by apply references_symbols in Hr.
Qed.

Lemma elem_of_GlobalDCEPass_functions M F :
  F ∈ FunctionList (GlobalDCEPass M) ↔ F ∈ FunctionList M ∧ live M (Name F).
Proof.
  unfold GlobalDCEPass. simpl. rewrite list_elem_of_filter, elem_of_alive. tauto.
Qed.

Lemma elem_of_GlobalDCEPass_globals M G :
  G ∈ GlobalList (GlobalDCEPass M) ↔ G ∈ GlobalList M ∧ live M (GName G).
Proof.
  unfold GlobalDCEPass. simpl. rewrite list_elem_of_filter, elem_of_alive. tauto.
Qed.

Lemma elem_of_function_names M n :
  n ∈ function_names M ↔ ∃ F, F ∈ FunctionList M ∧ Name F = n.
Proof.
  unfold function_names. rewrite list_elem_of_fmap.
  split; intros (F & H1 & H2); exists F; done.
Qed.

Lemma elem_of_global_names M n :
  n ∈ global_names M ↔ ∃ G, G ∈ GlobalList M ∧ GName G = n.
Proof.
  unfold global_names. rewrite list_elem_of_fmap.
  split; intros (G & H1 & H2); exists G; done.
Qed.

(** The pass keeps exactly the live functions. *)
Lemma GlobalDCEPass_function_names M n :
  n ∈ function_names (GlobalDCEPass M) ↔ n ∈ function_names M ∧ live M n.
Proof.
  rewrite !elem_of_function_names. split.
  - intros (F & [HF Hl]%elem_of_GlobalDCEPass_functions & <-). eauto.
  - intros [(F & HF & <-) Hl]. exists F. split; [|done].
    by apply elem_of_GlobalDCEPass_functions.
Qed.
(** Liveness grows with the module: global values that are added can only
    add roots and references. *)
Lemma symbol_set_mono M M' n :
  (∀ F, F ∈ FunctionList M → F ∈ FunctionList M') →
  (∀ G, G ∈ GlobalList M → G ∈ GlobalList M') →
  n ∈ symbol_set M → n ∈ symbol_set M'.
Proof.
  intros HF HG. rewrite !elem_of_symbol_set. unfold symbol_names.
  rewrite !elem_of_app, !elem_of_function_names, !elem_of_global_names.
  intros [(F & H1 & H2)|(G & H1 & H2)]; [left|right]; eauto.
Qed.

Lemma references_from_mono M M' n r :
  (∀ F, F ∈ FunctionList M → F ∈ FunctionList M') →
  (∀ G, G ∈ GlobalList M → G ∈ GlobalList M') →
  references_from M n r → references_from M' n r.
Proof.
  intros HF HG [(F & H1 & H2)|(G & H1 & H2)]; [left|right]; eauto.
Qed.

Lemma live_mono M M' n :
  (∀ F, F ∈ FunctionList M → F ∈ FunctionList M') →
  (∀ G, G ∈ GlobalList M → G ∈ GlobalList M') →
  live M n → live M' n.
Proof.
  intros HF HG. unfold live. apply reachable_mono.
  - intros x [(F & H1 & H2)|(G & H1 & H2)]%elem_of_dce_roots;
      apply reachable_root, elem_of_dce_roots; [left|right]; eauto.
  - intros x r _ Hx [Hs Hr]%elem_of_references.
    eapply reachable_step; [exact Hx|]. apply elem_of_references. split.
    + by eapply symbol_set_mono.
    + by eapply references_from_mono.
Qed.

(** What is live stays live in the pruned module, and nothing else is. *)
Lemma live_GlobalDCEPass M n : live (GlobalDCEPass M) n ↔ live M n.
Proof.
  split.
  - apply live_mono.
    + by intros F [? _]%elem_of_GlobalDCEPass_functions.
    + by intros G [? _]%elem_of_GlobalDCEPass_globals.
  - intros Hn. unfold live in Hn.
    induction Hn as [n Hn|n r Hn IHn Hr].
    + apply reachable_root.
      apply elem_of_dce_roots in Hn as Hroot. apply elem_of_dce_roots.
      destruct Hroot as [(F & H1 & H2 & H3)|(G & H1 & H2 & H3)]; [left|right].
      * exists F. split; [|done]. apply elem_of_GlobalDCEPass_functions.
        split; [done|]. rewrite H2. by apply reachable_root.
      * exists G. split; [|done]. apply elem_of_GlobalDCEPass_globals.
        split; [done|]. rewrite H2. by apply reachable_root.
    + eapply reachable_step; [exact IHn|].
      assert (live M r) as Hlr by (by eapply reachable_step).
      apply elem_of_references in Hr as [Hs Hr]. apply elem_of_references. split.
      * apply elem_of_symbol_set in Hs. apply elem_of_symbol_set.
        unfold symbol_names in *. rewrite elem_of_app in Hs. rewrite elem_of_app.
        rewrite elem_of_function_names, elem_of_global_names in Hs.
        rewrite elem_of_function_names, elem_of_global_names.
        destruct Hs as [(F & H1 & H2)|(G & H1 & H2)]; [left|right].
        -- exists F. split; [|done]. apply elem_of_GlobalDCEPass_functions.
           by rewrite H2.
        -- exists G. split; [|done]. apply elem_of_GlobalDCEPass_globals.
           by rewrite H2.
      * destruct Hr as [(F & H1 & H2 & H3)|(G & H1 & H2 & H3)]; [left|right].
        -- exists F. split; [|done]. apply elem_of_GlobalDCEPass_functions.
           by rewrite H2.
        -- exists G. split; [|done]. apply elem_of_GlobalDCEPass_globals.
           by rewrite H2.
Qed.

(** A module in which every global value is live is left as it is. *)
Lemma GlobalDCEPass_all_live M :
  (∀ n, n ∈ symbol_set M → live M n) → GlobalDCEPass M = M.
Proof.
  intros Hall. unfold GlobalDCEPass. destruct M as [fs gs md tt dl lu]. simpl.
  f_equal.
  - apply filter_all. intros F HF. apply elem_of_alive, Hall.
    by apply (function_name_symbol (Build_Module fs gs md tt dl lu)).
  - apply filter_all. intros G HG. apply elem_of_alive, Hall.
    by apply (global_name_symbol (Build_Module fs gs md tt dl lu)).
Qed.

Lemma symbol_set_GlobalDCEPass M n :
  n ∈ symbol_set (GlobalDCEPass M) → live M n.
Proof.
  rewrite elem_of_symbol_set. unfold symbol_names.
  rewrite elem_of_app, elem_of_function_names, elem_of_global_names.
  intros [(F & [_ H1]%elem_of_GlobalDCEPass_functions & <-)|
          (G & [_ H1]%elem_of_GlobalDCEPass_globals & <-)]; done.
Qed.

(** Pruning twice is pruning once. *)
Lemma GlobalDCEPass_idempotent M :
  GlobalDCEPass (GlobalDCEPass M) = GlobalDCEPass M.
Proof.
  apply GlobalDCEPass_all_live. intros n Hn.
  by apply live_GlobalDCEPass, symbol_set_GlobalDCEPass.
Qed.

(** A function that a non-discardable variable refers to is kept. *)
Lemma GlobalDCEPass_keeps_referenced M G b :
  G ∈ GlobalList M → GisDeclaration G = false →
  isDiscardableIfUnused (GLinkage G) = false →
  refers_to (global_operands G) b → b ∈ function_names M →
  b ∈ function_names (GlobalDCEPass M).
Proof.
  intros HG Hdef Hlink Hr Hb. apply GlobalDCEPass_function_names. split; [done|].
  eapply reachable_step.
  - apply reachable_root, elem_of_dce_roots. right. by exists G.
  - apply elem_of_references. split.
    + apply elem_of_symbol_set. unfold symbol_names. apply elem_of_app. by left.
    + right. by exists G.
Qed.

(** Liveness carries over to a module that holds every live global value
    of the first. *)
Lemma live_transfer M M2 n :
  (∀ F, F ∈ FunctionList M → live M (Name F) → F ∈ FunctionList M2) →
  (∀ G, G ∈ GlobalList M → live M (GName G) → G ∈ GlobalList M2) →
  live M n → live M2 n.
Proof.
  intros HF HG Hlive. unfold live in Hlive.
  induction Hlive as [n Hroot|n r Hn IHn Hr].
  - assert (live M n) as Hl by (by apply reachable_root).
    apply reachable_root.
    apply elem_of_dce_roots in Hroot as [(F & Hin & <- & ? & ?)|(G & Hin & <- & ? & ?)];
      apply elem_of_dce_roots; [left; exists F|right; exists G]; auto.
  - assert (live M n) as Hln by exact Hn.
    assert (live M r) as Hlr by (by eapply reachable_step).
    eapply reachable_step; [exact IHn|].
    apply elem_of_references in Hr as [Hs Hr]. apply elem_of_references. split.
    + apply elem_of_symbol_set in Hs. apply elem_of_symbol_set.
      unfold symbol_names in *. apply elem_of_app in Hs as [Hs|Hs]; apply elem_of_app.
      * left. apply elem_of_function_names in Hs as (F & Hin & <-).
        apply elem_of_function_names. exists F. auto.
      * right. apply elem_of_global_names in Hs as (G & Hin & <-).
        apply elem_of_global_names. exists G. auto.
    + destruct Hr as [(F & Hin & <- & Href)|(G & Hin & <- & Href)];
        [left; exists F|right; exists G]; auto.
Qed.
End DCEProperties.

Section UseProperties.
Context {LType : Type}.
Implicit Types (M : @Module LType) (F : @Function LType) (G : @GlobalVariable).

(** *** Constants *)

Lemma subconstants_self c : c ∈ subconstants c.
Proof. destruct c; simpl; by left. Qed.

(** A constant is built on a global value when it is that value or holds
    the cast of it. *)
Lemma stripped_global_cases c a :
  stripped_global c = Some a ↔
  c = GlobalRef a ∨ ConstantExpr (GlobalRef a) ∈ subconstants c.
Proof.
  induction c as [n|o IH|d]; simpl.
  - split.
    + intros [= ->]. by left.
    + intros [[= ->]|H]; [done|].
      apply elem_of_cons in H as [H|H]; [done|by apply elem_of_nil in H].
  - rewrite IH. split.
    + intros [->|H]; right; [by left|]. by right.
    + intros [H|H]; [done|].
      apply elem_of_cons in H as [[= ->]|H]; [by left|by right].
  - split; [done|]. intros [H|H]; [done|].
    apply elem_of_cons in H as [H|H]; [done|by apply elem_of_nil in H].
Qed.

Lemma refers_to_cases ops a :
  refers_to ops a ↔
  GlobalRef a ∈ ops ∨ ∃ c, c ∈ ops ∧ ConstantExpr (GlobalRef a) ∈ subconstants c.
Proof.
  unfold refers_to. split.
  - intros (c & Hc & [->|H]%stripped_global_cases); [by left|right; eauto].
  - intros [H|(c & Hc & H)].
    + exists (GlobalRef a). done.
    + exists c. split; [done|]. apply stripped_global_cases. by right.
Qed.

(** *** Arrays *)

(** A list of elements with one that is not constant data makes a constant
    array. *)
Lemma isa_ConstantArray_operand elems c :
  c ∈ elems → (∀ d, c ≠ ConstantData d) → isa_ConstantArray elems = true.
Proof.
  intros Hc Hnd. destruct elems as [|x rest]; [by apply elem_of_nil in Hc|].
  destruct x as [n|o|d]; [done|done|]. simpl.
  apply negb_true_iff, not_true_iff_false. intros Hall.
  apply elem_of_cons in Hc as [->|Hc]; [by apply (Hnd d)|].
  rewrite forallb_forall in Hall.
  specialize (Hall c (proj1 (list_elem_of_In _ _) Hc)).
  apply bool_decide_eq_true in Hall. by apply (Hnd d).
Qed.

Lemma isa_ConstantArray_refers elems a :
  refers_to elems a → isa_ConstantArray elems = true.
Proof.
  intros (c & Hc & Hs). apply (isa_ConstantArray_operand elems c Hc).
  intros d ->. done.
Qed.

Lemma isa_ConstantArray_nonempty elems :
  isa_ConstantArray elems = true → elems ≠ [].
Proof. by destruct elems. Qed.

Lemma elem_of_module_arrays M elems :
  elems ∈ module_arrays M ↔
  isa_ConstantArray elems = true ∧
  ∃ G, G ∈ GlobalList M ∧ Initializer G = Some elems.
Proof.
  unfold module_arrays.
  rewrite elem_of_remove_dups, list_elem_of_filter, list_elem_of_omap.
  split; (intros [H1 H2]; split; [by destruct (isa_ConstantArray elems)|done]).
Qed.

Lemma elem_of_instruction_operands M c :
  c ∈ instruction_operands M ↔
  ∃ F, F ∈ FunctionList M ∧ c ∈ function_operands F.
Proof.
  unfold instruction_operands. rewrite list_elem_of_bind.
  split; intros (F & H1 & H2); eauto.
Qed.

Lemma elem_of_module_constants M k :
  k ∈ module_constants M ↔
  (∃ F c, F ∈ FunctionList M ∧ c ∈ function_operands F ∧ k ∈ subconstants c) ∨
  (∃ elems c, elems ∈ module_arrays M ∧ c ∈ elems ∧ k ∈ subconstants c).
Proof.
  unfold module_constants. rewrite list_elem_of_bind. split.
  - intros (c & Hk & Hc). apply elem_of_app in Hc as [Hc|Hc].
    + apply elem_of_instruction_operands in Hc as (F & HF & Hc).
      left. by exists F, c.
    + apply list_elem_of_join in Hc as (elems & Hc & He).
      right. by exists elems, c.
  - intros [(F & c & HF & Hc & Hk)|(elems & c & He & Hc & Hk)];
      exists c; (split; [done|]); apply elem_of_app; [left|right].
    + apply elem_of_instruction_operands. eauto.
    + apply list_elem_of_join. eauto.
Qed.

(** *** Counting *)

Lemma count_operand_pos v ops : 0 < count_operand v ops ↔ v ∈ ops.
Proof.
  unfold count_operand. split.
  - intros Hpos. destruct (filter (λ c, c = v) ops) as [|x l] eqn:Hf;
      [simpl in Hpos; lia|].
    assert (x ∈ filter (λ c, c = v) ops) as Hx by (rewrite Hf; by left).
    apply list_elem_of_filter in Hx as [-> Hx]. done.
  - intros Hin.
    assert (v ∈ filter (λ c, c = v) ops) as Hx by by apply list_elem_of_filter.
    destruct (filter (λ c, c = v) ops); [by apply elem_of_nil in Hx|simpl; lia].
Qed.

Lemma sum_list_with_pos {A} (f : A → nat) (l : list A) :
  0 < sum_list_with f l ↔ ∃ x, x ∈ l ∧ 0 < f x.
Proof.
  induction l as [|y l IH]; simpl.
  - split; [lia|]. intros (x & Hx & _). by apply elem_of_nil in Hx.
  - split.
    + intros Hpos. destruct (decide (0 < f y)) as [Hy|Hy].
      * exists y. split; [by left|done].
      * destruct IH as [IH _]. destruct IH as (x & Hx & Hfx); [lia|].
        exists x. split; [by right|done].
    + intros (x & [->|Hx]%elem_of_cons & Hfx); [lia|].
      assert (0 < sum_list_with f l) by (apply IH; eauto). lia.
Qed.

(** Two different members of a list without duplicates count twice. *)
Lemma sum_list_with_two {A} (f : A → nat) (l : list A) x y :
  NoDup l → x ∈ l → y ∈ l → x ≠ y → 0 < f x → 0 < f y →
  2 ≤ sum_list_with f l.
Proof.
  intros Hnd Hx Hy Hne Hfx Hfy.
  induction Hnd as [|z l Hz Hnd IH]; [by apply elem_of_nil in Hx|]. simpl.
  apply elem_of_cons in Hx as [->|Hx]; apply elem_of_cons in Hy as [->|Hy].
  - done.
  - pose proof (sum_list_with_in y f l Hy). lia.
  - pose proof (sum_list_with_in x f l Hx). lia.
  - specialize (IH Hx Hy). lia.
Qed.

(** The three kinds of users. *)
Lemma getNumUses_instruction M F v :
  F ∈ FunctionList M → v ∈ function_operands F →
  0 < count_operand v (instruction_operands M).
Proof.
  intros HF Hv. apply count_operand_pos, elem_of_instruction_operands. eauto.
Qed.

Lemma getNumUses_array M G elems v :
  G ∈ GlobalList M → Initializer G = Some elems → v ∈ elems →
  (∀ d, v ≠ ConstantData d) →
  0 < sum_list_with (count_operand v) (module_arrays M).
Proof.
  intros HG Hinit Hv Hnd. apply sum_list_with_pos. exists elems. split.
  - apply elem_of_module_arrays. split; [|eauto].
    by apply (isa_ConstantArray_operand elems v).
  - by apply count_operand_pos.
Qed.

Lemma getNumUses_expression M v :
  ConstantExpr v ∈ module_constants M →
  (if bool_decide (ConstantExpr v ∈ module_constants M) then 1 else 0) = 1.
Proof. intros H. by rewrite bool_decide_eq_true_2. Qed.

(** A cast of [a] stands in the module when something refers to [a]
    through it. *)
Lemma cast_in_function M F c a :
  F ∈ FunctionList M → c ∈ function_operands F →
  ConstantExpr (GlobalRef a) ∈ subconstants c →
  ConstantExpr (GlobalRef a) ∈ module_constants M.
Proof.
  intros HF Hc Hk. apply elem_of_module_constants. left. by exists F, c.
Qed.

Lemma cast_in_global M G elems c a :
  G ∈ GlobalList M → Initializer G = Some elems → c ∈ elems →
  ConstantExpr (GlobalRef a) ∈ subconstants c →
  ConstantExpr (GlobalRef a) ∈ module_constants M.
Proof.
  intros HG Hinit Hc Hk. apply elem_of_module_constants. right.
  exists elems, c. split_and!; [|done|done].
  apply elem_of_module_arrays. split; [|eauto].
  apply (isa_ConstantArray_refers elems a). exists c. split; [done|].
  apply stripped_global_cases. by right.
Qed.

(** A global value has a use exactly when something in the module refers
    to it. *)
Lemma getNumUses_pos M a :
  0 < getNumUses M (GlobalRef a) ↔ ∃ n, references_from M n a.
Proof.
  unfold getNumUses, references_from. split.
  - intros Hpos.
    destruct (decide (0 < count_operand (GlobalRef a) (instruction_operands M)))
      as [H1|H1].
    { apply count_operand_pos, elem_of_instruction_operands in H1 as (F & HF & Hc).
      exists (Name F). left. exists F. split_and!; [done|done|].
      by exists (GlobalRef a). }
    destruct (decide (0 < sum_list_with (count_operand (GlobalRef a))
                           (module_arrays M))) as [H2|H2].
    { apply sum_list_with_pos in H2 as (elems & He & Hc).
      apply count_operand_pos in Hc.
      apply elem_of_module_arrays in He as (_ & G & HG & Hinit).
      exists (GName G). right. exists G. split_and!; [done|done|].
      unfold global_operands. rewrite Hinit. by exists (GlobalRef a). }
    case_bool_decide as H3; [|lia].
    apply elem_of_module_constants in H3
      as [(F & c & HF & Hc & Hk)|(elems & c & He & Hc & Hk)].
    + exists (Name F). left. exists F. split_and!; [done|done|].
      exists c. split; [done|]. apply stripped_global_cases. by right.
    + apply elem_of_module_arrays in He as (_ & G & HG & Hinit).
      exists (GName G). right. exists G. split_and!; [done|done|].
      unfold global_operands. rewrite Hinit.
      exists c. split; [done|]. apply stripped_global_cases. by right.
  - intros (n & [(F & HF & _ & Hr)|(G & HG & _ & Hr)]).
    + apply refers_to_cases in Hr as [Hd|(c & Hc & Hk)].
      * pose proof (getNumUses_instruction M F _ HF Hd). lia.
      * rewrite (getNumUses_expression M (GlobalRef a)); [lia|].
        by apply (cast_in_function M F c a).
    + unfold global_operands in Hr.
      destruct (Initializer G) as [elems|] eqn:Hinit; simpl in Hr;
        [|by destruct Hr as (c & ?%elem_of_nil & _)].
      apply refers_to_cases in Hr as [Hd|(c & Hc & Hk)].
      * pose proof (getNumUses_array M G elems _ HG Hinit Hd) as H.
        specialize (H ltac:(done)). lia.
      * rewrite (getNumUses_expression M (GlobalRef a)); [lia|].
        by apply (cast_in_global M G elems c a).
Qed.

Lemma getNumUses_zero M a :
  getNumUses M (GlobalRef a) = 0 ↔ ∀ n, ¬ references_from M n a.
Proof.
  split.
  - intros H0 n Hn. assert (0 < getNumUses M (GlobalRef a)); [|lia].
    apply getNumUses_pos. eauto.
  - intros Hno. destruct (decide (getNumUses M (GlobalRef a) = 0)) as [|Hne]; [done|].
    assert (0 < getNumUses M (GlobalRef a)) as Hpos by lia.
    apply getNumUses_pos in Hpos as [n Hn]. by destruct (Hno n).
Qed.

End UseProperties.

Section ExtractUsedProperties.
Context {LType : Type}.
Implicit Types (M : @Module LType) (llvmUsed : @GlobalVariable).

Lemma lExtractUsedOperand_Ok M C used used' :
  lExtractUsedOperand M C used = Ok used' →
  (getNumUses M (lOperandValue C) ≤ 1 ∧ used' = used) ∨
  (1 < getNumUses M (lOperandValue C) ∧ isa_Function M (lOperandValue C) = true ∧
   ∃ n, lOperandValue C = GlobalRef n ∧ used' = {[n]} ∪ used).
Proof.
  unfold lExtractUsedOperand. case_bool_decide as Hu.
  - destruct (lOperandValue C) as [n| |] eqn:Hv; try done.
    destruct (isa_Function M (GlobalRef n)) eqn:Hf; [|done].
    intros [= <-]. right. eauto.
  - intros [= <-]. left. split; [lia|done].
Qed.

Lemma lExtractUsedOperand_Fatal M C used :
  (∃ msg, lExtractUsedOperand M C used = Fatal msg) ↔
  1 < getNumUses M (lOperandValue C) ∧ isa_Function M (lOperandValue C) = false.
Proof.
  unfold lExtractUsedOperand. case_bool_decide as Hu.
  - destruct (lOperandValue C) as [n| |] eqn:Hv.
    + destruct (isa_Function M (GlobalRef n)) eqn:Hf.
      * split; [by intros [? ?]|by intros [? ?]].
      * split; [done|eauto].
    + split; [done|eauto].
    + split; [done|eauto].
  - split; [by intros [? ?]|]. intros [? ?]. lia.
Qed.

Lemma lExtractUsedOperands_Fatal M initList used :
  (∃ msg, lExtractUsedOperands M initList used = Fatal msg) ↔
  ∃ C, C ∈ initList ∧
    1 < getNumUses M (lOperandValue C) ∧ isa_Function M (lOperandValue C) = false.
Proof.
  revert used. induction initList as [|C rest IH]; intros used; simpl.
  - split; [by intros [? ?]|]. intros [C [HC _]]. by apply elem_of_nil in HC.
  - destruct (lExtractUsedOperand M C used) as [used'|msg] eqn:HC.
    + rewrite IH. split.
      * intros [C' [Hin H]]. exists C'. split; [by right|done].
      * intros [C' [[->|Hin]%elem_of_cons H]]; [|eauto].
        apply (lExtractUsedOperand_Fatal M C used) in H as [msg Hmsg]. congruence.
    + split; [|eauto]. intros _. exists C. split; [by left|].
      apply (lExtractUsedOperand_Fatal M C used). eauto.
Qed.

Lemma lExtractUsedOperands_Ok M initList used used' :
  lExtractUsedOperands M initList used = Ok used' →
  ∀ n, n ∈ used' ↔
    n ∈ used ∨
    ∃ C, C ∈ initList ∧ lOperandValue C = GlobalRef n ∧
         1 < getNumUses M (GlobalRef n).
Proof.
  revert used. induction initList as [|C rest IH]; intros used; simpl.
  - intros [= <-] n. split; [auto|]. intros [?|[C [HC _]]]; [done|].
    by apply elem_of_nil in HC.
  - destruct (lExtractUsedOperand M C used) as [used1|msg] eqn:HC; [|done].
    intros Hrest n. rewrite (IH _ Hrest n).
    apply lExtractUsedOperand_Ok in HC as [[Hle ->]|(Hlt & Hf & m & Hv & ->)].
    + split.
      * intros [?|[C' [Hin H]]]; [auto|]. right. exists C'. split; [by right|done].
      * intros [?|[C' [[->|Hin]%elem_of_cons [Hv Hn]]]]; [auto| |].
        -- rewrite Hv in Hle. lia.
        -- right. eauto.
    + rewrite elem_of_union, elem_of_singleton. split.
      * intros [[->|?]|[C' [Hin H]]]; [|auto|].
        -- right. exists C. rewrite Hv in Hlt. split; [by left|done].
        -- right. exists C'. split; [by right|done].
      * intros [?|[C' [[->|Hin]%elem_of_cons [Hv' Hn]]]]; [auto| |].
        -- left. left. congruence.
        -- right. eauto.
Qed.

(** The cast of the initializer. *)
Lemma lExtractUsedFunctions_array M llvmUsed initList used :
  Initializer llvmUsed = Some initList → isa_ConstantArray initList = true →
  lExtractUsedFunctions M llvmUsed used = lExtractUsedOperands M initList used.
Proof. intros Hinit Hisa. unfold lExtractUsedFunctions. by rewrite Hinit, Hisa. Qed.

Lemma lExtractUsedFunctions_Ok M llvmUsed used used' :
  lExtractUsedFunctions M llvmUsed used = Ok used' →
  ∃ initList, Initializer llvmUsed = Some initList ∧
    isa_ConstantArray initList = true ∧
    lExtractUsedOperands M initList used = Ok used'.
Proof.
  unfold lExtractUsedFunctions.
  destruct (Initializer llvmUsed) as [initList|]; [|done].
  destruct (isa_ConstantArray initList) eqn:Hisa; [|done]. eauto.
Qed.

Lemma lExtractUsedFunctions_no_array M llvmUsed initList used :
  Initializer llvmUsed = Some initList → isa_ConstantArray initList = false →
  ∃ msg, lExtractUsedFunctions M llvmUsed used = Fatal msg.
Proof.
  intros Hinit Hisa. unfold lExtractUsedFunctions. rewrite Hinit, Hisa. eauto.
Qed.
End ExtractUsedProperties.

Section ProtectPruneProperties.
Context {LType : Type} `{!EqDecision LType}.
Variable PointerType_get : @FnType LType -> nat -> LType.
Variable persistentGroups : list (PersistentGroup * list string).
Variable persistentFuncs : list (string * Z).
Variable Int8PtrTy : LType.
Implicit Types (M : @Module LType) (F : @Function LType) (G : @GlobalVariable).

Local Abbreviation lFuncAsConstInt8Ptr := (lFuncAsConstInt8Ptr PointerType_get Int8PtrTy).
Local Abbreviation lPersistentConstPtrs :=
  (lPersistentConstPtrs PointerType_get persistentGroups persistentFuncs Int8PtrTy).
Local Abbreviation lAddPersistentToLLVMUsed :=
  (lAddPersistentToLLVMUsed PointerType_get persistentGroups persistentFuncs Int8PtrTy).
Local Abbreviation lCollectPreservedFunctions :=
  (lCollectPreservedFunctions PointerType_get persistentGroups persistentFuncs Int8PtrTy).
Local Abbreviation lFindUsedPersistentGroups :=
  (lFindUsedPersistentGroups persistentGroups).
Local Abbreviation lRemoveUnusedPersistentFunctions :=
  (lRemoveUnusedPersistentFunctions PointerType_get persistentGroups persistentFuncs Int8PtrTy).
Local Abbreviation lProtectPrune :=
  (lProtectPrune PointerType_get persistentGroups persistentFuncs Int8PtrTy).

(** *** Lookups *)

Lemma getFunction_Some M n F :
  getFunction M n = Some F → F ∈ FunctionList M ∧ Name F = n.
Proof.
  unfold getFunction. intros H. apply find_some in H as [Hin Hn].
  split; [by apply list_elem_of_In|]. by apply bool_decide_eq_true in Hn.
Qed.

Lemma getFunction_is_Some M n :
  is_Some (getFunction M n) ↔ n ∈ function_names M.
Proof.
  rewrite elem_of_function_names. split.
  - intros [F HF]. apply getFunction_Some in HF. eauto.
  - intros (F & HF & Hn). unfold getFunction.
    destruct (find _ _) eqn:Hfind; [eauto|].
    pose proof (find_none _ _ Hfind F (proj1 (list_elem_of_In _ _) HF)) as Hb.
    simpl in Hb. by apply bool_decide_eq_false in Hb.
Qed.

Lemma getFunction_None M n :
  getFunction M n = None ↔ n ∉ function_names M.
Proof.
  rewrite <- getFunction_is_Some, eq_None_not_Some. done.
Qed.

Lemma getNamedGlobal_Some' M name G :
  getNamedGlobal M name = Some G → G ∈ GlobalList M ∧ GName G = name.
Proof.
  unfold getNamedGlobal. intros H. apply find_some in H as [Hin Hn].
  split; [by apply list_elem_of_In|]. by apply bool_decide_eq_true in Hn.
Qed.

Lemma getNamedGlobal_None M name :
  getNamedGlobal M name = None ↔ name ∉ global_names M.
Proof.
  rewrite elem_of_global_names. unfold getNamedGlobal. split.
  - intros Hfind (G & HG & Hn).
    pose proof (find_none _ _ Hfind G (proj1 (list_elem_of_In _ _) HG)) as Hb.
    simpl in Hb. by apply bool_decide_eq_false in Hb.
  - intros Hno. destruct (find _ _) as [G|] eqn:Hfind; [|done].
    apply find_some in Hfind as [Hin Hn]. exfalso. apply Hno. exists G.
    split; [by apply list_elem_of_In|]. by apply bool_decide_eq_true in Hn.
Qed.

(** *** The constants of the marker *)

Lemma getBitCast_value F type :
  lOperandValue (getBitCast PointerType_get F type) = GlobalRef (Name F) ∧
  stripped_global (getBitCast PointerType_get F type) = Some (Name F).
Proof. unfold getBitCast. by case_bool_decide. Qed.

Lemma lFuncAsConstInt8Ptr_Some M n c :
  lFuncAsConstInt8Ptr M n = Some c →
  n ∈ function_names M ∧ lOperandValue c = GlobalRef n ∧
  stripped_global c = Some n.
Proof.
  unfold lFuncAsConstInt8Ptr. destruct (getFunction M n) as [F|] eqn:HF; [|done].
  intros [= <-]. split; [apply getFunction_is_Some; eauto|].
  apply getFunction_Some in HF as [_ <-]. apply getBitCast_value.
Qed.

Lemma lFuncAsConstInt8Ptr_shape M n c :
  lFuncAsConstInt8Ptr M n = Some c →
  c = GlobalRef n ∨ c = ConstantExpr (GlobalRef n).
Proof.
  unfold lFuncAsConstInt8Ptr. destruct (getFunction M n) as [F|] eqn:HF; [|done].
  intros [= <-]. apply getFunction_Some in HF as [_ <-].
  unfold getBitCast. case_bool_decide; auto.
Qed.

Lemma lFuncAsConstInt8Ptr_present M n :
  n ∈ function_names M → ∃ c, lFuncAsConstInt8Ptr M n = Some c.
Proof.
  intros [F HF]%getFunction_is_Some. unfold lFuncAsConstInt8Ptr. rewrite HF. eauto.
Qed.

(** The constants depend on the functions of the module only. *)
Lemma lFuncAsConstInt8Ptr_ext M M' n :
  FunctionList M' = FunctionList M →
  lFuncAsConstInt8Ptr M' n = lFuncAsConstInt8Ptr M n.
Proof. intros H. unfold lFuncAsConstInt8Ptr, getFunction. by rewrite H. Qed.

Lemma lIsGroupUsed_true M functions :
  lIsGroupUsed M functions = true ↔
  ∃ a, a ∈ functions ∧ a ∈ function_names M ∧ 0 < getNumUses M (GlobalRef a).
Proof.
  unfold lIsGroupUsed. rewrite existsb_exists. split.
  - intros (a & Ha & Hu). exists a. split; [by apply list_elem_of_In|].
    destruct (getFunction M a) as [F|] eqn:HF; [|done].
    split; [apply getFunction_is_Some; eauto|].
    apply getFunction_Some in HF as [_ <-]. by apply bool_decide_eq_true in Hu.
  - intros (a & Ha & Hp & Hu). exists a. split; [by apply list_elem_of_In|].
    apply getFunction_is_Some in Hp as [F HF]. rewrite HF.
    apply getFunction_Some in HF as [_ ->]. by apply bool_decide_eq_true.
Qed.

Lemma elem_of_lPersistentConstPtrs M c :
  c ∈ lPersistentConstPtrs M ↔
  (∃ group functions n, (group, functions) ∈ persistentGroups ∧
     lIsGroupUsed M functions = true ∧ n ∈ functions ∧
     lFuncAsConstInt8Ptr M n = Some c) ∨
  (∃ n val, (n, val) ∈ persistentFuncs ∧ lFuncAsConstInt8Ptr M n = Some c).
Proof.
  unfold lPersistentConstPtrs. rewrite elem_of_app, list_elem_of_bind, list_elem_of_omap.
  split; (intros [H|H]; [left|right]).
  - destruct H as ([group functions] & Hc & Hg).
    destruct (lIsGroupUsed M functions) eqn:Hu; [|by apply elem_of_nil in Hc].
    apply list_elem_of_omap in Hc as (n & Hn & Hc). by exists group, functions, n.
  - destruct H as ([n val] & Hin & Hc). by exists n, val.
  - destruct H as (group & functions & n & Hg & Hu & Hn & Hc).
    exists (group, functions). split; [|done]. rewrite Hu.
    apply list_elem_of_omap. eauto.
  - destruct H as (n & val & Hin & Hc). by exists (n, val).
Qed.
Lemma lGroupHasUsed_true M usedFunctions functions :
  lGroupHasUsed M usedFunctions functions = true ↔
  ∃ a, a ∈ functions ∧ a ∈ function_names M ∧ a ∈ usedFunctions.
Proof.
  unfold lGroupHasUsed. rewrite existsb_exists. split.
  - intros (a & Ha & Hu). exists a. split; [by apply list_elem_of_In|].
    destruct (getFunction M a) as [F|] eqn:HF; [|done].
    split; [apply getFunction_is_Some; eauto|].
    apply getFunction_Some in HF as [_ <-]. by apply bool_decide_eq_true in Hu.
  - intros (a & Ha & Hp & Hu). exists a. split; [by apply list_elem_of_In|].
    apply getFunction_is_Some in Hp as [F HF]. rewrite HF.
    apply getFunction_Some in HF as [_ ->]. by apply bool_decide_eq_true.
Qed.

Lemma elem_of_lFindUsedPersistentGroups M usedFunctions init group :
  group ∈ lFindUsedPersistentGroups M usedFunctions init ↔
  group ∈ init ∨
  ∃ functions, (group, functions) ∈ persistentGroups ∧
    lGroupHasUsed M usedFunctions functions = true.
Proof.
  unfold lFindUsedPersistentGroups. revert init.
  induction persistentGroups as [|[g fs] pgs IH]; intros init; simpl.
  - split; [auto|]. intros [?|(fs & Hin & _)]; [done|]. by apply elem_of_nil in Hin.
  - rewrite IH. destruct (lGroupHasUsed M usedFunctions fs) eqn:Hu.
    + rewrite elem_of_union, elem_of_singleton. split.
      * intros [[->|?]|(fs' & Hin & Hu')]; [|auto|].
        -- right. exists fs. split; [by left|done].
        -- right. exists fs'. split; [by right|done].
      * intros [?|(fs' & [[= -> ->]|Hin]%elem_of_cons & Hu')]; [auto|auto|].
        right. eauto.
    + split.
      * intros [?|(fs' & Hin & Hu')]; [auto|].
        right. exists fs'. split; [by right|done].
      * intros [?|(fs' & [[= -> ->]|Hin]%elem_of_cons & Hu')]; [auto|congruence|].
        right. eauto.
Qed.

Lemma elem_of_lCollectPreservedFunctions M newElements usedGroups c :
  c ∈ lCollectPreservedFunctions M newElements usedGroups ↔
  c ∈ newElements ∨
  (∃ group functions n, (group, functions) ∈ persistentGroups ∧
     group ∈ usedGroups ∧ n ∈ functions ∧ lFuncAsConstInt8Ptr M n = Some c) ∨
  (∃ n val, (n, val) ∈ persistentFuncs ∧ lFuncAsConstInt8Ptr M n = Some c).
Proof.
  unfold lCollectPreservedFunctions.
  rewrite !elem_of_app, list_elem_of_bind, list_elem_of_omap.
  split; (intros [H|[H|H]]; [left; done|right; left|right; right]).
  - destruct H as ([group functions] & Hc & Hg).
    case_bool_decide as Hu; [|by apply elem_of_nil in Hc].
    apply list_elem_of_omap in Hc as (n & Hn & Hc). by exists group, functions, n.
  - destruct H as ([n val] & Hin & Hc). by exists n, val.
  - destruct H as (group & functions & n & Hg & Hu & Hn & Hc).
    exists (group, functions). split; [|done]. rewrite bool_decide_eq_true_2 by done.
    apply list_elem_of_omap. eauto.
  - destruct H as (n & val & Hin & Hc). by exists (n, val).
Qed.

(** *** The shape of the module after each step *)

Lemma lAddPersistentToLLVMUsed_functions M :
  FunctionList (lAddPersistentToLLVMUsed M) = FunctionList M.
Proof.
  unfold lAddPersistentToLLVMUsed. destruct (lPersistentConstPtrs M); [done|].
  unfold lCreateLLVMUsed. by rewrite insertGlobalVariable_functions.
Qed.

Lemma lCreateLLVMUsed_globals M ConstPtrs :
  ∃ G', GlobalList (lCreateLLVMUsed M ConstPtrs) = GlobalList M ++ [G'] ∧
        Initializer G' = Some ConstPtrs ∧ GLinkage G' = AppendingLinkage ∧
        GSection G' = "llvm.metadata" ∧
        (GName G' ∉ symbol_names M) ∧
        ("llvm.compiler.used" ∉ symbol_names M → G' = lNewLLVMUsed ConstPtrs) ∧
        ("llvm.compiler.used" ∈ symbol_names M → GName G' ≠ "llvm.compiler.used").
Proof.
  unfold lCreateLLVMUsed.
  destruct (insertGlobalVariable_globals M (lNewLLVMUsed ConstPtrs))
    as (G' & H1 & H2 & H3 & H4 & H5 & H6 & H7 & H8).
  exists G'. split_and!; done.
Qed.

Lemma lAddPersistentToLLVMUsed_globals M :
  (lPersistentConstPtrs M = [] ∧ lAddPersistentToLLVMUsed M = M) ∨
  (lPersistentConstPtrs M ≠ [] ∧
   lAddPersistentToLLVMUsed M = lCreateLLVMUsed M (lPersistentConstPtrs M)).
Proof.
  unfold lAddPersistentToLLVMUsed. destruct (lPersistentConstPtrs M); [by left|by right].
Qed.

(** The anchor leaves the module as it is when there is nothing to
    preserve, and appends one marker, under a name that was free, when
    there is. *)
Lemma anchor_cases M :
  (lPersistentConstPtrs M = [] ∧ lAddPersistentToLLVMUsed M = M) ∨
  (lPersistentConstPtrs M ≠ [] ∧
   ∃ G', GlobalList (lAddPersistentToLLVMUsed M) = GlobalList M ++ [G'] ∧
         Initializer G' = Some (lPersistentConstPtrs M) ∧
         GLinkage G' = AppendingLinkage ∧
         (GName G' ∉ symbol_names M) ∧
         ("llvm.compiler.used" ∈ symbol_names M →
          GName G' ≠ "llvm.compiler.used")).
Proof.
  destruct (lAddPersistentToLLVMUsed_globals M) as [[H1 H2]|[H1 H2]]; [by left|].
  right. split; [done|]. rewrite H2.
  destruct (lCreateLLVMUsed_globals M (lPersistentConstPtrs M))
    as (G' & Hgl & Hinit & Hlink & _ & Hfresh & _ & Htaken).
  exists G'. split_and!; done.
Qed.

Lemma lUpdateLLVMUsed_functions M llvmUsed newElements :
  FunctionList (lUpdateLLVMUsed M llvmUsed newElements) = FunctionList M.
Proof.
  unfold lUpdateLLVMUsed, lCreateLLVMUsed. by rewrite insertGlobalVariable_functions.
Qed.

Lemma lUpdateLLVMUsed_globals M llvmUsed newElements :
  ∃ G', GlobalList (lUpdateLLVMUsed M llvmUsed newElements) =
          filter (fun G => GName G ≠ GName llvmUsed) (GlobalList M) ++ [G'] ∧
        Initializer G' = Some newElements ∧ GLinkage G' = AppendingLinkage.
Proof.
  unfold lUpdateLLVMUsed.
  destruct (lCreateLLVMUsed_globals (eraseGlobal M (GName llvmUsed)) newElements)
    as (G' & H1 & H2 & H3 & _).
  exists G'. done.
Qed.

Lemma lRemoveUnusedPersistentFunctions_Ok M M3 :
  lRemoveUnusedPersistentFunctions M = Ok M3 →
  (getNamedGlobal M "llvm.compiler.used" = None ∧ M3 = M) ∨
  (∃ llvmUsed used,
     getNamedGlobal M "llvm.compiler.used" = Some llvmUsed ∧
     lExtractUsedFunctions M llvmUsed ∅ = Ok used ∧
     M3 = lRemoveUnused
            (lUpdateLLVMUsed M llvmUsed
               (lCollectPreservedFunctions M []
                  (lFindUsedPersistentGroups M used ∅)))).
Proof.
  unfold lRemoveUnusedPersistentFunctions.
  destruct (getNamedGlobal M "llvm.compiler.used") as [llvmUsed|]; [|intros [= <-]; by left].
  destruct (lExtractUsedFunctions M llvmUsed ∅) as [used|msg] eqn:Hused; [|done].
  intros [= <-]. right. by exists llvmUsed, used.
Qed.

(** The steps after the anchor only remove functions. *)
Lemma lRemoveUnusedPersistentFunctions_subset M M3 F :
  lRemoveUnusedPersistentFunctions M = Ok M3 →
  F ∈ FunctionList M3 → F ∈ FunctionList M.
Proof.
  intros [[_ ->]|(llvmUsed & used & _ & _ & ->)]%lRemoveUnusedPersistentFunctions_Ok;
    [done|].
  unfold lRemoveUnused. intros [HF _]%elem_of_GlobalDCEPass_functions.
  by rewrite lUpdateLLVMUsed_functions in HF.
Qed.
(** *** Group members through the sequence *)

Lemma lPersistentConstPtrs_group M group functions b :
  (group, functions) ∈ persistentGroups → lIsGroupUsed M functions = true →
  b ∈ functions → b ∈ function_names M →
  ∃ c, c ∈ lPersistentConstPtrs M ∧ lOperandValue c = GlobalRef b ∧
       stripped_global c = Some b.
Proof.
  intros Hg Hu Hb Hp. destruct (lFuncAsConstInt8Ptr_present M b Hp) as [c Hc].
  exists c. split.
  - apply elem_of_lPersistentConstPtrs. left. by exists group, functions, b.
  - by apply lFuncAsConstInt8Ptr_Some in Hc as (_ & ? & ?).
Qed.

Lemma lPersistentConstPtrs_member M group functions b :
  (group, functions) ∈ persistentGroups → lIsGroupUsed M functions = true →
  b ∈ functions → b ∈ function_names M →
  ∃ c, lFuncAsConstInt8Ptr M b = Some c ∧ c ∈ lPersistentConstPtrs M.
Proof.
  intros Hg Hu Hb Hp. destruct (lFuncAsConstInt8Ptr_present M b Hp) as [c Hc].
  exists c. split; [done|].
  apply elem_of_lPersistentConstPtrs. left. by exists group, functions, b.
Qed.

Lemma lPersistentConstPtrs_functions M c :
  c ∈ lPersistentConstPtrs M →
  ∃ n, n ∈ function_names M ∧ lOperandValue c = GlobalRef n ∧
       stripped_global c = Some n.
Proof.
  intros [(group & functions & n & _ & _ & _ & Hc)|(n & val & _ & Hc)]%elem_of_lPersistentConstPtrs;
    exists n; by apply lFuncAsConstInt8Ptr_Some in Hc.
Qed.

(** A marker is a root of the elimination. *)
Lemma marker_live M G :
  G ∈ GlobalList M → is_Some (Initializer G) → GLinkage G = AppendingLinkage →
  live M (GName G).
Proof.
  intros HG [ops Hinit] Hlink. apply reachable_root, elem_of_dce_roots. right.
  exists G. split_and!; [done|done| |by rewrite Hlink].
  unfold GisDeclaration. by rewrite Hinit.
Qed.

Lemma marker_keeps M G b :
  G ∈ GlobalList M → is_Some (Initializer G) → GLinkage G = AppendingLinkage →
  refers_to (global_operands G) b → b ∈ function_names M →
  b ∈ function_names (lRemoveUnused M).
Proof.
  intros HG [ops Hinit] Hlink Hr Hb.
  apply (GlobalDCEPass_keeps_referenced M G b); try done.
  - unfold GisDeclaration. by rewrite Hinit.
  - by rewrite Hlink.
Qed.

Lemma function_names_ext M M' :
  FunctionList M' = FunctionList M → function_names M' = function_names M.
Proof. unfold function_names. by intros ->. Qed.

(** The marker that the re-closure reads is the one the anchor made, when
    the name was free before. *)
Lemma marker_found M M2 G' llvmUsed :
  "llvm.compiler.used" ∉ symbol_names M →
  (∀ G, G ∈ GlobalList M2 → G ∈ GlobalList M ++ [G']) →
  getNamedGlobal M2 "llvm.compiler.used" = Some llvmUsed →
  llvmUsed = G'.
Proof.
  intros Hfree Hsub [Hin Hname]%getNamedGlobal_Some'.
  apply Hsub, elem_of_app in Hin as [Hin|Hin%list_elem_of_singleton]; [|done].
  exfalso. apply Hfree. unfold symbol_names. apply elem_of_app. right.
  apply elem_of_global_names. eauto.
Qed.
(** The state after anchor and first prune, when the anchor made a marker:
    the marker [G'] is the last variable and is kept, the functions are the
    live ones of the anchored module. *)
Lemma first_prune_globals M ConstPtrs G' :
  GlobalList (lCreateLLVMUsed M ConstPtrs) = GlobalList M ++ [G'] →
  is_Some (Initializer G') → GLinkage G' = AppendingLinkage →
  GlobalList (lRemoveUnused (lCreateLLVMUsed M ConstPtrs)) =
    filter (fun G => GName G ∈ alive (lCreateLLVMUsed M ConstPtrs)) (GlobalList M)
    ++ [G'].
Proof.
  intros Hgl Hinit Hlink. unfold lRemoveUnused, GlobalDCEPass. simpl.
  rewrite Hgl, filter_app. f_equal.
  rewrite filter_cons_True; [done|].
  apply elem_of_alive, marker_live; [|done..].
  rewrite Hgl. apply elem_of_app. right. by left.
Qed.

(** The use count of a function in the marker, after the first prune.  The
    marker gives it one use: the array, or the cast the array holds.  A
    live global value that holds the function itself, or a cast of it when
    the marker holds the function itself, gives it a second one, unless it
    is a variable initialized with the very array of the marker. *)
Lemma used_twice_after_prune M ConstPtrs G' u a ca :
  GlobalList (lCreateLLVMUsed M ConstPtrs) = GlobalList M ++ [G'] →
  Initializer G' = Some ConstPtrs → GLinkage G' = AppendingLinkage →
  ca ∈ ConstPtrs → ca = GlobalRef a ∨ ca = ConstantExpr (GlobalRef a) →
  live M u →
  uses_directly M u a ∨ (references_from M u a ∧ ca = GlobalRef a) →
  1 < getNumUses (lRemoveUnused (lCreateLLVMUsed M ConstPtrs)) (GlobalRef a) ∨
  (∃ G, G ∈ GlobalList M ∧ GName G = u ∧ Initializer G = Some ConstPtrs).
Proof.
  intros Hgl Hinit Hlink Hca Hshape Hu Hua.
  set (M1 := lCreateLLVMUsed M ConstPtrs) in *.
  assert (FunctionList M1 = FunctionList M) as Hfl.
  { unfold M1, lCreateLLVMUsed. apply insertGlobalVariable_functions. }
  assert (live M1 u) as Hu1.
  { eapply live_mono; [| |exact Hu].
    - intros F HF. by rewrite Hfl.
    - intros G HG. rewrite Hgl. apply elem_of_app. by left. }
  pose proof (first_prune_globals M ConstPtrs G' Hgl (mk_is_Some _ _ Hinit) Hlink) as Hgl2.
  fold M1 in Hgl2. set (M2 := lRemoveUnused M1) in *.
  assert (G' ∈ GlobalList M2) as HG'.
  { rewrite Hgl2. apply elem_of_app. right. by left. }
  assert (∀ F, F ∈ FunctionList M → Name F = u → F ∈ FunctionList M2) as HF2.
  { intros F HF Hn. apply elem_of_GlobalDCEPass_functions. rewrite Hfl, Hn. done. }
  assert (∀ G, G ∈ GlobalList M → GName G = u → G ∈ GlobalList M2) as HG2.
  { intros G HG Hn. rewrite Hgl2. apply elem_of_app. left.
    apply list_elem_of_filter. split; [|done]. rewrite Hn. by apply elem_of_alive. }
  (* the use the marker gives *)
  assert ((ca = GlobalRef a ∧ ConstPtrs ∈ module_arrays M2 ∧
           0 < count_operand (GlobalRef a) ConstPtrs) ∨
          (ca = ConstantExpr (GlobalRef a) ∧
           ConstantExpr (GlobalRef a) ∈ module_constants M2)) as Hmarker.
  { destruct Hshape as [->| ->]; [left|right]; (split; [done|]).
    - split; [|by apply count_operand_pos].
      apply elem_of_module_arrays. split; [|eauto].
      by apply (isa_ConstantArray_operand _ (GlobalRef a)).
    - apply (cast_in_global M2 G' ConstPtrs (ConstantExpr (GlobalRef a)));
        [done|done|done|apply subconstants_self]. }
  (* the use the live value gives *)
  assert ((∃ F, F ∈ FunctionList M2 ∧ GlobalRef a ∈ function_operands F) ∨
          (∃ G elems, G ∈ GlobalList M ∧ GName G = u ∧
             Initializer G = Some elems ∧ GlobalRef a ∈ elems) ∨
          (ca = GlobalRef a ∧
           ConstantExpr (GlobalRef a) ∈ module_constants M2)) as Huser.
  { assert (∀ G, G ∈ GlobalList M → GName G = u →
              ∀ c, c ∈ global_operands G →
              ∃ elems, Initializer G = Some elems ∧ c ∈ elems) as Helems.
    { intros G HG Hn c Hc. unfold global_operands in Hc.
      destruct (Initializer G) as [elems|]; [eauto|by apply elem_of_nil in Hc]. }
    destruct Hua as [[(F & HF & Hn & Hd)|(G & HG & Hn & Hd)]|[Hr ->]].
    - left. exists F. split; [by apply HF2|done].
    - right. left. destruct (Helems G HG Hn _ Hd) as (elems & Hi & Hc).
      by exists G, elems.
    - destruct Hr as [(F & HF & Hn & Hr)|(G & HG & Hn & Hr)];
        apply refers_to_cases in Hr as [Hd|(c & Hc & Hk)].
      + left. exists F. split; [by apply HF2|done].
      + right. right. split; [done|].
        apply (cast_in_function M2 F c a); [by apply HF2|done|done].
      + right. left. destruct (Helems G HG Hn _ Hd) as (elems & Hi & Hc).
        by exists G, elems.
      + right. right. split; [done|].
        destruct (Helems G HG Hn _ Hc) as (elems & Hi & Hc').
        apply (cast_in_global M2 G elems c a); [by apply HG2|done|done|done]. }
  unfold getNumUses.
  destruct Huser as [(F & HF & Hd)|[(G & elems & HG & Hn & Hi & Hd)|[-> Hk]]].
  - pose proof (getNumUses_instruction M2 F _ HF Hd) as H1.
    destruct Hmarker as [(_ & Harr & Hc)|[_ Hk]].
    + pose proof (sum_list_with_in _ (count_operand (GlobalRef a)) _ Harr). left. lia.
    + rewrite (getNumUses_expression M2 _ Hk). left. lia.
  - assert (elems ∈ module_arrays M2) as Harr.
    { apply elem_of_module_arrays. split.
      - by apply (isa_ConstantArray_operand _ (GlobalRef a)).
      - exists G. split; [by apply HG2|done]. }
    assert (0 < count_operand (GlobalRef a) elems) as Hce
      by by apply count_operand_pos.
    destruct Hmarker as [(_ & Harr' & Hc)|[_ Hk]].
    + destruct (decide (elems = ConstPtrs)) as [->|Hne].
      * right. by exists G.
      * left.
        pose proof (sum_list_with_two (count_operand (GlobalRef a))
          (module_arrays M2) elems ConstPtrs (NoDup_remove_dups _)
          Harr Harr' Hne Hce Hc). lia.
    + pose proof (sum_list_with_in _ (count_operand (GlobalRef a)) _ Harr).
      rewrite (getNumUses_expression M2 _ Hk). left. lia.
  - destruct Hmarker as [(_ & Harr & Hc)|[[=] _]].
    pose proof (sum_list_with_in _ (count_operand (GlobalRef a)) _ Harr).
    rewrite (getNumUses_expression M2 _ Hk). left. lia.
Qed.

(** The re-closure does not abort on the marker that the anchor made. *)
Lemma extract_anchor_marker M ConstPtrs G' :
  GlobalList (lCreateLLVMUsed M ConstPtrs) = GlobalList M ++ [G'] →
  Initializer G' = Some ConstPtrs → GLinkage G' = AppendingLinkage →
  ConstPtrs ≠ [] →
  (∀ c, c ∈ ConstPtrs →
     ∃ n, n ∈ function_names M ∧ lOperandValue c = GlobalRef n ∧
          stripped_global c = Some n) →
  ∃ used, lExtractUsedFunctions (lRemoveUnused (lCreateLLVMUsed M ConstPtrs)) G' ∅
          = Ok used.
Proof.
  intros Hgl Hinit Hlink Hne Hops.
  set (M1 := lCreateLLVMUsed M ConstPtrs) in *.
  assert (isa_ConstantArray ConstPtrs = true) as Hisa.
  { destruct ConstPtrs as [|c rest] eqn:HCP; [done|].
    destruct (Hops c) as (n & _ & _ & Hs); [by left|].
    apply (isa_ConstantArray_refers _ n). exists c. split; [by left|done]. }
  rewrite (lExtractUsedFunctions_array _ _ _ _ Hinit Hisa).
  destruct (lExtractUsedOperands (lRemoveUnused M1) ConstPtrs ∅) as [used|msg] eqn:He;
    [eauto|].
  exfalso.
  assert (∃ msg, lExtractUsedOperands (lRemoveUnused M1) ConstPtrs ∅ = Fatal msg)
    as Hf by eauto.
  apply lExtractUsedOperands_Fatal in Hf as (C & HC & _ & Hfun).
  destruct (Hops C HC) as (n & Hn & Hv & Hs). rewrite Hv in Hfun.
  simpl in Hfun. apply bool_decide_eq_false in Hfun. apply Hfun.
  apply getFunction_is_Some.
  apply (marker_keeps M1 G' n); [|by rewrite Hinit|done| |].
  - rewrite Hgl. apply elem_of_app. right. by left.
  - unfold global_operands. rewrite Hinit. by exists C.
  - unfold M1, lCreateLLVMUsed, function_names.
    by rewrite insertGlobalVariable_functions.
Qed.
(** On a module that has no global value named [llvm.compiler.used] the
    sequence does not abort. *)
Lemma lProtectPrune_returns M :
  "llvm.compiler.used" ∉ symbol_names M → ∃ M', lProtectPrune M = Ok M'.
Proof.
  intros Hfree. unfold lProtectPrune, lRemoveUnusedPersistentFunctions.
  destruct (getNamedGlobal _ _) as [llvmUsed|] eqn:Hget; [|eauto].
  destruct (lAddPersistentToLLVMUsed_globals M) as [[_ HM1]|[Hne HM1]];
    rewrite HM1 in Hget |- *.
  - exfalso. apply getNamedGlobal_Some' in Hget as [[Hin _]%elem_of_GlobalDCEPass_globals Hn].
    apply Hfree. unfold symbol_names. apply elem_of_app. right.
    apply elem_of_global_names. eauto.
  - destruct (lCreateLLVMUsed_globals M (lPersistentConstPtrs M))
      as (G' & Hgl & Hinit & Hlink & _ & _ & _ & _).
    assert (llvmUsed = G') as ->.
    { eapply (marker_found M _ G' llvmUsed Hfree); [|exact Hget].
      intros G [HG _]%elem_of_GlobalDCEPass_globals. by rewrite <- Hgl. }
    destruct (extract_anchor_marker M _ G' Hgl Hinit Hlink Hne) as [used Hused].
    + apply lPersistentConstPtrs_functions.
    + rewrite Hused. eauto.
Qed.

(** Every member of a group is there after the first prune and after the
    whole sequence when a live global value holds a member of the group
    itself, or refers to a member that the marker holds without a cast. *)
Lemma group_members_survive M group functions a u b :
  (group, functions) ∈ persistentGroups → a ∈ functions → a ∈ function_names M →
  live M u →
  uses_directly M u a ∨
    (references_from M u a ∧ lFuncAsConstInt8Ptr M a = Some (GlobalRef a)) →
  b ∈ functions → b ∈ function_names M →
  b ∈ function_names (lRemoveUnused (lAddPersistentToLLVMUsed M)) ∧
  ∀ M', lProtectPrune M = Ok M' → b ∈ function_names M'.
Proof.
  intros Hg Ha Hpa Hu Hua Hb Hpb.
  assert (references_from M u a) as Href.
  { destruct Hua as [[(F & HF & Hn & Hd)|(G & HG & Hn & Hd)]|[Hr _]]; [| |done].
    - left. exists F. split_and!; [done|done|]. by exists (GlobalRef a).
    - right. exists G. split_and!; [done|done|]. by exists (GlobalRef a). }
  assert (lIsGroupUsed M functions = true) as Hused.
  { apply lIsGroupUsed_true. exists a. split_and!; [done|done|].
    apply getNumUses_pos. eauto. }
  destruct (lPersistentConstPtrs_member M group functions a Hg Hused Ha Hpa)
    as (ca & Hfa & Hca).
  destruct (lPersistentConstPtrs_member M group functions b Hg Hused Hb Hpb)
    as (cb & Hfb & Hcb).
  pose proof (lFuncAsConstInt8Ptr_shape M a ca Hfa) as Hshape.
  apply lFuncAsConstInt8Ptr_Some in Hfa as Hfa'. destruct Hfa' as (_ & Hva & Hsa).
  apply lFuncAsConstInt8Ptr_Some in Hfb as Hfb'. destruct Hfb' as (_ & Hvb & Hsb).
  destruct (lAddPersistentToLLVMUsed_globals M) as [[Hnil _]|[_ HM1]].
  { rewrite Hnil in Hca. by apply elem_of_nil in Hca. }
  unfold lProtectPrune. rewrite HM1.
  set (CP := lPersistentConstPtrs M) in *.
  destruct (lCreateLLVMUsed_globals M CP)
    as (G' & Hgl & Hinit & Hlink & _ & Hfresh & Hfree & Htaken).
  set (M1 := lCreateLLVMUsed M CP) in *.
  assert (FunctionList M1 = FunctionList M) as Hfl1
    by apply insertGlobalVariable_functions.
  assert (function_names M1 = function_names M) as Hfn1
    by by apply function_names_ext.
  assert (G' ∈ GlobalList M1) as HG'1.
  { rewrite Hgl. apply elem_of_app. right. by left. }
  assert (∀ x, refers_to CP x → x ∈ function_names M →
               x ∈ function_names (lRemoveUnused M1)) as Hkeep.
  { intros x Hx Hpx. apply (marker_keeps M1 G' x); [done|by rewrite Hinit|done| |].
    - unfold global_operands. by rewrite Hinit.
    - by rewrite Hfn1. }
  assert (b ∈ function_names (lRemoveUnused M1)) as Hb2.
  { apply Hkeep; [by exists cb|done]. }
  split; [done|]. intros M' HM'.
  apply lRemoveUnusedPersistentFunctions_Ok in HM'
    as [[_ ->]|(llvmUsed & used & Hget & Hused' & ->)]; [done|].
  set (M2 := lRemoveUnused M1) in *.
  assert (G' ∈ GlobalList M2) as HG'2.
  { apply elem_of_GlobalDCEPass_globals. split; [done|].
    apply marker_live; [done|by rewrite Hinit|done]. }
  destruct (lUpdateLLVMUsed_globals M2 llvmUsed
              (lCollectPreservedFunctions M2 []
                 (lFindUsedPersistentGroups M2 used ∅)))
    as (G'' & Hgl'' & Hinit'' & Hlink'').
  pose proof (lUpdateLLVMUsed_functions M2 llvmUsed
                (lCollectPreservedFunctions M2 []
                   (lFindUsedPersistentGroups M2 used ∅))) as HflX.
  apply getNamedGlobal_Some' in Hget as Hllvm. destruct Hllvm as [Hin Hname].
  destruct (decide ("llvm.compiler.used" ∈ symbol_names M)) as [Hsym|Hsym].
  - (* the anchor's marker has another name and stays in the module *)
    apply (marker_keeps _ G' b); [|by rewrite Hinit|done| |].
    + rewrite Hgl''. apply elem_of_app. left. apply list_elem_of_filter.
      split; [|done]. rewrite Hname. by apply Htaken.
    + unfold global_operands. rewrite Hinit. by exists cb.
    + by rewrite (function_names_ext M2 _ HflX).
  - (* the re-closure reads the anchor's marker *)
    assert (llvmUsed = G') as ->.
    { apply (marker_found M M2 G' llvmUsed Hsym); [|done].
      intros G [HG _]%elem_of_GlobalDCEPass_globals. by rewrite <- Hgl. }
    apply lExtractUsedFunctions_Ok in Hused' as (initList & Hi & _ & Hused').
    assert (initList = CP) as -> by congruence.
    destruct (used_twice_after_prune M CP G' u a ca Hgl Hinit Hlink Hca Hshape Hu)
      as [Htwice|(G & HG & HnG & HinitG)].
    { destruct Hua as [Hd|[Hr Heq]]; [by left|right]. split; [done|].
      rewrite Heq in Hfa. congruence. }
    + (* and finds the group used *)
      assert (a ∈ used) as Haused.
      { apply (lExtractUsedOperands_Ok _ _ _ _ Hused' a). right.
        exists ca. split_and!; done. }
      assert (group ∈ lFindUsedPersistentGroups M2 used ∅) as Hgroup.
      { apply elem_of_lFindUsedPersistentGroups. right. exists functions.
        split; [done|]. apply lGroupHasUsed_true. exists a. split_and!; [done| |done].
        apply Hkeep; [by exists ca|done]. }
      destruct (lFuncAsConstInt8Ptr_present M2 b Hb2) as [cb' Hcb'].
      apply (marker_keeps _ G'' b); [|by rewrite Hinit''|done| |].
      * rewrite Hgl''. apply elem_of_app. right. by left.
      * unfold global_operands. rewrite Hinit''. exists cb'. split.
        -- apply elem_of_lCollectPreservedFunctions. right. left.
           by exists group, functions, b.
        -- by apply lFuncAsConstInt8Ptr_Some in Hcb' as (_ & _ & ?).
      * by rewrite (function_names_ext M2 _ HflX).
    + (* or the live variable shares the marker's array and keeps the
         members alive itself *)
      assert (live M b) as Hlb.
      { eapply reachable_step; [exact Hu|].
        apply elem_of_references. split.
        - apply elem_of_symbol_set. unfold symbol_names. apply elem_of_app. by left.
        - right. exists G. split_and!; [done|done|].
          unfold global_operands. rewrite HinitG. by exists cb. }
      apply GlobalDCEPass_function_names. split.
      { by rewrite (function_names_ext M2 _ HflX). }
      apply (live_transfer M); [| |done].
      * intros F HF Hl. rewrite HflX.
        apply elem_of_GlobalDCEPass_functions. rewrite Hfl1. split; [done|].
        eapply live_mono; [| |exact Hl].
        -- intros F' HF'. by rewrite Hfl1.
        -- intros G0 HG0. rewrite Hgl. apply elem_of_app. by left.
      * intros G0 HG0 Hl. rewrite Hgl''. apply elem_of_app. left.
        apply list_elem_of_filter. split.
        -- intros Heq. apply Hsym. unfold symbol_names. apply elem_of_app. right.
           apply elem_of_global_names. exists G0. split; [done|]. congruence.
        -- apply elem_of_GlobalDCEPass_globals. split.
           ++ rewrite Hgl. apply elem_of_app. by left.
           ++ eapply live_mono; [| |exact Hl].
              ** intros F' HF'. by rewrite Hfl1.
              ** intros G1 HG1. rewrite Hgl. apply elem_of_app. by left.
Qed.
(** A function that nothing refers to, that is no root and that the anchor
    does not put in the marker is removed by the first prune. *)
Lemma unreferenced_not_live M b :
  b ∈ function_names M → b ∉ global_names M →
  (∀ F, F ∈ FunctionList M → Name F = b →
     isDeclaration F = true ∨ isDiscardableIfUnused (Linkage F) = true) →
  getNumUses M (GlobalRef b) = 0 →
  ¬ refers_to (lPersistentConstPtrs M) b →
  ¬ live (lAddPersistentToLLVMUsed M) b.
Proof.
  intros Hpb Hnotg Hnoroot Hzero Hnotmarked Hlive.
  assert (b ∈ symbol_names M) as Hsym.
  { unfold symbol_names. apply elem_of_app. by left. }
  pose proof (lAddPersistentToLLVMUsed_functions M) as Hfl.
  assert (∀ G, G ∈ GlobalList (lAddPersistentToLLVMUsed M) →
     G ∈ GlobalList M ∨
     ((GName G ∉ symbol_names M) ∧
      global_operands G = lPersistentConstPtrs M)) as Hglobals.
  { intros G HG.
    destruct (lAddPersistentToLLVMUsed_globals M) as [[_ HM1]|[_ HM1]];
      rewrite HM1 in HG; [by left|].
    destruct (lCreateLLVMUsed_globals M (lPersistentConstPtrs M))
      as (G' & Hgl & Hinit & _ & _ & Hfresh & _ & _).
    rewrite Hgl in HG. apply elem_of_app in HG as [HG|HG%list_elem_of_singleton];
      [by left|]. subst G. right. split; [done|].
    unfold global_operands. by rewrite Hinit. }
  pose proof (proj1 (getNumUses_zero M b) Hzero) as Hz.
  unfold live in Hlive. inversion Hlive as [n Hroot|n r Hn Hr]; subst.
  - apply elem_of_dce_roots in Hroot
      as [(F & HF & Hname & Hdef & Hlink)|(G & HG & Hname & _)].
    + rewrite Hfl in HF. destruct (Hnoroot F HF Hname); congruence.
    + destruct (Hglobals G HG) as [HGM|[Hfresh _]].
      * apply Hnotg, elem_of_global_names. eauto.
      * by rewrite Hname in Hfresh.
  - apply elem_of_references in Hr as [_ Hr].
    destruct Hr as [(F & HF & Hname & Hrf)|(G & HG & Hname & Hrg)].
    + rewrite Hfl in HF. apply (Hz n). left. by exists F.
    + destruct (Hglobals G HG) as [HGM|[_ Hops]].
      * apply (Hz n). right. by exists G.
      * rewrite Hops in Hrg. done.
Qed.

Lemma unreferenced_not_marked M b :
  b ∉ persistentFuncs.*1 →
  (∀ group functions m, (group, functions) ∈ persistentGroups →
     b ∈ functions → m ∈ functions → getNumUses M (GlobalRef m) = 0) →
  ¬ refers_to (lPersistentConstPtrs M) b.
Proof.
  intros Hpf Hgroups (c & Hc & Hs).
  apply elem_of_lPersistentConstPtrs in Hc
    as [(group & functions & n & Hg & Hu & Hn & Hc)|(n & val & Hin & Hc)];
    apply lFuncAsConstInt8Ptr_Some in Hc as (_ & _ & Hs');
    (assert (n = b) as -> by congruence).
  - apply lIsGroupUsed_true in Hu as (a & Ha & _ & Hpos).
    rewrite (Hgroups group functions a Hg Hn Ha) in Hpos. lia.
  - apply Hpf. apply list_elem_of_fmap. by exists (b, val).
Qed.

Lemma group_members_removed M b :
  b ∈ function_names M → b ∉ global_names M →
  (∀ F, F ∈ FunctionList M → Name F = b →
     isDeclaration F = true ∨ isDiscardableIfUnused (Linkage F) = true) →
  getNumUses M (GlobalRef b) = 0 →
  b ∉ persistentFuncs.*1 →
  (∀ group functions m, (group, functions) ∈ persistentGroups →
     b ∈ functions → m ∈ functions → getNumUses M (GlobalRef m) = 0) →
  (b ∉ function_names (lRemoveUnused (lAddPersistentToLLVMUsed M))) ∧
  ∀ M', lProtectPrune M = Ok M' → b ∉ function_names M'.
Proof.
  intros Hpb Hnotg Hnoroot Hzero Hpf Hgroups.
  assert (b ∉ function_names (lRemoveUnused (lAddPersistentToLLVMUsed M))) as H2.
  { intros [_ Hlive]%GlobalDCEPass_function_names.
    apply (unreferenced_not_live M b); try done.
    by apply unreferenced_not_marked. }
  split; [done|]. intros M' HM' (F & HF & Hname)%elem_of_function_names.
  apply H2, elem_of_function_names. exists F. split; [|done].
  by eapply lRemoveUnusedPersistentFunctions_subset.
Qed.
End ProtectPruneProperties.

Section IdempotenceProperties.
Context {LType : Type} `{!EqDecision LType}.
Variable PointerType_get : @FnType LType -> nat -> LType.
Variable persistentGroups : list (PersistentGroup * list string).
Variable persistentFuncs : list (string * Z).
Variable Int8PtrTy : LType.
Implicit Types (M N : @Module LType) (F : @Function LType) (G E : @GlobalVariable).

Local Abbreviation lFuncAsConstInt8Ptr := (lFuncAsConstInt8Ptr PointerType_get Int8PtrTy).
Local Abbreviation lPersistentConstPtrs :=
  (lPersistentConstPtrs PointerType_get persistentGroups persistentFuncs Int8PtrTy).
Local Abbreviation lAddPersistentToLLVMUsed :=
  (lAddPersistentToLLVMUsed PointerType_get persistentGroups persistentFuncs Int8PtrTy).
Local Abbreviation lCollectPreservedFunctions :=
  (lCollectPreservedFunctions PointerType_get persistentGroups persistentFuncs Int8PtrTy).
Local Abbreviation lFindUsedPersistentGroups :=
  (lFindUsedPersistentGroups persistentGroups).
Local Abbreviation lRemoveUnusedPersistentFunctions :=
  (lRemoveUnusedPersistentFunctions PointerType_get persistentGroups persistentFuncs Int8PtrTy).
Local Abbreviation lProtectPrune :=
  (lProtectPrune PointerType_get persistentGroups persistentFuncs Int8PtrTy).

(** An operand that is a cast of a persistent function of the module: a
    persistent function or a member of a persistent group. *)
Local Abbreviation persistent_operand M c :=
  (∃ b, lOperandValue c = GlobalRef b ∧ stripped_global c = Some b ∧
        b ∈ function_names M ∧
        (b ∈ persistentFuncs.*1 ∨
         ∃ group functions, (group, functions) ∈ persistentGroups ∧ b ∈ functions)).

(** Rebuilding the marker keeps alive what is alive, as long as what the
    erased variables refer to stays alive. *)
Lemma live_after_update N llvmUsed newElements n :
  "llvm.compiler.used" ∉ function_names N →
  GName llvmUsed = "llvm.compiler.used" →
  (∀ E b, E ∈ GlobalList N → GName E = "llvm.compiler.used" →
     refers_to (global_operands E) b → b ∈ symbol_set N →
     live (lUpdateLLVMUsed N llvmUsed newElements) b) →
  live N n → n ≠ "llvm.compiler.used" →
  live (lUpdateLLVMUsed N llvmUsed newElements) n.
Proof.
  intros Hnofun Hname Herased Hn.
  set (X := lUpdateLLVMUsed N llvmUsed newElements) in *.
  assert (FunctionList X = FunctionList N) as Hfl
    by apply lUpdateLLVMUsed_functions.
  destruct (lUpdateLLVMUsed_globals N llvmUsed newElements) as (G'' & Hgl & _).
  fold X in Hgl. rewrite Hname in Hgl.
  assert (∀ G, G ∈ GlobalList N → GName G ≠ "llvm.compiler.used" →
               G ∈ GlobalList X) as Hkept.
  { intros G HG Hne. rewrite Hgl. apply elem_of_app. left.
    by apply list_elem_of_filter. }
  assert (∀ r, r ∈ symbol_set N → r ≠ "llvm.compiler.used" → r ∈ symbol_set X)
    as Hsym.
  { intros r Hr Hne. apply elem_of_symbol_set in Hr. apply elem_of_symbol_set.
    unfold symbol_names in *. rewrite elem_of_app in Hr. rewrite elem_of_app.
    destruct Hr as [Hr|Hr]; [left|right].
    - unfold function_names. by rewrite Hfl.
    - apply elem_of_global_names in Hr as (G & HG & <-).
      apply elem_of_global_names. eauto. }
  unfold live in Hn. induction Hn as [n Hn|n r Hn IHn Hr]; intros Hne.
  - apply reachable_root. apply elem_of_dce_roots in Hn.
    apply elem_of_dce_roots.
    destruct Hn as [(F & HF & H1 & H2)|(G & HG & H1 & H2)]; [left|right].
    + exists F. by rewrite Hfl.
    + exists G. split; [|done]. apply Hkept; [done|]. by rewrite H1.
  - apply elem_of_references in Hr as [Hs Hr].
    destruct (decide (n = "llvm.compiler.used")) as [->|Hnn].
    + destruct Hr as [(F & HF & H1 & H2)|(G & HG & H1 & H2)].
      * exfalso. apply Hnofun, elem_of_function_names. eauto.
      * by apply (Herased G r).
    + eapply reachable_step; [by apply IHn|].
      apply elem_of_references. split; [by apply Hsym|].
      destruct Hr as [(F & HF & H1 & H2)|(G & HG & H1 & H2)]; [left|right].
      * exists F. by rewrite Hfl.
      * exists G. split; [|done]. apply Hkept; [done|]. by rewrite H1.
Qed.

(** When every function stays alive, the rebuild and its prune keep the
    function list. *)
Lemma update_keeps_functions N llvmUsed newElements :
  "llvm.compiler.used" ∉ function_names N →
  GName llvmUsed = "llvm.compiler.used" →
  (∀ n, n ∈ symbol_set N → live N n) →
  (∀ E b, E ∈ GlobalList N → GName E = "llvm.compiler.used" →
     refers_to (global_operands E) b → b ∈ symbol_set N →
     live (lUpdateLLVMUsed N llvmUsed newElements) b) →
  FunctionList (lRemoveUnused (lUpdateLLVMUsed N llvmUsed newElements)) =
  FunctionList N.
Proof.
  intros Hnofun Hname Hall Herased.
  unfold lRemoveUnused, GlobalDCEPass. simpl.
  rewrite lUpdateLLVMUsed_functions. apply filter_all.
  intros F HF. apply elem_of_alive.
  apply live_after_update; try done.
  - apply Hall. by apply function_name_symbol.
  - intros Heq. apply Hnofun, elem_of_function_names. eauto.
Qed.

(** The re-closure does not abort on a marker that is not empty and whose
    operands are casts of functions of the module. *)
Lemma extract_returns N llvmUsed :
  global_operands llvmUsed ≠ [] →
  (∀ c, c ∈ global_operands llvmUsed →
     ∃ b, lOperandValue c = GlobalRef b ∧ b ∈ function_names N) →
  ∃ used, lExtractUsedFunctions N llvmUsed ∅ = Ok used.
Proof.
  intros Hne Hops. unfold global_operands in Hne, Hops.
  destruct (Initializer llvmUsed) as [ops|] eqn:Hinit; [|done]. simpl in Hne, Hops.
  assert (isa_ConstantArray ops = true) as Hisa.
  { destruct ops as [|c rest]; [done|].
    destruct (Hops c) as (b & Hv & _); [by left|].
    apply (isa_ConstantArray_operand _ c); [by left|]. by intros d ->. }
  rewrite (lExtractUsedFunctions_array _ _ _ _ Hinit Hisa).
  destruct (lExtractUsedOperands N ops ∅) as [used|msg] eqn:He; [eauto|].
  exfalso.
  assert (∃ msg, lExtractUsedOperands N ops ∅ = Fatal msg) as Hf by eauto.
  apply lExtractUsedOperands_Fatal in Hf as (C & HC & _ & Hfun).
  destruct (Hops C HC) as (b & Hv & Hb). rewrite Hv in Hfun.
  simpl in Hfun. apply bool_decide_eq_false in Hfun.
  by apply Hfun, getFunction_is_Some.
Qed.

Lemma find_app_Some {A} (f : A → bool) (l l' : list A) x :
  find f l = Some x → find f (l ++ l') = Some x.
Proof.
  induction l as [|y l IH]; simpl; [done|]. by destruct (f y).
Qed.

Lemma getNamedGlobal_unique M name E :
  E ∈ GlobalList M → GName E = name →
  (∀ E', E' ∈ GlobalList M → GName E' = name → E' = E) →
  getNamedGlobal M name = Some E.
Proof.
  intros HE Hname Huniq.
  destruct (getNamedGlobal M name) as [E'|] eqn:Hget.
  - apply getNamedGlobal_Some' in Hget as [HE' Hname']. f_equal. by apply Huniq.
  - apply getNamedGlobal_None in Hget. exfalso.
    apply Hget, elem_of_global_names. eauto.
Qed.

(** A function that a marker refers to is alive. *)
Lemma marker_refers_live M G b :
  G ∈ GlobalList M → is_Some (Initializer G) → GLinkage G = AppendingLinkage →
  refers_to (global_operands G) b → b ∈ symbol_set M → live M b.
Proof.
  intros HG Hinit Hlink Hr Hb.
  eapply reachable_step; [by apply (marker_live M G)|].
  apply elem_of_references. split; [done|]. right. by exists G.
Qed.

(** A persistent function of the module that something refers to is among
    the constants the anchor collects. *)
Lemma referenced_persistent_collected M b :
  b ∈ function_names M → 0 < getNumUses M (GlobalRef b) →
  (b ∈ persistentFuncs.*1 ∨
   ∃ group functions, (group, functions) ∈ persistentGroups ∧ b ∈ functions) →
  refers_to (lPersistentConstPtrs M) b.
Proof.
  intros Hb Hpos [Hpf|(group & functions & Hg & Hin)].
  - apply list_elem_of_fmap in Hpf as ([n val] & -> & Hpf). simpl in *.
    destruct (lFuncAsConstInt8Ptr_present PointerType_get Int8PtrTy M n Hb) as [c Hc].
    exists c. split.
    + apply elem_of_lPersistentConstPtrs. right. by exists n, val.
    + by apply lFuncAsConstInt8Ptr_Some in Hc as (_ & _ & ?).
  - destruct (lPersistentConstPtrs_group PointerType_get persistentGroups
                persistentFuncs Int8PtrTy M group functions b) as (c & Hc & _ & Hs);
      try done.
    + apply lIsGroupUsed_true. by exists b.
    + by exists c.
Qed.

(** What the sequence leaves behind: every global value is alive, no
    function has the marker's name, and a variable of that name is the one
    [getNamedGlobal] finds and holds casts of persistent functions of the
    module. *)
Lemma lProtectPrune_result M M1 :
  "llvm.compiler.used" ∉ function_names M →
  lProtectPrune M = Ok M1 →
  (∀ n, n ∈ symbol_set M1 → live M1 n) ∧
  ("llvm.compiler.used" ∉ function_names M1) ∧
  (∀ E, E ∈ GlobalList M1 → GName E = "llvm.compiler.used" →
     getNamedGlobal M1 "llvm.compiler.used" = Some E ∧
     is_Some (Initializer E) ∧
     ∀ c, c ∈ global_operands E → persistent_operand M1 c).
Proof.
  intros Hnofun HM1. unfold lProtectPrune in HM1.
  set (Ma := lRemoveUnused (lAddPersistentToLLVMUsed M)) in *.
  assert (∀ n, n ∈ function_names Ma → n ∈ function_names M) as Hsub.
  { intros n [Hn _]%GlobalDCEPass_function_names.
    by rewrite (function_names_ext _ _ (lAddPersistentToLLVMUsed_functions
      PointerType_get persistentGroups persistentFuncs Int8PtrTy M)) in Hn. }
  apply lRemoveUnusedPersistentFunctions_Ok in HM1
    as [[Hnone ->]|(llvmUsed & used & Hget & Hused & ->)].
  - split_and!.
    + intros n Hn. by apply live_GlobalDCEPass, symbol_set_GlobalDCEPass.
    + intros H. by apply Hnofun, Hsub.
    + intros E HE Hname. exfalso.
      apply getNamedGlobal_None in Hnone. apply Hnone, elem_of_global_names. eauto.
  - set (newEl := lCollectPreservedFunctions Ma [] (lFindUsedPersistentGroups Ma used ∅)) in *.
    set (X := lUpdateLLVMUsed Ma llvmUsed newEl) in *.
    assert (function_names X = function_names Ma) as HfnX.
    { apply function_names_ext, lUpdateLLVMUsed_functions. }
    split_and!.
    + intros n Hn. by apply live_GlobalDCEPass, symbol_set_GlobalDCEPass.
    + intros [H _]%GlobalDCEPass_function_names. rewrite HfnX in H.
      by apply Hnofun, Hsub.
    + intros E [HE _]%elem_of_GlobalDCEPass_globals Hname.
      destruct (lUpdateLLVMUsed_globals Ma llvmUsed newEl) as (G'' & Hgl & Hinit & Hlink).
      fold X in Hgl. apply getNamedGlobal_Some' in Hget as [_ Hllvm].
      rewrite Hgl, Hllvm in HE.
      apply elem_of_app in HE as [HE|HE%list_elem_of_singleton].
      { apply list_elem_of_filter in HE as [Hne _]. done. }
      subst E. split.
      { apply getNamedGlobal_unique; [|done|].
        - apply elem_of_GlobalDCEPass_globals. split.
          + rewrite Hgl, Hllvm. apply elem_of_app. right. by left.
          + apply marker_live; [|by rewrite Hinit|done].
            rewrite Hgl, Hllvm. apply elem_of_app. right. by left.
        - intros E' [HE' _]%elem_of_GlobalDCEPass_globals Hname'.
          rewrite Hgl, Hllvm in HE'.
          apply elem_of_app in HE' as [HE'|HE'%list_elem_of_singleton]; [|done].
          by apply list_elem_of_filter in HE' as [Hne _]. }
      split; [by rewrite Hinit|].
      unfold global_operands. rewrite Hinit. simpl. intros c Hc.
      assert (∀ n, lFuncAsConstInt8Ptr Ma n = Some c →
        lOperandValue c = GlobalRef n ∧ stripped_global c = Some n ∧
        n ∈ function_names (lRemoveUnused X)) as Hfun.
      { intros n Hn. apply lFuncAsConstInt8Ptr_Some in Hn as (Hpn & Hv & Hs).
        split_and!; [done|done|].
        apply (marker_keeps X G'' n); [|by rewrite Hinit|done| |by rewrite HfnX].
        - rewrite Hgl. apply elem_of_app. right. by left.
        - unfold global_operands. rewrite Hinit. by exists c. }
      apply elem_of_lCollectPreservedFunctions in Hc
        as [Hc|[(group & functions & n & Hg & _ & Hn & Hc)|(n & val & Hin & Hc)]].
      * by apply elem_of_nil in Hc.
      * destruct (Hfun n Hc) as (Hv & Hs & Hp). exists n. split_and!; try done.
        right. eauto.
      * destruct (Hfun n Hc) as (Hv & Hs & Hp). exists n. split_and!; try done.
        left. apply list_elem_of_fmap. by exists (n, val).
Qed.
(** On such a module, when the marker it holds is not empty, the sequence
    returns and keeps the function list. *)
Lemma lProtectPrune_again M1 :
  (∀ n, n ∈ symbol_set M1 → live M1 n) →
  "llvm.compiler.used" ∉ function_names M1 →
  (∀ E, E ∈ GlobalList M1 → GName E = "llvm.compiler.used" →
     global_operands E ≠ [] ∧
     ∀ c, c ∈ global_operands E → persistent_operand M1 c) →
  ∃ M2, lProtectPrune M1 = Ok M2 ∧ FunctionList M2 = FunctionList M1.
Proof.
  intros Hall Hnofun Hmarkers. unfold lProtectPrune.
  pose proof (lAddPersistentToLLVMUsed_functions PointerType_get
    persistentGroups persistentFuncs Int8PtrTy M1) as Hfl.
  pose proof (anchor_cases PointerType_get persistentGroups persistentFuncs
    Int8PtrTy M1) as Hcase.
  pose proof (lPersistentConstPtrs_functions PointerType_get persistentGroups
    persistentFuncs Int8PtrTy M1) as HCPfun.
  pose proof (referenced_persistent_collected M1) as HCPref.
  set (CP := lPersistentConstPtrs M1) in *.
  set (N1 := lAddPersistentToLLVMUsed M1) in *.
  assert (function_names N1 = function_names M1) as Hfn
    by by apply function_names_ext.
  (* what the variables of the anchored module are *)
  assert (∀ G, G ∈ GlobalList M1 → G ∈ GlobalList N1) as Hold.
  { intros G HG. destruct Hcase as [[_ ->]|(_ & G' & -> & _)]; [done|].
    apply elem_of_app. by left. }
  assert (∀ G, G ∈ GlobalList N1 →
     G ∈ GlobalList M1 ∨
     (CP ≠ [] ∧ GlobalList N1 = GlobalList M1 ++ [G] ∧ Initializer G = Some CP ∧
      GLinkage G = AppendingLinkage ∧
      ("llvm.compiler.used" ∈ symbol_names M1 → GName G ≠ "llvm.compiler.used")))
    as Hnew.
  { intros G HG.
    destruct Hcase as [[_ HN]|(Hne & G' & Hgl & Hinit & Hlink & _ & Htaken)].
    - left. by rewrite HN in HG.
    - rewrite Hgl in HG.
      apply elem_of_app in HG as [HG|HG%list_elem_of_singleton]; [by left|].
      subst G. right. split_and!; done. }
  (* the prune after the anchor removes nothing *)
  assert (∀ n, n ∈ symbol_set N1 → live N1 n) as Hall1.
  { intros n Hn. apply elem_of_symbol_set in Hn. unfold symbol_names in Hn.
    apply elem_of_app in Hn as [Hn|Hn].
    - apply (live_mono M1); [by intros F; rewrite Hfl|done|].
      apply Hall, elem_of_symbol_set. unfold symbol_names. apply elem_of_app.
      left. by rewrite <- Hfn.
    - apply elem_of_global_names in Hn as (G & HG & <-).
      destruct (Hnew G HG) as [HG1|(_ & _ & Hinit & Hlink & _)].
      + apply (live_mono M1); [by intros F; rewrite Hfl|done|].
        by apply Hall, global_name_symbol.
      + apply marker_live; [done|by rewrite Hinit|done]. }
  unfold lRemoveUnused. rewrite (GlobalDCEPass_all_live N1 Hall1).
  unfold lRemoveUnusedPersistentFunctions.
  destruct (getNamedGlobal N1 "llvm.compiler.used") as [llvmUsed|] eqn:Hget;
    [|by exists N1].
  apply getNamedGlobal_Some' in Hget as Hllvm. destruct Hllvm as [Hin Hname].
  (* the marker read is not empty and holds casts of functions of the module *)
  assert (global_operands llvmUsed ≠ [] ∧
          ∀ c, c ∈ global_operands llvmUsed →
            ∃ b, lOperandValue c = GlobalRef b ∧ b ∈ function_names N1) as [Hne Hops].
  { destruct (Hnew llvmUsed Hin) as [HG1|(HCP & _ & Hinit & _)].
    - destruct (Hmarkers llvmUsed HG1 Hname) as [Hne Hops]. split; [done|].
      intros c Hc. destruct (Hops c Hc) as (b & Hv & _ & Hb & _).
      exists b. by rewrite Hfn.
    - unfold global_operands. rewrite Hinit. simpl. split; [done|].
      intros c Hc. destruct (HCPfun c Hc) as (b & Hb & Hv & _).
      exists b. by rewrite Hfn. }
  destruct (extract_returns N1 llvmUsed Hne Hops) as [used Hused].
  rewrite Hused. eexists. split; [done|]. rewrite <- Hfl.
  set (newEl := lCollectPreservedFunctions N1 [] (lFindUsedPersistentGroups N1 used ∅)).
  apply update_keeps_functions; [by rewrite Hfn|done|done|].
  destruct (lUpdateLLVMUsed_globals N1 llvmUsed newEl) as (G'' & Hgl'' & Hinit'' & Hlink'').
  pose proof (lUpdateLLVMUsed_functions N1 llvmUsed newEl) as HflX.
  set (X := lUpdateLLVMUsed N1 llvmUsed newEl) in *.
  assert (∀ b, b ∈ function_names M1 → b ∈ symbol_set X) as HsymX.
  { intros b Hb. apply elem_of_symbol_set. unfold symbol_names.
    apply elem_of_app. left. unfold function_names. rewrite HflX, Hfl. done. }
  (* a function that the anchor collects stays alive *)
  assert (∀ b, refers_to CP b → live X b) as Hcollected.
  { intros b (c & Hc & Hs).
    destruct Hcase as [[HCP _]|(_ & G' & Hgl & Hinit' & Hlink' & _ & Htaken)].
    { rewrite HCP in Hc. by apply elem_of_nil in Hc. }
    destruct (HCPfun c Hc) as (b' & Hb & Hv & Hs').
    assert (b' = b) as -> by congruence.
    destruct (decide ("llvm.compiler.used" ∈ symbol_names M1)) as [Hsym|Hsym].
    - (* the anchor's marker has another name and is not erased *)
      apply (marker_refers_live X G' b); [|by rewrite Hinit'|done| |by apply HsymX].
      + rewrite Hgl''. apply elem_of_app. left. apply list_elem_of_filter.
        split; [rewrite Hname; by apply Htaken|].
        rewrite Hgl. apply elem_of_app. right. by left.
      + unfold global_operands. rewrite Hinit'. by exists c.
    - (* the module had no variable of that name: what it holds stays *)
      apply (live_mono M1).
      + intros F HF. by rewrite HflX, Hfl.
      + intros G HG. rewrite Hgl''. apply elem_of_app. left.
        apply list_elem_of_filter. split; [|by apply Hold].
        rewrite Hname. intros Heq. apply Hsym. unfold symbol_names.
        apply elem_of_app. right. apply elem_of_global_names. eauto.
      + apply Hall, elem_of_symbol_set. unfold symbol_names.
        apply elem_of_app. by left. }
  (* what an erased variable refers to is collected by the anchor *)
  intros E b HE HnameE (c & Hc & Hs) Hb.
  apply Hcollected.
  destruct (Hnew E HE) as [HE1|(_ & _ & HinitE & _)].
  - destruct (Hmarkers E HE1 HnameE) as [_ HopsE].
    destruct (HopsE c Hc) as (b' & _ & Hs' & Hpb & Hmarked).
    assert (b' = b) as -> by congruence.
    apply HCPref; [done| |done].
    apply getNumUses_pos. exists (GName E). right. exists E.
    split_and!; [done|done|]. by exists c.
  - unfold global_operands in Hc. rewrite HinitE in Hc. by exists c.
Qed.

(** The second run stops at the cast when the module holds an empty
    marker. *)
Lemma lProtectPrune_empty_marker M1 E :
  (∀ n, n ∈ symbol_set M1 → live M1 n) →
  getNamedGlobal M1 "llvm.compiler.used" = Some E →
  Initializer E = Some [] →
  ∃ msg, lProtectPrune M1 = Fatal msg.
Proof.
  intros Hall Hget Hinit. unfold lProtectPrune.
  pose proof (lAddPersistentToLLVMUsed_functions PointerType_get
    persistentGroups persistentFuncs Int8PtrTy M1) as Hfl.
  pose proof (anchor_cases PointerType_get persistentGroups persistentFuncs
    Int8PtrTy M1) as Hcase.
  set (N1 := lAddPersistentToLLVMUsed M1) in *.
  assert (∀ n, n ∈ symbol_set N1 → live N1 n) as Hall1.
  { intros n Hn.
    assert (∀ G, G ∈ GlobalList M1 → G ∈ GlobalList N1) as Hold.
    { intros G HG. destruct Hcase as [[_ ->]|(_ & G' & -> & _)]; [done|].
      apply elem_of_app. by left. }
    apply elem_of_symbol_set in Hn. unfold symbol_names in Hn.
    apply elem_of_app in Hn as [Hn|Hn].
    - apply (live_mono M1); [by intros F; rewrite Hfl|done|].
      apply Hall, elem_of_symbol_set. unfold symbol_names. apply elem_of_app.
      left. unfold function_names in *. by rewrite <- Hfl.
    - apply elem_of_global_names in Hn as (G & HG & <-).
      destruct Hcase as [[_ HN]|(_ & G' & Hgl & Hinit' & Hlink & _)].
      + rewrite HN in HG. apply (live_mono M1); [by intros F; rewrite Hfl|done|].
        by apply Hall, global_name_symbol.
      + rewrite Hgl in HG.
        apply elem_of_app in HG as [HG|HG%list_elem_of_singleton].
        * apply (live_mono M1); [by intros F; rewrite Hfl|done|].
          by apply Hall, global_name_symbol.
        * subst G. apply marker_live; [|by rewrite Hinit'|done].
          rewrite Hgl. apply elem_of_app. right. by left. }
  unfold lRemoveUnused. rewrite (GlobalDCEPass_all_live N1 Hall1).
  unfold lRemoveUnusedPersistentFunctions.
  assert (getNamedGlobal N1 "llvm.compiler.used" = Some E) as ->.
  { unfold getNamedGlobal in *.
    destruct Hcase as [[_ ->]|(_ & G' & -> & _)]; [done|].
    by apply find_app_Some. }
  unfold lExtractUsedFunctions. rewrite Hinit. simpl. eauto.
Qed.
End IdempotenceProperties.

Section LinkProperties.
Context {LType : Type} `{!EqDecision LType}.
Variable lookupIntrinsicID : string -> nat.
Variable ISPC_XE_ENABLED : bool.
Variable ISPC_LLVM_VERSION : N.
Variable isGenXIntrinsic : @Function LType -> bool.
Variable GenXIntrinsic_getAttributes : @Function LType -> list string.
Variable FixFunctionAttribute : list string -> string -> string -> list string.
Variable getProgramAddressSpace : string -> nat.
Variable Intrinsic_getAttributes : nat -> list string.
Implicit Types (M DstM SrcM bcModule : @Module LType) (F f : @Function LType)
  (G : @GlobalVariable).

Local Abbreviation lUpdateIntrinsicAttributes :=
  (lUpdateIntrinsicAttributes ISPC_LLVM_VERSION isGenXIntrinsic
     GenXIntrinsic_getAttributes FixFunctionAttribute).
Local Abbreviation lUpdateIntrinsicsAttributes :=
  (lUpdateIntrinsicsAttributes ISPC_XE_ENABLED ISPC_LLVM_VERSION isGenXIntrinsic
     GenXIntrinsic_getAttributes FixFunctionAttribute).
Local Abbreviation getOrInsertFunction :=
  (getOrInsertFunction lookupIntrinsicID getProgramAddressSpace Intrinsic_getAttributes).
Local Abbreviation lMoveUnusedDeclarations :=
  (lMoveUnusedDeclarations lookupIntrinsicID getProgramAddressSpace
     Intrinsic_getAttributes).
Local Abbreviation lAddBitcodeToModule :=
  (lAddBitcodeToModule lookupIntrinsicID ISPC_XE_ENABLED ISPC_LLVM_VERSION
     isGenXIntrinsic GenXIntrinsic_getAttributes FixFunctionAttribute
     getProgramAddressSpace Intrinsic_getAttributes).

(** *** The attribute update touches attributes only *)

Lemma lUpdateIntrinsicAttributes_fields F :
  Name (lUpdateIntrinsicAttributes F) = Name F ∧
  Body (lUpdateIntrinsicAttributes F) = Body F ∧
  Linkage (lUpdateIntrinsicAttributes F) = Linkage F.
Proof.
  unfold lUpdateIntrinsicAttributes.
  destruct (str_contains _ _); [done|].
  destruct (isGenXIntrinsic F); [|done]. by case_bool_decide.
Qed.

Lemma lUpdateIntrinsicsAttributes_functions bcModule F' :
  F' ∈ FunctionList (lUpdateIntrinsicsAttributes bcModule) →
  ∃ F, F ∈ FunctionList bcModule ∧ Name F' = Name F ∧ Body F' = Body F.
Proof.
  unfold lUpdateIntrinsicsAttributes. destruct ISPC_XE_ENABLED; [|eauto].
  simpl. intros (F & -> & HF)%list_elem_of_fmap. exists F.
  by destruct (lUpdateIntrinsicAttributes_fields F) as (? & ? & _).
Qed.

Lemma lUpdateIntrinsicsAttributes_functions_2 bcModule F :
  F ∈ FunctionList bcModule →
  ∃ F', F' ∈ FunctionList (lUpdateIntrinsicsAttributes bcModule) ∧
        Name F' = Name F ∧ Body F' = Body F.
Proof.
  unfold lUpdateIntrinsicsAttributes. destruct ISPC_XE_ENABLED; [|eauto].
  simpl. intros HF. exists (lUpdateIntrinsicAttributes F).
  split; [by apply list_elem_of_fmap_2|].
  by destruct (lUpdateIntrinsicAttributes_fields F) as (? & ? & _).
Qed.

Lemma lUpdateIntrinsicsAttributes_globals bcModule :
  GlobalList (lUpdateIntrinsicsAttributes bcModule) = GlobalList bcModule.
Proof. unfold lUpdateIntrinsicsAttributes. by destruct ISPC_XE_ENABLED. Qed.

Lemma lUpdateIntrinsicsAttributes_uses bcModule a :
  getNumUses (lUpdateIntrinsicsAttributes bcModule) (GlobalRef a) = 0 ↔
  getNumUses bcModule (GlobalRef a) = 0.
Proof.
  rewrite !getNumUses_zero. split; intros H n Hn; apply (H n).
  - destruct Hn as [(F & HF & Hname & Hr)|(G & HG & Hname & Hr)]; [left|right].
    + destruct (lUpdateIntrinsicsAttributes_functions_2 _ F HF) as (F' & HF' & Hn' & Hb').
      exists F'. split_and!; [done|congruence|].
      unfold function_operands in *. by rewrite Hb'.
    + exists G. by rewrite lUpdateIntrinsicsAttributes_globals.
  - destruct Hn as [(F' & HF' & Hname & Hr)|(G & HG & Hname & Hr)]; [left|right].
    + destruct (lUpdateIntrinsicsAttributes_functions _ F' HF') as (F & HF & Hn' & Hb').
      exists F. split_and!; [done|congruence|].
      unfold function_operands in *. by rewrite <- Hb'.
    + exists G. by rewrite lUpdateIntrinsicsAttributes_globals in HG.
Qed.

(** *** Inserting declarations *)

Lemma getOrInsertFunction_globals M name ty attrs :
  GlobalList (getOrInsertFunction M name ty attrs) = GlobalList M.
Proof. unfold getOrInsertFunction. by case_bool_decide. Qed.

Lemma getOrInsertFunction_keeps M name ty attrs n :
  n ∈ function_names M → n ∈ function_names (getOrInsertFunction M name ty attrs).
Proof.
  unfold getOrInsertFunction. case_bool_decide; [done|].
  unfold function_names. simpl. rewrite fmap_app, elem_of_app. by left.
Qed.

Lemma newDeclaration_Name M name ty attrs :
  Name (newDeclaration lookupIntrinsicID getProgramAddressSpace
          Intrinsic_getAttributes M name ty attrs) = name.
Proof. unfold newDeclaration. by destruct (isIntrinsic _). Qed.

Lemma getOrInsertFunction_inserted M name ty attrs :
  name ∈ symbol_names (getOrInsertFunction M name ty attrs) ∧
  (name ∉ global_names M →
   name ∈ function_names (getOrInsertFunction M name ty attrs)).
Proof.
  unfold getOrInsertFunction. case_bool_decide as Hin.
  - split; [done|]. intros Hng. unfold symbol_names in Hin.
    by apply elem_of_app in Hin as [?|?].
  - assert (name ∈ function_names
      (with_functions M (FunctionList M ++
         [newDeclaration lookupIntrinsicID getProgramAddressSpace
            Intrinsic_getAttributes M name ty attrs]))) as Hn.
    { unfold function_names. simpl. rewrite fmap_app, elem_of_app. right.
      apply list_elem_of_singleton. by rewrite newDeclaration_Name. }
    split; [|done]. unfold symbol_names. apply elem_of_app. by left.
Qed.

Lemma lMoveDeclaration_keeps bcModule M f n :
  (n ∈ function_names M → n ∈ function_names (lMoveDeclaration lookupIntrinsicID
     getProgramAddressSpace Intrinsic_getAttributes bcModule M f)) ∧
  GlobalList (lMoveDeclaration lookupIntrinsicID getProgramAddressSpace
     Intrinsic_getAttributes bcModule M f) = GlobalList M.
Proof.
  unfold lMoveDeclaration. destruct (isDeclaration f); [|done].
  case_bool_decide; [done|]. split.
  - apply getOrInsertFunction_keeps.
  - apply getOrInsertFunction_globals.
Qed.

Lemma foldl_lMoveDeclaration_keeps bcModule fs M n :
  (n ∈ function_names M →
   n ∈ function_names (foldl (lMoveDeclaration lookupIntrinsicID
     getProgramAddressSpace Intrinsic_getAttributes bcModule) M fs)) ∧
  GlobalList (foldl (lMoveDeclaration lookupIntrinsicID getProgramAddressSpace
     Intrinsic_getAttributes bcModule) M fs) = GlobalList M.
Proof.
  revert M. induction fs as [|f fs IH]; intros M; simpl; [done|].
  destruct (IH (lMoveDeclaration lookupIntrinsicID getProgramAddressSpace
     Intrinsic_getAttributes bcModule M f)) as [IH1 IH2].
  destruct (lMoveDeclaration_keeps bcModule M f n) as [H1 H2].
  split; [auto|congruence].
Qed.

(** After the loop over the library's functions, a declaration that has no
    use in the library has its name in the target's symbol table. *)
Lemma lMoveUnusedDeclarations_inserted bcModule M f :
  f ∈ FunctionList bcModule → isDeclaration f = true →
  getNumUses bcModule (GlobalRef (Name f)) = 0 →
  GlobalList (lMoveUnusedDeclarations bcModule M) = GlobalList M ∧
  (Name f ∈ global_names M ∨
   Name f ∈ function_names (lMoveUnusedDeclarations bcModule M)).
Proof.
  intros Hf Hdecl Huses. unfold lMoveUnusedDeclarations.
  split; [apply (foldl_lMoveDeclaration_keeps bcModule _ M "")|].
  revert Hf. generalize (FunctionList bcModule). intros fs. revert M.
  induction fs as [|f' fs IH]; intros M Hf; [by apply elem_of_nil in Hf|].
  simpl. apply elem_of_cons in Hf as [<-|Hf].
  - destruct (decide (Name f ∈ global_names M)) as [|Hng]; [by left|]. right.
    apply foldl_lMoveDeclaration_keeps.
    unfold lMoveDeclaration. rewrite Hdecl, bool_decide_eq_false_2 by lia.
    by apply getOrInsertFunction_inserted.
  - destruct (IH (lMoveDeclaration lookupIntrinsicID getProgramAddressSpace
      Intrinsic_getAttributes bcModule M f') Hf) as [Hg|Hfn]; [|by right].
    left. unfold global_names in *.
    by rewrite (proj2 (lMoveDeclaration_keeps bcModule M f' "")) in Hg.
Qed.

Lemma lMoveDeclaration_elem bcModule M f F :
  F ∈ FunctionList M →
  F ∈ FunctionList (lMoveDeclaration lookupIntrinsicID getProgramAddressSpace
                      Intrinsic_getAttributes bcModule M f).
Proof.
  intros HF. unfold lMoveDeclaration. destruct (isDeclaration f); [|done].
  case_bool_decide; [done|]. unfold getOrInsertFunction.
  case_bool_decide; [done|]. simpl. apply elem_of_app. by left.
Qed.

Lemma foldl_lMoveDeclaration_elem bcModule fs M F :
  F ∈ FunctionList M →
  F ∈ FunctionList (foldl (lMoveDeclaration lookupIntrinsicID
         getProgramAddressSpace Intrinsic_getAttributes bcModule) M fs).
Proof.
  revert M. induction fs as [|f fs IH]; intros M HF; simpl; [done|].
  by apply IH, lMoveDeclaration_elem.
Qed.

(** The loop adds no name but those of the functions it goes through. *)
Lemma foldl_lMoveDeclaration_symbols bcModule fs M n :
  n ∈ symbol_names (foldl (lMoveDeclaration lookupIntrinsicID
         getProgramAddressSpace Intrinsic_getAttributes bcModule) M fs) →
  n ∈ symbol_names M ∨ n ∈ Name <$> fs.
Proof.
  revert M. induction fs as [|f fs IH]; intros M; simpl; [by left|].
  intros [Hn|Hn]%IH; [|right; by apply elem_of_cons; right].
  revert Hn. unfold lMoveDeclaration. destruct (isDeclaration f); [|by left].
  case_bool_decide; [by left|]. unfold getOrInsertFunction.
  case_bool_decide; [by left|]. unfold symbol_names, function_names. simpl.
  rewrite fmap_app, !elem_of_app. simpl. rewrite newDeclaration_Name.
  intros [[?|Hn]|?]; [by left; left| |by left; right].
  apply list_elem_of_singleton in Hn as ->. right. by left.
Qed.

(** A declaration without a use whose name the target does not have is
    created in the target, with its type. *)
Lemma lMoveUnusedDeclarations_created bcModule M f :
  NoDup (function_names bcModule) →
  f ∈ FunctionList bcModule → isDeclaration f = true →
  getNumUses bcModule (GlobalRef (Name f)) = 0 →
  Name f ∉ symbol_names M →
  ∃ F, F ∈ FunctionList (lMoveUnusedDeclarations bcModule M) ∧
       Name F = Name f ∧ FunctionTy F = FunctionTy f ∧ isDeclaration F = true.
Proof.
  intros Hnd Hf Hdecl Huses Hfree. unfold lMoveUnusedDeclarations, function_names in *.
  apply list_elem_of_split in Hf as (l1 & l2 & Hl). rewrite Hl in *.
  rewrite foldl_app. simpl.
  rewrite fmap_app in Hnd. apply NoDup_app in Hnd as (_ & Hnd & _).
  set (M1 := foldl _ M l1).
  assert (Name f ∉ symbol_names M1) as Hfree1.
  { intros [?|Hin]%foldl_lMoveDeclaration_symbols; [done|].
    apply (Hnd _ Hin). simpl. by left. }
  exists (newDeclaration lookupIntrinsicID getProgramAddressSpace
            Intrinsic_getAttributes M1 (Name f) (FunctionTy f) (Attributes f)).
  split.
  - apply foldl_lMoveDeclaration_elem. unfold lMoveDeclaration.
    rewrite Hdecl, bool_decide_eq_false_2 by lia. unfold getOrInsertFunction.
    rewrite bool_decide_eq_false_2 by done. simpl. apply elem_of_app. right.
    by apply list_elem_of_singleton.
  - unfold newDeclaration. by destruct (isIntrinsic _).
Qed.

(** *** What the linker leaves alone *)

Lemma getFunction_NoDup M F :
  NoDup (function_names M) → F ∈ FunctionList M → getFunction M (Name F) = Some F.
Proof.
  unfold function_names, getFunction. induction (FunctionList M) as [|F' fs IH]; simpl.
  - by intros _ ?%elem_of_nil.
  - intros [Hnotin Hnd]%NoDup_cons [->|HF]%elem_of_cons.
    + by rewrite bool_decide_eq_true_2.
    + rewrite bool_decide_eq_false_2; [by apply IH|].
      intros Heq. apply Hnotin. rewrite Heq. by apply list_elem_of_fmap_2.
Qed.

Lemma uniqueNames_lookup names taken last n x :
  (uniqueNames names taken last).1.1 !! n = Some x → n ∈ names.
Proof.
  revert taken last. induction names as [|a names IH]; intros taken last.
  - simpl. by rewrite lookup_empty.
  - cbn [uniqueNames].
    destruct (makeUniqueName (S (length taken)) taken a last) as [a' last'].
    specialize (IH (a' :: taken) last').
    destruct (uniqueNames names (a' :: taken) last') as [[ren taken'] last''].
    cbn [fst] in *. destruct (decide (a = n)) as [->|Hne].
    + intros _. by left.
    + intros H. right. apply IH. by rewrite lookup_insert_ne in H.
Qed.

Lemma rename_outside names taken last n :
  n ∉ names → rename (uniqueNames names taken last).1.1 n = n.
Proof.
  intros Hn. unfold rename.
  destruct ((uniqueNames names taken last).1.1 !! n) eqn:Hl; [|done].
  by apply uniqueNames_lookup in Hl.
Qed.

(** A declared function of the source without a use is neither moved nor
    declared by the linker. *)
Lemma unused_declaration_not_linked DstM SrcM f :
  NoDup (function_names SrcM) →
  f ∈ FunctionList SrcM → isDeclaration f = true →
  getNumUses SrcM (GlobalRef (Name f)) = 0 →
  (Name f ∉ linkedDefinitions DstM SrcM) ∧
  (Name f ∉ linkedDeclarations DstM SrcM (linkedDefinitions DstM SrcM)).
Proof.
  intros Hnd Hf Hdecl Huses.
  pose proof (proj1 (getNumUses_zero _ _) Huses) as Hnoref.
  split.
  - unfold linkedDefinitions. intros Hin%closure_sound.
    inversion Hin as [n Hroot|n r Hreach Hstep]; subst.
    + unfold valuesToLink in Hroot. apply elem_of_list_to_set in Hroot.
      apply list_elem_of_filter in Hroot as [Hneeded _].
      unfold isNeeded, getNamedValue in Hneeded.
      rewrite (getFunction_NoDup _ _ Hnd Hf) in Hneeded.
      unfold linkIfNeeded in Hneeded. simpl in Hneeded.
      rewrite Hdecl in Hneeded. done.
    + apply elem_of_filter in Hstep as [_ Hr].
      apply elem_of_references in Hr as [_ Hr]. by apply (Hnoref n).
  - unfold linkedDeclarations. intros [_ Hin]%elem_of_filter.
    apply elem_of_set_bind in Hin as (n & _ & Hr).
    apply elem_of_references in Hr as [_ Hr]. by apply (Hnoref n).
Qed.

(** A function of the destination whose name is neither moved nor declared
    stays, under its name. *)
Lemma linkModules_keeps_function DstM SrcM F :
  Name F ∉ linkedDefinitions DstM SrcM →
  Name F ∉ linkedDeclarations DstM SrcM (linkedDefinitions DstM SrcM) →
  F ∈ FunctionList DstM →
  ∃ F', F' ∈ FunctionList (linkModules DstM SrcM).2 ∧ Name F' = Name F ∧
        FunctionTy F' = FunctionTy F ∧ isDeclaration F' = isDeclaration F.
Proof.
  intros HL HD HF. unfold linkModules.
  destruct (existsb _ _); [by exists F|].
  match goal with
  | |- context [uniqueNames ?ns ?tk ?la] =>
      pose proof (rename_outside ns tk la (Name F)) as Hren;
      destruct (uniqueNames ns tk la) as [[sigma taken] last]
  end.
  destruct (uniqueNames _ taken last) as [[rho taken'] last']. simpl in *.
  exists (renameFunction sigma F). split_and!.
  - apply elem_of_app. left. apply list_elem_of_fmap_2.
    apply list_elem_of_filter. split; [|done].
    unfold isReplaced. rewrite (bool_decide_eq_false_2 (Name F ∈ _)) by done.
    by rewrite andb_false_r.
  - simpl. apply Hren. intros [Hb _]%list_elem_of_filter.
    apply Is_true_true in Hb. apply andb_true_iff in Hb as [Hb _].
    apply andb_true_iff in Hb as [_ Hb]. apply bool_decide_eq_true in Hb.
    by apply elem_of_union in Hb as [?|?].
  - done.
  - unfold isDeclaration. simpl. by destruct (Body F).
Qed.

Lemma linkModules_keeps_global DstM SrcM G :
  GName G ∉ linkedDefinitions DstM SrcM →
  GName G ∉ linkedDeclarations DstM SrcM (linkedDefinitions DstM SrcM) →
  G ∈ GlobalList DstM →
  GName G ∈ global_names (linkModules DstM SrcM).2.
Proof.
  intros HL HD HG. unfold linkModules, global_names.
  destruct (existsb _ _); [by apply list_elem_of_fmap_2|].
  match goal with
  | |- context [uniqueNames ?ns ?tk ?la] =>
      pose proof (rename_outside ns tk la (GName G)) as Hren;
      destruct (uniqueNames ns tk la) as [[sigma taken] last]
  end.
  destruct (uniqueNames _ taken last) as [[rho taken'] last']. simpl in *.
  rewrite fmap_app, elem_of_app. left.
  apply list_elem_of_fmap. exists (renameGlobal sigma G). split.
  - simpl. symmetry. apply Hren. intros [Hb _]%list_elem_of_filter.
    apply Is_true_true in Hb. apply andb_true_iff in Hb as [Hb _].
    apply andb_true_iff in Hb as [_ Hb]. apply bool_decide_eq_true in Hb.
    by apply elem_of_union in Hb as [?|?].
  - apply list_elem_of_fmap_2. apply list_elem_of_filter. split; [|done].
    unfold isReplaced. rewrite (bool_decide_eq_false_2 (GName G ∈ _)) by done.
    by rewrite andb_false_r.
Qed.

(** *** The library module as the merge sees it *)

Lemma lUpdateIntrinsicAttributes_FunctionTy F :
  FunctionTy (lUpdateIntrinsicAttributes F) = FunctionTy F.
Proof.
  unfold lUpdateIntrinsicAttributes.
  destruct (str_contains _ _); [done|].
  destruct (isGenXIntrinsic F); [|done]. by case_bool_decide.
Qed.

Lemma lUpdateIntrinsicsAttributes_names bcModule :
  function_names (lUpdateIntrinsicsAttributes bcModule) = function_names bcModule.
Proof.
  unfold lUpdateIntrinsicsAttributes, function_names.
  destruct ISPC_XE_ENABLED; [|done]. simpl.
  rewrite <- list_fmap_compose. apply list_fmap_ext.
  intros i F _. simpl. by destruct (lUpdateIntrinsicAttributes_fields F).
Qed.

(** The module handed to the linker: the library after the attribute
    update of Xe targets and without its [llvm.ident] metadata. *)
Lemma prepared_library (isXeTarget : bool) bcModule f :
  NoDup (function_names bcModule) →
  f ∈ FunctionList bcModule → isDeclaration f = true →
  getNumUses bcModule (GlobalRef (Name f)) = 0 →
  let bc := if isXeTarget then lUpdateIntrinsicsAttributes bcModule else bcModule in
  NoDup (function_names bc) ∧
  ∃ f', f' ∈ FunctionList bc ∧ isDeclaration f' = true ∧
        getNumUses bc (GlobalRef (Name f')) = 0 ∧
        Name f' = Name f ∧ FunctionTy f' = FunctionTy f.
Proof.
  intros Hnd Hf Hdecl Huses. destruct isXeTarget; simpl; [|by eauto 10].
  split; [by rewrite lUpdateIntrinsicsAttributes_names|].
  pose proof (proj2 (lUpdateIntrinsicsAttributes_uses bcModule (Name f)) Huses) as Hu.
  unfold lUpdateIntrinsicsAttributes in *.
  destruct ISPC_XE_ENABLED; [|by eauto 10].
  destruct (lUpdateIntrinsicAttributes_fields f) as (Hn & Hb & _).
  exists (lUpdateIntrinsicAttributes f). split_and!.
  - simpl. by apply list_elem_of_fmap_2.
  - unfold isDeclaration in *. by rewrite Hb.
  - by rewrite Hn.
  - done.
  - apply lUpdateIntrinsicAttributes_FunctionTy.
Qed.
End LinkProperties.

Section LinkageProperties.
Context {LType : Type}.
Implicit Types (module : @Module LType) (F : @Function LType).

Lemma setLinkage_Internal_fields F :
  Linkage (setLinkage F InternalLinkage) = InternalLinkage ∧
  Name (setLinkage F InternalLinkage) = Name F ∧
  Body (setLinkage F InternalLinkage) = Body F ∧
  FunctionTy (setLinkage F InternalLinkage) = FunctionTy F ∧
  Attributes (setLinkage F InternalLinkage) = Attributes F ∧
  AddressSpace (setLinkage F InternalLinkage) = AddressSpace F.
Proof. done. Qed.

Lemma lSetAsInternal_lookup module functions i :
  FunctionList (lSetAsInternal module functions) !! i =
  (fun F => if negb (isDeclaration F) && bool_decide (Name F ∈ functions)
            then setLinkage F InternalLinkage else F) <$> FunctionList module !! i.
Proof. unfold lSetAsInternal; simpl. apply list_lookup_fmap. Qed.

(** C7. [lSetAsInternal] demotes exactly the named defined functions: after
    the call every function of the module that has a body and whose name is
    in the set has internal linkage, with its name, body, type, attributes
    and address space as before; every declaration and every function whose
    name is not in the set is the same function at the same place; the
    module has the same function names, global variables, metadata, triple
    and data layout, so that a name of the set that the module does not
    have changes nothing. *)
Theorem lSetAsInternal_exact module functions :
  let module' := lSetAsInternal module functions in
  (∀ i F, FunctionList module !! i = Some F →
     isDeclaration F = false → Name F ∈ functions →
     ∃ F', FunctionList module' !! i = Some F' ∧
           Linkage F' = InternalLinkage ∧ Name F' = Name F ∧
           Body F' = Body F ∧ FunctionTy F' = FunctionTy F ∧
           Attributes F' = Attributes F ∧ AddressSpace F' = AddressSpace F) ∧
  (∀ F', F' ∈ FunctionList module' →
     isDeclaration F' = false → Name F' ∈ functions →
     Linkage F' = InternalLinkage) ∧
  (∀ i F, FunctionList module !! i = Some F →
     isDeclaration F = true ∨ Name F ∉ functions →
     FunctionList module' !! i = Some F) ∧
  length (FunctionList module') = length (FunctionList module) ∧
  function_names module' = function_names module ∧
  GlobalList module' = GlobalList module ∧
  NamedMDList module' = NamedMDList module ∧
  TargetTriple module' = TargetTriple module ∧
  DataLayout module' = DataLayout module ∧
  LastUnique module' = LastUnique module.
Proof.
  intros module'. subst module'.
  split_and!; try done.
  - intros i F Hi Hdef Hin. rewrite lSetAsInternal_lookup, Hi. simpl.
    rewrite Hdef. simpl. rewrite bool_decide_eq_true_2 by done.
    eexists. split; [done|]. apply setLinkage_Internal_fields.
  - intros F' HF' Hdef Hin.
    apply list_elem_of_lookup in HF' as [i Hi].
    rewrite lSetAsInternal_lookup in Hi.
    destruct (FunctionList module !! i) as [F|] eqn:HF; simplify_eq/=.
    destruct (negb (isDeclaration F) && bool_decide (Name F ∈ functions)) eqn:Hc; [done|].
    apply andb_false_iff in Hc as [Hc|Hc].
    + rewrite Hdef in Hc. done.
    + apply bool_decide_eq_false in Hc. done.
  - intros i F Hi Hc. rewrite lSetAsInternal_lookup, Hi. simpl.
    destruct Hc as [Hc|Hc].
    + rewrite Hc. done.
    + rewrite (bool_decide_eq_false_2 _ Hc), andb_false_r. done.
  - unfold lSetAsInternal; simpl. apply length_fmap.
  - unfold function_names, lSetAsInternal; simpl.
    rewrite <- list_fmap_compose. apply list_fmap_ext.
    intros i F _. simpl. by destruct (_ && _).
Qed.
End LinkageProperties.

Section IntrinsicCheckProperties.
Context {LType : Type} `{!EqDecision LType}.
Variable lookupIntrinsicID : string -> nat.
Variable Intrinsic_getType : nat -> @FnType LType.
Variable PointerType_get : @FnType LType -> nat -> LType.

Local Abbreviation lCheckIntrinsic :=
  (lCheckIntrinsic lookupIntrinsicID Intrinsic_getType PointerType_get).
Local Abbreviation lCheckFunctions :=
  (lCheckFunctions lookupIntrinsicID Intrinsic_getType PointerType_get).
Local Abbreviation lCheckModuleIntrinsics :=
  (lCheckModuleIntrinsics lookupIntrinsicID Intrinsic_getType PointerType_get).
Local Abbreviation getIntrinsicID := (getIntrinsicID lookupIntrinsicID).
Local Abbreviation getType := (getType PointerType_get).

(** The length test and [compare] of the source say that the name begins
    with ["llvm.x86."]. *)
Lemma substring_length_le (n : nat) (s : string) :
  String.length (String.substring 0 n s) ≤ String.length s.
Proof.
  revert n. induction s as [|c s IH]; intros [|n]; simpl; try lia.
  specialize (IH n). lia.
Qed.

Lemma lIsX86Name_prefix funcName :
  lIsX86Name funcName = String.prefix "llvm.x86." funcName.
Proof.
  unfold lIsX86Name.
  destruct (String.prefix "llvm.x86." funcName) eqn:Hp.
  - pose proof (proj1 (String.prefix_correct _ _) Hp) as Hs.
    rewrite (bool_decide_eq_true_2 _ Hs), andb_true_r.
    apply bool_decide_eq_true_2.
    pose proof (substring_length_le (String.length "llvm.x86.") funcName) as Hl.
    rewrite Hs in Hl. exact Hl.
  - apply andb_false_iff. right. apply bool_decide_eq_false_2.
    intros Hs. apply String.prefix_correct in Hs. congruence.
Qed.

Lemma prefix_app_true (p q s : string) :
  String.prefix (p +:+ q) s = true → String.prefix p s = true.
Proof.
  revert s. induction p as [|c p IH]; intros s; simpl.
  - intros _. destruct s; reflexivity.
  - destruct s as [|c' s]; [done|]. simpl.
    destruct (Ascii.ascii_dec c c'); [|done]. apply IH.
Qed.

(** A name in the checked name space is an intrinsic name. *)
Lemma x86_isIntrinsic (F : @Function LType) :
  String.prefix "llvm.x86." (Name F) = true → isIntrinsic F = true.
Proof. unfold isIntrinsic. apply (prefix_app_true "llvm." "x86."). Qed.

Local Abbreviation lSignatureOk :=
  (lSignatureOk lookupIntrinsicID Intrinsic_getType PointerType_get).

Lemma lCheckIntrinsic_Ok func :
  lCheckIntrinsic func = Ok tt ↔
  (String.prefix "llvm.x86." (Name func) = true → lSignatureOk func).
Proof.
  unfold lCheckIntrinsic, lSignatureOk. rewrite lIsX86Name_prefix.
  destruct (String.prefix "llvm.x86." (Name func)) eqn:Hx.
  - rewrite (x86_isIntrinsic _ Hx). simpl.
    repeat case_bool_decide; (split; [try done|]); try tauto;
      intros H; destruct (H eq_refl); done.
  - by destruct (negb (isIntrinsic func)).
Qed.

Lemma lCheckIntrinsic_outside func :
  String.prefix "llvm.x86." (Name func) = false → lCheckIntrinsic func = Ok tt.
Proof.
  intros Hx. unfold lCheckIntrinsic. rewrite lIsX86Name_prefix, Hx.
  by destruct (negb (isIntrinsic func)).
Qed.

Lemma lCheckIntrinsic_Fatal func msg :
  lCheckIntrinsic func = Fatal msg →
  String.prefix "llvm.x86." (Name func) = true ∧
  ((getIntrinsicID func = 0 ∧ msg = "Intrinsic is not found: " +:+ Name func) ∨
   (getIntrinsicID func ≠ 0 ∧
    getType func ≠ PointerType_get (Intrinsic_getType (getIntrinsicID func)) 0 ∧
    msg = "Assertion failed: func->getType() == intrinsicType")).
Proof.
  unfold lCheckIntrinsic. rewrite lIsX86Name_prefix.
  destruct (negb (isIntrinsic func)); [done|].
  destruct (String.prefix "llvm.x86." (Name func)); [|done].
  repeat case_bool_decide; intros [= <-]; auto.
Qed.

Lemma lCheckFunctions_Ok fs :
  lCheckFunctions fs = Ok tt ↔
  ∀ func, func ∈ fs →
    String.prefix "llvm.x86." (Name func) = true → lSignatureOk func.
Proof.
  induction fs as [|f fs IH]; simpl.
  - split; [|done]. intros _ func Hin. by apply elem_of_nil in Hin.
  - destruct (lCheckIntrinsic f) as [[]|msg] eqn:Hf.
    + rewrite IH. pose proof (proj1 (lCheckIntrinsic_Ok f) Hf) as Hf'. split.
      * intros H func [->|Hin]%elem_of_cons; [exact Hf'|by apply H].
      * intros H func Hin. apply H. by right.
    + split; [done|]. intros H.
      assert (lCheckIntrinsic f = Ok tt) as Hok; [|congruence].
      apply lCheckIntrinsic_Ok, H. by left.
Qed.

Lemma lCheckFunctions_filter fs :
  lCheckFunctions fs =
  lCheckFunctions (filter (fun func => String.prefix "llvm.x86." (Name func)) fs).
Proof.
  induction fs as [|f fs IH]; [done|].
  rewrite filter_cons. destruct (decide _) as [Hx|Hx]; simpl.
  - by rewrite IH.
  - rewrite lCheckIntrinsic_outside; [done|].
    by destruct (String.prefix "llvm.x86." (Name f)).
Qed.

Lemma lCheckFunctions_Fatal fs msg :
  lCheckFunctions fs = Fatal msg →
  ∃ func, func ∈ fs ∧ lCheckIntrinsic func = Fatal msg.
Proof.
  induction fs as [|f fs IH]; simpl; [done|].
  destruct (lCheckIntrinsic f) as [[]|msg'] eqn:Hf.
  - intros [func [Hin Hm]]%IH. exists func. split; [by right|done].
  - intros [= ->]. exists f. split; [by left|done].
Qed.


End IntrinsicCheckProperties.

Section SymbolProperties.
Context {LType : Type} `{!EqDecision LType}.
Variable LLVMTypes : @LLVMTypesTable LType.
Context {SymbolTable : Type}.
Variable LookupIntrinsics : SymbolTable -> @Function LType -> option (@Symbol LType).
Variable AddIntrinsics : SymbolTable -> @Symbol LType -> SymbolTable.

Local Abbreviation lLLVMTypeToISPCType := (lLLVMTypeToISPCType LLVMTypes).
Local Abbreviation lTranslateParams := (lTranslateParams LLVMTypes).
Local Abbreviation CreateISPCSymbolForLLVMIntrinsic :=
  (CreateISPCSymbolForLLVMIntrinsic LLVMTypes LookupIntrinsics AddIntrinsics).

(** The loop over the parameters gives all the translated types, in
    order, when every parameter type has one. *)
Lemma lTranslateParams_all j params acc args :
  Forall2 (fun t ty => lLLVMTypeToISPCType t false = Some ty) params args →
  lTranslateParams j params acc = inr (acc ++ args).
Proof.
  intros H. revert j acc.
  induction H as [|t ty params args Ht _ IH]; intros j acc; simpl.
  - by rewrite app_nil_r.
  - rewrite Ht, IH, <- app_assoc. done.
Qed.

(** It stops at the first parameter whose type has none, with its index. *)
Lemma lTranslateParams_first j params acc k :
  (∀ i t, i < k → params !! i = Some t →
     lLLVMTypeToISPCType t false ≠ None) →
  (∃ t, params !! k = Some t ∧ lLLVMTypeToISPCType t false = None) →
  lTranslateParams j params acc = inl (j + k).
Proof.
  revert j acc k. induction params as [|t params IH]; intros j acc k Hbefore [t' [Hk Ht']].
  - done.
  - simpl. destruct k as [|k]; simpl in Hk.
    + simplify_eq. rewrite Ht'. f_equal. lia.
    + destruct (lLLVMTypeToISPCType t false) as [ty|] eqn:Ht.
      * rewrite (IH (S j) _ k); [f_equal; lia| |eauto].
        intros i t0 Hi Hl. apply (Hbefore (S i)); [lia|done].
      * exfalso. apply (Hbefore 0 t); [lia|done|done].
Qed.

(** A call that finds the function in the symbol table already returns the
    symbol found and does nothing else. *)
Lemma CreateISPCSymbolForLLVMIntrinsic_existing func symbolTable existingSym :
  LookupIntrinsics symbolTable func = Some existingSym →
  CreateISPCSymbolForLLVMIntrinsic func symbolTable =
    (Some existingSym, symbolTable, []).
Proof. intros H. unfold CreateISPCSymbolForLLVMIntrinsic. by rewrite H. Qed.

(** C9. Adapting an LLVM intrinsic that has no symbol yet: when the return
    type has no ispc counterpart, one diagnostic naming the function is
    reported, no symbol is returned and the symbol table is unchanged; when
    the return type has one and parameter [j] is the first whose type has
    none, one diagnostic naming the function and [j] is reported, no symbol
    is returned and the symbol table is unchanged; when all types have one,
    a function symbol with the translated type is returned and added to the
    symbol table with no diagnostic.  The function returns in every case:
    nothing aborts the compilation. *)
Theorem CreateISPCSymbolForLLVMIntrinsic_adapts func symbolTable :
  LookupIntrinsics symbolTable func = None →
  let ftype := FunctionTy func in
  let name := Name func in
  let result := CreateISPCSymbolForLLVMIntrinsic func symbolTable in
  (lLLVMTypeToISPCType (ReturnType ftype) false = None →
   result =
     (None, symbolTable,
      ["Return type not representable for Intrinsic " +:+ name +:+ "."])) ∧
  (∀ j, lLLVMTypeToISPCType (ReturnType ftype) false ≠ None →
     (∀ i t, i < j → ParamTypes ftype !! i = Some t →
        lLLVMTypeToISPCType t false ≠ None) →
     (∃ t, ParamTypes ftype !! j = Some t ∧
           lLLVMTypeToISPCType t false = None) →
     result =
       (None, symbolTable,
        ["Type of parameter " +:+ pretty j +:+
         " not representable for Intrinsic " +:+ name])) ∧
  (∀ returnType argTypes,
     lLLVMTypeToISPCType (ReturnType ftype) false = Some returnType →
     Forall2 (fun t ty => lLLVMTypeToISPCType t false = Some ty)
             (ParamTypes ftype) argTypes →
     let sym :=
       {| sym_name := name; sym_pos := {| pos_name := "LLVM Intrinsic" |};
          sym_kind := SymbolKind_Function;
          sym_type := {| returnType := returnType; paramTypes := argTypes;
                         ftPos := {| pos_name := "LLVM Intrinsic" |} |};
          sym_function := Some func |} in
     result = (Some sym, AddIntrinsics symbolTable sym, [])).
Proof.
  intros Hnew ftype name result. subst result ftype name.
  unfold CreateISPCSymbolForLLVMIntrinsic. rewrite Hnew.
  split_and!.
  - intros ->. done.
  - intros j Hret Hbefore Hj.
    destruct (lLLVMTypeToISPCType (ReturnType (FunctionTy func)) false); [|done].
    by rewrite (lTranslateParams_first 0 _ [] j Hbefore Hj).
  - intros returnType argTypes Hret Hargs. rewrite Hret.
    by rewrite (lTranslateParams_all 0 _ [] argTypes Hargs).
Qed.
End SymbolProperties.

Section ExtractUsed.
Context {LType : Type}.
Implicit Types (M : @Module LType) (llvmUsed : @GlobalVariable).

End ExtractUsed.

Section MarkerProperties.
Context {LType : Type} `{!EqDecision LType}.
Variable PointerType_get : @FnType LType -> nat -> LType.
Variable persistentGroups : list (PersistentGroup * list string).
Variable persistentFuncs : list (string * Z).
Variable Int8PtrTy : LType.
Implicit Types (M : @Module LType) (G llvmUsed : @GlobalVariable).

Local Abbreviation lPersistentConstPtrs :=
  (lPersistentConstPtrs PointerType_get persistentGroups persistentFuncs Int8PtrTy).
Local Abbreviation lAddPersistentToLLVMUsed :=
  (lAddPersistentToLLVMUsed PointerType_get persistentGroups persistentFuncs Int8PtrTy).

Lemma getNamedGlobal_Some M name G :
  getNamedGlobal M name = Some G → G ∈ GlobalList M ∧ GName G = name.
Proof.
  unfold getNamedGlobal. intros H.
  apply find_some in H as [Hin Hn]. split; [by apply list_elem_of_In|].
  by apply bool_decide_eq_true in Hn.
Qed.

(** C3 (as the code has it). The marker is rebuilt wholesale in the
    re-closure phase: [lUpdateLLVMUsed] erases the marker found in the
    module and creates a new one that holds exactly the new elements, so
    that the module has one variable named [llvm.compiler.used] afterwards
    and its other variables as before.  The anchor step never erases or
    amends a variable of the module: it appends one new variable when there
    is something to preserve, and nothing otherwise. *)
Theorem lUpdateLLVMUsed_rebuilds M llvmUsed newElements :
  getNamedGlobal M "llvm.compiler.used" = Some llvmUsed →
  "llvm.compiler.used" ∉ function_names M →
  GlobalList (lUpdateLLVMUsed M llvmUsed newElements) =
    filter (fun G => GName G ≠ "llvm.compiler.used") (GlobalList M) ++
    [lNewLLVMUsed newElements] ∧
  filter (fun G => GName G = "llvm.compiler.used")
         (GlobalList (lUpdateLLVMUsed M llvmUsed newElements)) =
    [lNewLLVMUsed newElements] ∧
  FunctionList (lUpdateLLVMUsed M llvmUsed newElements) = FunctionList M ∧
  (∃ G', GlobalList (lAddPersistentToLLVMUsed M) =
           GlobalList M ++
           match lPersistentConstPtrs M with [] => [] | _ => [G'] end ∧
         Initializer G' = Some (lPersistentConstPtrs M)) ∧
  FunctionList (lAddPersistentToLLVMUsed M) = FunctionList M.
Proof.
  intros Hget Hfun.
  apply getNamedGlobal_Some in Hget as [Hin Hname].
  assert (GlobalList (lUpdateLLVMUsed M llvmUsed newElements) =
    filter (fun G => GName G ≠ "llvm.compiler.used") (GlobalList M) ++
    [lNewLLVMUsed newElements]) as Hgl.
  { unfold lUpdateLLVMUsed, lCreateLLVMUsed. rewrite Hname.
    rewrite insertGlobalVariable_free; [done|].
    unfold symbol_names. rewrite elem_of_app. intros [H|H]; [done|].
    by apply eraseGlobal_names in H. }
  split_and!.
  - done.
  - rewrite Hgl, filter_app.
    rewrite filter_none; [done|].
    intros G HG%list_elem_of_filter. tauto.
  - unfold lUpdateLLVMUsed, lCreateLLVMUsed.
    by rewrite insertGlobalVariable_functions.
  - unfold lAddPersistentToLLVMUsed.
    destruct (lPersistentConstPtrs M) as [|C Cs] eqn:HC.
    + exists (lNewLLVMUsed []). by rewrite app_nil_r.
    + unfold lCreateLLVMUsed.
      destruct (insertGlobalVariable_globals M (lNewLLVMUsed (C :: Cs)))
        as (G' & HG' & Hinit & _). eauto.
  - unfold lAddPersistentToLLVMUsed.
    destruct (lPersistentConstPtrs M); [done|].
    unfold lCreateLLVMUsed. by rewrite insertGlobalVariable_functions.
Qed.
End MarkerProperties.

Section GroupPreservation.
Context {LType : Type} `{!EqDecision LType}.
Variable PointerType_get : @FnType LType -> nat -> LType.
Variable persistentGroups : list (PersistentGroup * list string).
Variable persistentFuncs : list (string * Z).
Variable Int8PtrTy : LType.
Implicit Types (M : @Module LType) (F : @Function LType).

Local Abbreviation lFuncAsConstInt8Ptr := (lFuncAsConstInt8Ptr PointerType_get Int8PtrTy).
Local Abbreviation lAddPersistentToLLVMUsed :=
  (lAddPersistentToLLVMUsed PointerType_get persistentGroups persistentFuncs Int8PtrTy).
Local Abbreviation lProtectPrune :=
  (lProtectPrune PointerType_get persistentGroups persistentFuncs Int8PtrTy).

End GroupPreservation.

Section Idempotence.
Context {LType : Type} `{!EqDecision LType}.
Variable PointerType_get : @FnType LType -> nat -> LType.
Variable persistentGroups : list (PersistentGroup * list string).
Variable persistentFuncs : list (string * Z).
Variable Int8PtrTy : LType.
Implicit Types (M : @Module LType).

Local Abbreviation lProtectPrune :=
  (lProtectPrune PointerType_get persistentGroups persistentFuncs Int8PtrTy).

(** C6 (as the code has it). Running the protect-prune sequence a second
    time, with no linking in between, removes no function: on the module
    the first run returns, when the marker it left is not empty, the second
    run returns too, and the function list after it is the function list
    after the first.  (No function of the module may bear the marker's
    name, [llvm.compiler.used].) *)
Theorem lProtectPrune_twice_keeps_functions M M1 :
  "llvm.compiler.used" ∉ function_names M →
  lProtectPrune M = Ok M1 →
  (∀ E, getNamedGlobal M1 "llvm.compiler.used" = Some E →
        global_operands E ≠ []) →
  ∃ M2, lProtectPrune M1 = Ok M2 ∧ FunctionList M2 = FunctionList M1.
Proof.
  intros Hnofun HM1 Hnonempty.
  destruct (lProtectPrune_result PointerType_get persistentGroups
    persistentFuncs Int8PtrTy M M1 Hnofun HM1) as (Hall & Hnofun1 & Hmarkers).
  apply lProtectPrune_again; [done|done|].
  intros E HE Hname. destruct (Hmarkers E HE Hname) as (Hget & _ & Hops).
  split; [by apply Hnonempty|done].
Qed.
End Idempotence.

Section MergeDeclarations.
Context {LType : Type} `{!EqDecision LType}.
Variable lookupIntrinsicID : string -> nat.
Variable ISPC_XE_ENABLED : bool.
Variable ISPC_LLVM_VERSION : N.
Variable isGenXIntrinsic : @Function LType -> bool.
Variable GenXIntrinsic_getAttributes : @Function LType -> list string.
Variable FixFunctionAttribute : list string -> string -> string -> list string.
Variable getProgramAddressSpace : string -> nat.
Variable Intrinsic_getAttributes : nat -> list string.

Local Abbreviation lAddBitcodeToModule :=
  (lAddBitcodeToModule lookupIntrinsicID ISPC_XE_ENABLED ISPC_LLVM_VERSION
     isGenXIntrinsic GenXIntrinsic_getAttributes FixFunctionAttribute
     getProgramAddressSpace Intrinsic_getAttributes).

(** X20.  [lAddBitcodeToModule] keeps every declaration of the library
    that has no use inside the library: when the
    global values of the library have distinct names, the name of such a
    declaration is in the symbol table of the target after the merge; it
    names a function there unless the target had a global variable of that
    name; and when the target did not have the name at all, the target ends
    with a declaration of that name and of the library's function type. *)
Theorem lAddBitcodeToModule_keeps_unused_declarations
    (isXeTarget : bool) (bcModule module : @Module LType) (f : Function) :
  wf_module bcModule →
  f ∈ FunctionList bcModule → isDeclaration f = true →
  getNumUses bcModule (GlobalRef (Name f)) = 0 →
  let linked := (lAddBitcodeToModule isXeTarget (Some bcModule) module).1 in
  (Name f ∈ symbol_names linked) ∧
  (Name f ∉ global_names module → Name f ∈ function_names linked) ∧
  (Name f ∉ symbol_names module →
   ∃ F, F ∈ FunctionList linked ∧ Name F = Name f ∧
        FunctionTy F = FunctionTy f ∧ isDeclaration F = true).
Proof.
  intros Hwf Hf Hdecl Huses.
  assert (NoDup (function_names bcModule)) as Hnd.
  { unfold wf_module, symbol_names in Hwf. by apply NoDup_app in Hwf as [? _]. }
  destruct (prepared_library ISPC_XE_ENABLED ISPC_LLVM_VERSION isGenXIntrinsic
              GenXIntrinsic_getAttributes FixFunctionAttribute
              isXeTarget bcModule f Hnd Hf Hdecl Huses)
    as (Hnd' & f' & Hf' & Hdecl' & Huses' & Hname & Hty).
  unfold lAddBitcodeToModule. cbn zeta.
  set (bc := if isXeTarget then _ else bcModule) in *.
  set (M1 := lMoveUnusedDeclarations _ _ _ bc module).
  set (Src := eraseNamedMetadata bc "llvm.ident").
  assert ((let '(failed, module0) := linkModules M1 Src in
           (module0, if failed then ["Error linking stdlib bitcode."] else [])).1
          = (linkModules M1 Src).2) as -> by (by destruct (linkModules M1 Src)).
  destruct (unused_declaration_not_linked M1 Src f' Hnd' Hf' Hdecl' Huses')
    as [HL HD].
  destruct (lMoveUnusedDeclarations_inserted lookupIntrinsicID
              getProgramAddressSpace Intrinsic_getAttributes bc module f'
              Hf' Hdecl' Huses') as [Hglobals Hin].
  fold M1 in Hglobals, Hin. rewrite Hname in *.
  assert (Name f ∈ function_names M1 →
          Name f ∈ function_names (linkModules M1 Src).2) as Hfun.
  { intros (F & HF & HnF)%elem_of_function_names. rewrite <- HnF in HL, HD.
    destruct (linkModules_keeps_function M1 Src F HL HD HF)
      as (F' & HF' & HnF' & _).
    apply elem_of_function_names. exists F'. split; [done|congruence]. }
  split_and!.
  - unfold symbol_names. apply elem_of_app. destruct Hin as [Hg|Hfn].
    + right. apply elem_of_global_names in Hg as (G & HG & HnG).
      rewrite <- Hglobals in HG. rewrite <- HnG in *.
      by apply linkModules_keeps_global.
    + left. by apply Hfun.
  - intros Hng. destruct Hin as [?|Hfn]; [done|]. by apply Hfun.
  - intros Hfree.
    assert (getNumUses bc (GlobalRef (Name f')) = 0) as Hu by (by rewrite Hname).
    destruct (lMoveUnusedDeclarations_created lookupIntrinsicID
                getProgramAddressSpace Intrinsic_getAttributes bc module f'
                Hnd' Hf' Hdecl' Hu) as (F & HF & HnF & HtF & HdF).
    { by rewrite Hname. }
    fold M1 in HF. rewrite Hname in HnF. rewrite <- HnF in HL, HD.
    destruct (linkModules_keeps_function M1 Src F HL HD HF)
      as (F' & HF' & HnF' & HtF' & HdF').
    exists F'. split_and!; [done|congruence|congruence|congruence].
Qed.
End MergeDeclarations.

Section FrameProperties.
Context {LType : Type} `{!EqDecision LType}.
Implicit Types (st : @State LType).

Lemma libs_unchanged_refl st : libs_unchanged st st.
Proof. by intros l image H. Qed.

Lemma libs_unchanged_trans st1 st2 st3 :
  libs_unchanged st1 st2 → libs_unchanged st2 st3 → libs_unchanged st1 st3.
Proof. intros H12 H23 l image H. by apply H23, H12. Qed.

Lemma preserves_ret {A} (a : A) : preserves_libs (LType:=LType) (mret a).
Proof. intros st a' st' [= _ <-]. apply libs_unchanged_refl. Qed.

Lemma preserves_abort {A} msg : preserves_libs (LType:=LType) (abort (A:=A) msg).
Proof. by intros st a st'. Qed.

Lemma preserves_bind {A B} (c : Comp A) (f : A → Comp (LType:=LType) B) :
  preserves_libs c → (∀ a, preserves_libs (f a)) → preserves_libs (c ≫= f).
Proof.
  intros Hc Hf st b st'. unfold mbind, Comp_bind.
  destruct (c st) as [[a s1]|] eqn:Hcs; [|done].
  intros Hfs. eapply libs_unchanged_trans; [by eapply Hc|by eapply Hf].
Qed.

(** The laws of the monad, at a state. *)
Lemma Comp_bind_assoc {A B C} (c : Comp A) (f : A → Comp B)
    (k : B → Comp (LType:=LType) C) st :
  ((c ≫= f) ≫= k) st = (c ≫= (fun a => f a ≫= k)) st.
Proof. unfold mbind, Comp_bind. by destruct (c st) as [[a s1]|]. Qed.

Lemma Comp_bind_ext {A B} (c : Comp A) (f f' : A → Comp (LType:=LType) B) st :
  (∀ a s, f a s = f' a s) → (c ≫= f) st = (c ≫= f') st.
Proof. intros Hf. unfold mbind, Comp_bind. by destruct (c st) as [[a s1]|]. Qed.

Lemma Comp_ret_bind {A B} (a : A) (f : A → Comp (LType:=LType) B) st :
  (mret a ≫= f) st = f a st.
Proof. reflexivity. Qed.

Lemma preserves_Assert_ptr {A} (p : option A) what :
  preserves_libs (LType:=LType) (Assert_ptr p what).
Proof. destruct p; [apply preserves_ret|apply preserves_abort]. Qed.

Lemma preserves_deref p : preserves_libs (LType:=LType) (deref p).
Proof. destruct p; [apply preserves_ret|apply preserves_abort]. Qed.

Lemma preserves_readModule p : preserves_libs (LType:=LType) (readModule p).
Proof.
  intros st M st'. unfold readModule.
  destruct (heap st !! p) as [[?|?]|]; [|done..].
  intros [= _ <-]. apply libs_unchanged_refl.
Qed.

(** Writing through a module pointer touches no library: the pointer has to
    point to a module. *)
Lemma preserves_writeModule p (M : Module) :
  preserves_libs (LType:=LType) (writeModule p M).
Proof.
  intros st [] st'. unfold writeModule.
  destruct (heap st !! p) as [[M0|?]|] eqn:Hp; [|done..].
  intros [= <-] l image Hl. simpl.
  rewrite lookup_insert_ne; [done|]. intros ->. congruence.
Qed.

Lemma preserves_deleteModule p : preserves_libs (LType:=LType) (deleteModule p).
Proof.
  intros st [] st'. unfold deleteModule.
  destruct (heap st !! p) as [[M0|?]|] eqn:Hp; [|done..].
  intros [= <-] l image Hl. simpl.
  rewrite lookup_delete_ne; [done|]. intros ->. congruence.
Qed.

Lemma preserves_report msgs : preserves_libs (LType:=LType) (report msgs).
Proof. intros st [] st' [= <-]. by intros l image Hl. Qed.

Lemma preserves_printModule dest (M : Module) :
  preserves_libs (LType:=LType) (printModule dest M).
Proof. intros st [] st' [= <-]. by intros l image Hl. Qed.

(** The module a library hands out is a new object of the store that holds
    the library's image; the rest of the store is as it was. *)
Lemma getLLVMModule_fresh lib st p st' :
  getLLVMModule lib st = Ok (Some p, st') →
  heap st !! p = None ∧
  ∃ image, heap st !! lib = Some (ObjBitcodeLib (Some image)) ∧
           heap st' = <[p := ObjModule image]> (heap st).
Proof.
  unfold getLLVMModule.
  destruct (heap st !! lib) as [[?|[image|]]|] eqn:Hlib; [done| |done..].
  intros [= <- <-]. split.
  - apply not_elem_of_dom. apply is_fresh.
  - by exists image.
Qed.

Lemma preserves_getLLVMModule lib : preserves_libs (LType:=LType) (getLLVMModule lib).
Proof.
  intros st [p|] st' Hget.
  - apply getLLVMModule_fresh in Hget as (Hfresh & image & _ & Hheap).
    intros l image' Hl. rewrite Hheap, lookup_insert_ne; [done|].
    intros ->. congruence.
  - unfold getLLVMModule in Hget.
    destruct (heap st !! lib) as [[?|[image|]]|]; [done..| |done].
    injection Hget as <-. apply libs_unchanged_refl.
Qed.

Lemma preserves_updateModule p (f : Module → Module) :
  preserves_libs (LType:=LType) (updateModule p f).
Proof.
  apply preserves_bind; [apply preserves_readModule|].
  intros M. apply preserves_writeModule.
Qed.

Lemma preserves_tryUpdateModule p (f : Module → Result Module) :
  preserves_libs (LType:=LType) (tryUpdateModule p f).
Proof.
  apply preserves_bind; [apply preserves_readModule|].
  intros M. destruct (f M); [apply preserves_writeModule|apply preserves_abort].
Qed.

Lemma preserves_checkModule p (f : Module → Result unit) :
  preserves_libs (LType:=LType) (checkModule p f).
Proof.
  apply preserves_bind; [apply preserves_readModule|].
  intros M. destruct (f M); [apply preserves_ret|apply preserves_abort].
Qed.

(** The file system is no part of the store. *)
Lemma preserves_sys_fs_exists path :
  preserves_libs (LType:=LType) (sys_fs_exists path).
Proof. intros st b st' [= _ <-]. apply libs_unchanged_refl. Qed.

Lemma preserves_sys_fs_create_directories path :
  preserves_libs (LType:=LType) (sys_fs_create_directories path).
Proof.
  intros st EC st'. unfold sys_fs_create_directories.
  destruct (fs_create_directories _ _); intros [= _ <-]; by intros l image Hl.
Qed.

Lemma preserves_raw_fd_ostream path :
  preserves_libs (LType:=LType) (raw_fd_ostream path).
Proof.
  intros st EC st'. unfold raw_fd_ostream.
  destruct (fs_open _ _); intros [= _ <-]; by intros l image Hl.
Qed.

Lemma preserves_debugDumpModule g module name stage :
  preserves_libs (LType:=LType) (debugDumpModule g module name stage).
Proof.
  unfold debugDumpModule. destruct (negb _); [apply preserves_ret|].
  destruct (_ && _).
  - apply preserves_bind; [apply preserves_sys_fs_exists|]. intros found.
    apply preserves_bind.
    { destruct found;
        [apply preserves_ret|apply preserves_sys_fs_create_directories]. }
    intros [message|]; [apply preserves_report|].
    apply preserves_bind; [apply preserves_raw_fd_ostream|].
    intros [message|]; [apply preserves_report|].
    apply preserves_bind; [apply preserves_readModule|].
    intros M. apply preserves_printModule.
  - apply preserves_bind; [apply preserves_readModule|].
    intros M. apply preserves_printModule.
Qed.
End FrameProperties.

Create HintDb frame.
#[export] Hint Resolve preserves_ret preserves_abort preserves_Assert_ptr
  preserves_deref preserves_readModule preserves_writeModule
  preserves_deleteModule preserves_report preserves_printModule
  preserves_getLLVMModule preserves_updateModule preserves_tryUpdateModule
  preserves_checkModule preserves_debugDumpModule : frame.

(** Frame reasoning along a computation: split at each bind, take the
    cases of each branch, close the leaves with the lemmas above. *)
Ltac frame_step :=
  match goal with
  | |- preserves_libs (mbind _ _) => apply preserves_bind; [|intros ?]
  | |- preserves_libs (let '(_, _) := ?x in _) => destruct x
  | |- preserves_libs (match ?x with _ => _ end) => destruct x
  | |- preserves_libs (from_option _ _ ?x) => destruct x; simpl
  | |- preserves_libs _ => solve [eauto with frame]
  end.
Ltac frame := repeat frame_step.

Section StageFrames.
Context {LType : Type} `{!EqDecision LType}.
Variable lookupIntrinsicID : string -> nat.
Variable Intrinsic_getType : nat -> @FnType LType.
Variable PointerType_get : @FnType LType -> nat -> LType.
Variable ISPC_XE_ENABLED : bool.
Variable ISPC_LLVM_VERSION : N.
Variable isGenXIntrinsic : @Function LType -> bool.
Variable GenXIntrinsic_getAttributes : @Function LType -> list string.
Variable FixFunctionAttribute : list string -> string -> string -> list string.
Variable getProgramAddressSpace : string -> nat.
Variable Intrinsic_getAttributes : nat -> list string.
Variable persistentGroups : list (PersistentGroup * list string).
Variable persistentFuncs : list (string * Z).
Variable Int8PtrTy : LType.

Local Abbreviation lAddBitcodeToModule_at :=
  (lAddBitcodeToModule_at lookupIntrinsicID ISPC_XE_ENABLED ISPC_LLVM_VERSION
     isGenXIntrinsic GenXIntrinsic_getAttributes FixFunctionAttribute
     getProgramAddressSpace Intrinsic_getAttributes).
Local Abbreviation lAddDeclarationsToModule_at :=
  (lAddDeclarationsToModule_at lookupIntrinsicID ISPC_XE_ENABLED ISPC_LLVM_VERSION
     isGenXIntrinsic GenXIntrinsic_getAttributes FixFunctionAttribute
     getProgramAddressSpace Intrinsic_getAttributes).
Local Abbreviation LinkDispatcher :=
  (LinkDispatcher lookupIntrinsicID ISPC_XE_ENABLED ISPC_LLVM_VERSION
     isGenXIntrinsic GenXIntrinsic_getAttributes FixFunctionAttribute
     getProgramAddressSpace Intrinsic_getAttributes).
Local Abbreviation lLinkCommonBuiltins :=
  (lLinkCommonBuiltins lookupIntrinsicID ISPC_XE_ENABLED ISPC_LLVM_VERSION
     isGenXIntrinsic GenXIntrinsic_getAttributes FixFunctionAttribute
     getProgramAddressSpace Intrinsic_getAttributes).
Local Abbreviation lLinkTargetBuiltins :=
  (lLinkTargetBuiltins lookupIntrinsicID ISPC_XE_ENABLED ISPC_LLVM_VERSION
     isGenXIntrinsic GenXIntrinsic_getAttributes FixFunctionAttribute
     getProgramAddressSpace Intrinsic_getAttributes).
Local Abbreviation lLinkStdlib :=
  (lLinkStdlib lookupIntrinsicID ISPC_XE_ENABLED ISPC_LLVM_VERSION
     isGenXIntrinsic GenXIntrinsic_getAttributes FixFunctionAttribute
     getProgramAddressSpace Intrinsic_getAttributes).
Local Abbreviation LinkStandardLibraries :=
  (LinkStandardLibraries lookupIntrinsicID Intrinsic_getType PointerType_get
     ISPC_XE_ENABLED ISPC_LLVM_VERSION isGenXIntrinsic
     GenXIntrinsic_getAttributes FixFunctionAttribute getProgramAddressSpace
     Intrinsic_getAttributes persistentGroups persistentFuncs Int8PtrTy).

Lemma preserves_lAddBitcodeToModule_at g bcModule module :
  preserves_libs (lAddBitcodeToModule_at g bcModule module).
Proof. unfold lAddBitcodeToModule_at. frame. Qed.

Lemma preserves_lAddDeclarationsToModule_at g m bcModule module :
  preserves_libs (lAddDeclarationsToModule_at g m bcModule module).
Proof. unfold lAddDeclarationsToModule_at. frame. Qed.

Lemma preserves_lLinkStdlib g module : preserves_libs (lLinkStdlib g module).
Proof.
  pose proof preserves_lAddBitcodeToModule_at. unfold lLinkStdlib. frame.
Qed.

Lemma preserves_lLinkCommonBuiltins g module :
  preserves_libs (lLinkCommonBuiltins g module).
Proof.
  pose proof preserves_lAddBitcodeToModule_at. unfold lLinkCommonBuiltins. frame.
Qed.

Lemma preserves_lLinkTargetBuiltins g module :
  preserves_libs (lLinkTargetBuiltins g module).
Proof.
  pose proof preserves_lAddBitcodeToModule_at. unfold lLinkTargetBuiltins. frame.
Qed.

Lemma preserves_LinkDispatcher g m module :
  preserves_libs (LinkDispatcher g m module).
Proof.
  pose proof preserves_lAddBitcodeToModule_at.
  pose proof preserves_lAddDeclarationsToModule_at. unfold LinkDispatcher. frame.
Qed.

Lemma preserves_LinkStandardLibraries g module debug_num :
  preserves_libs (LinkStandardLibraries g module debug_num).
Proof.
  pose proof preserves_lLinkStdlib. pose proof preserves_lLinkCommonBuiltins.
  pose proof preserves_lLinkTargetBuiltins. unfold LinkStandardLibraries. frame.
Qed.

(** C4. Every link stage leaves the precompiled libraries as they are.  The
    module a library hands out is a new object of the store holding the
    library's image, and a run of the standard-library stage, of the
    common-builtins stage, of the target-builtins stage, of the dispatch
    stage or of the whole composition that returns ends in a store where
    every library is in place with the image it had: the triple, the data
    layout and the renaming are applied to the copies only. *)
Theorem link_stages_keep_libraries g m module debug_num :
  (∀ lib (st : @State LType) p st',
     getLLVMModule lib st = Ok (Some p, st') →
     heap st !! p = None ∧
     ∃ image, heap st !! lib = Some (ObjBitcodeLib (Some image)) ∧
              heap st' !! lib = Some (ObjBitcodeLib (Some image)) ∧
              heap st' !! p = Some (ObjModule image)) ∧
  preserves_libs (lLinkStdlib g module) ∧
  preserves_libs (lLinkCommonBuiltins g module) ∧
  preserves_libs (lLinkTargetBuiltins g module) ∧
  preserves_libs (LinkDispatcher g m module) ∧
  preserves_libs (LinkStandardLibraries g module debug_num).
Proof.
  split_and!.
  - intros lib st p st' Hget.
    pose proof (preserves_getLLVMModule lib st _ st' Hget) as Hkeep.
    apply getLLVMModule_fresh in Hget as (Hfresh & image & Hlib & Hheap).
    split; [done|]. exists image. split_and!; [done|by apply Hkeep|].
    rewrite Hheap. apply lookup_insert_eq.
  - apply preserves_lLinkStdlib.
  - apply preserves_lLinkCommonBuiltins.
  - apply preserves_lLinkTargetBuiltins.
  - apply preserves_LinkDispatcher.
  - apply preserves_LinkStandardLibraries.
Qed.
End StageFrames.

Section StdlibOptional.
Context {LType : Type} `{!EqDecision LType}.
Variable lookupIntrinsicID : string -> nat.
Variable Intrinsic_getType : nat -> @FnType LType.
Variable PointerType_get : @FnType LType -> nat -> LType.
Variable ISPC_XE_ENABLED : bool.
Variable ISPC_LLVM_VERSION : N.
Variable isGenXIntrinsic : @Function LType -> bool.
Variable GenXIntrinsic_getAttributes : @Function LType -> list string.
Variable FixFunctionAttribute : list string -> string -> string -> list string.
Variable getProgramAddressSpace : string -> nat.
Variable Intrinsic_getAttributes : nat -> list string.
Variable persistentGroups : list (PersistentGroup * list string).
Variable persistentFuncs : list (string * Z).
Variable Int8PtrTy : LType.

Local Abbreviation lAddPersistentToLLVMUsed :=
  (lAddPersistentToLLVMUsed PointerType_get persistentGroups persistentFuncs Int8PtrTy).
Local Abbreviation lLinkBuiltinsStages :=
  (lLinkBuiltinsStages lookupIntrinsicID Intrinsic_getType PointerType_get
     ISPC_XE_ENABLED ISPC_LLVM_VERSION isGenXIntrinsic
     GenXIntrinsic_getAttributes FixFunctionAttribute getProgramAddressSpace
     Intrinsic_getAttributes).
Local Abbreviation lLinkStdlibStage :=
  (lLinkStdlibStage lookupIntrinsicID PointerType_get
     ISPC_XE_ENABLED ISPC_LLVM_VERSION isGenXIntrinsic
     GenXIntrinsic_getAttributes FixFunctionAttribute getProgramAddressSpace
     Intrinsic_getAttributes persistentGroups persistentFuncs Int8PtrTy).
Local Abbreviation LinkStandardLibraries :=
  (LinkStandardLibraries lookupIntrinsicID Intrinsic_getType PointerType_get
     ISPC_XE_ENABLED ISPC_LLVM_VERSION isGenXIntrinsic
     GenXIntrinsic_getAttributes FixFunctionAttribute getProgramAddressSpace
     Intrinsic_getAttributes persistentGroups persistentFuncs Int8PtrTy).

(** The stages after the standard library's do not look at the registry's
    entry for the standard library. *)
Lemma lLinkBuiltinsStages_with_ISPCStdLib g stdlib module debug_num :
  lLinkBuiltinsStages (with_ISPCStdLib g stdlib) module debug_num =
  lLinkBuiltinsStages g module debug_num.
Proof. reflexivity. Qed.

(** C5. Without the standard library ([includeStdlib] false) the composition
    is the anchor step followed by the stages of the common and the target
    builtins (linking, pruning, dump), the demotion of the global variables
    and the intrinsic check; the registry's entry for the standard library
    plays no part in it.  With the standard library, the same stages follow
    the standard library's stage (linking, anchor, pruning, re-closure,
    dump), entered with the next stage number. *)
Theorem LinkStandardLibraries_stdlib_optional g module debug_num st :
  (includeStdlib g = false →
     LinkStandardLibraries g module debug_num st =
       (updateModule module lAddPersistentToLLVMUsed;;
        lLinkBuiltinsStages g module debug_num) st ∧
     ∀ stdlib,
       LinkStandardLibraries (with_ISPCStdLib g stdlib) module debug_num st =
       LinkStandardLibraries g module debug_num st) ∧
  (includeStdlib g = true →
     LinkStandardLibraries g module debug_num st =
       (lLinkStdlibStage g module debug_num;;
        lLinkBuiltinsStages g module (debug_num + 1)) st).
Proof.
  split.
  - intros Hno.
    assert (∀ g', includeStdlib g' = false →
      LinkStandardLibraries g' module debug_num st =
        (updateModule module lAddPersistentToLLVMUsed;;
         lLinkBuiltinsStages g' module debug_num) st) as Heq.
    { intros g' Hg'. unfold LinkStandardLibraries. rewrite Hg'.
      rewrite Comp_bind_assoc. apply Comp_bind_ext. by intros [] ?. }
    split; [by apply Heq|]. intros stdlib.
    rewrite !Heq by done. by rewrite lLinkBuiltinsStages_with_ISPCStdLib.
  - intros Hyes. unfold LinkStandardLibraries, lLinkStdlibStage. rewrite Hyes.
    do 4 (etrans; [apply Comp_bind_assoc|]; symmetry;
          etrans; [apply Comp_bind_assoc|]; symmetry;
          apply Comp_bind_ext; intros [] ?).
    rewrite Comp_bind_assoc. apply Comp_bind_ext. by intros [] ?.
Qed.
End StdlibOptional.

(** * Concrete runs *)

Section SampleRuns.
Import Sample.

(** C9 on the sample: the intrinsic [float llvm.x86.sse.sqrt.ss(float)] gets
    a symbol of type [uniform float (uniform float)]. *)
Lemma CreateISPCSymbolForLLVMIntrinsic_sample :
  LookupIntrinsics [] sqrt_ss = None ∧
  ∃ sym,
    CreateISPCSymbolForLLVMIntrinsic LLVMTypes LookupIntrinsics AddIntrinsics
      sqrt_ss [] = (Some sym, [sym], []) ∧
    sym_type sym =
      {| returnType := Atomic UniformFloat;
         paramTypes := [Atomic UniformFloat];
         ftPos := {| pos_name := "LLVM Intrinsic" |} |}.
Proof.
  split; [reflexivity|].
  destruct (CreateISPCSymbolForLLVMIntrinsic_adapts LLVMTypes LookupIntrinsics
              AddIntrinsics sqrt_ss [] eq_refl) as (_ & _ & Hall).
  eexists. split.
  - apply (Hall (Atomic UniformFloat) [Atomic UniformFloat]).
    + reflexivity.
    + repeat constructor.
  - reflexivity.
Defined.

(** C3 on the sample: the re-closure replaces the marker of [marked]. *)
Lemma lUpdateLLVMUsed_rebuilds_sample :
  GlobalList (lUpdateLLVMUsed marked (lNewLLVMUsed [ConstantExpr (GlobalRef "P")]) []) =
    [lNewLLVMUsed []].
Proof.
  destruct (lUpdateLLVMUsed_rebuilds PointerType_get persistentGroups
              persistentFuncs Int8PtrTy marked
              (lNewLLVMUsed [ConstantExpr (GlobalRef "P")]) [])
    as (Hglobals & _).
  - reflexivity.
  - compute_done.
  - exact Hglobals.
Defined.

(** C3, the anchor step on a module that has a marker: it erases nothing,
    the module holds two markers afterwards. *)
Lemma anchor_adds_second_marker :
  global_names marked = ["llvm.compiler.used"] ∧
  global_names (anchor marked) = ["llvm.compiler.used"; "llvm.compiler.used.1"] ∧
  length (markers (anchor marked)) = 2.
Proof. by vm_compute. Qed.



(** C6 on the sample. *)
Lemma lProtectPrune_twice_sample :
  ∃ M1, protectPrune with_persistent = Ok M1 ∧
  ∃ M2, protectPrune M1 = Ok M2 ∧ FunctionList M2 = FunctionList M1.
Proof.
  destruct (protectPrune with_persistent) as [M1|msg] eqn:Hrun.
  - exists M1. split; [reflexivity|].
    apply (lProtectPrune_twice_keeps_functions PointerType_get persistentGroups
             persistentFuncs Int8PtrTy with_persistent M1);
      [compute_done|exact Hrun|].
    vm_compute in Hrun. injection Hrun as <-.
    intros E HE. vm_compute in HE. injection HE as <-. discriminate.
  - vm_compute in Hrun. discriminate Hrun.
Defined.

(** C6, the second run changes the module: it leaves a second marker. *)
Lemma lProtectPrune_twice_differs :
  ∃ M1 M2, protectPrune with_persistent = Ok M1 ∧ protectPrune M1 = Ok M2 ∧
    M2 ≠ M1 ∧ FunctionList M2 = FunctionList M1 ∧
    global_names M1 = ["llvm.compiler.used"] ∧
    global_names M2 = ["llvm.compiler.used.1"; "llvm.compiler.used"].
Proof.
  eexists _, _. split_and!.
  - vm_compute. reflexivity.
  - vm_compute. reflexivity.
  - intros Heq. apply (f_equal global_names) in Heq. vm_compute in Heq.
    discriminate Heq.
  - reflexivity.
  - reflexivity.
  - reflexivity.
Qed.

(** C6, the marker left empty: the only user of the group is removed by
    the first prune, the re-closure finds no member used twice and rebuilds
    the marker without elements; the second run stops at the cast of its
    initializer. *)
Lemma lProtectPrune_second_run_aborts :
  ∃ M1, protectPrune dead_user = Ok M1 ∧
        function_names M1 = ["main"] ∧
        GlobalList M1 = [lNewLLVMUsed []] ∧
        protectPrune M1 =
          Fatal "cast<ConstantArray>() argument of incompatible type".
Proof. eexists. split_and!; [by vm_compute|reflexivity..]. Qed.


(** X20 on the sample: the declaration [z], without a use in the library,
    is declared in the target after the merge. *)
Lemma lAddBitcodeToModule_sample :
  ∃ F, F ∈ FunctionList (addBitcode false (Some library) target_module).1 ∧
       Name F = "z" ∧ FunctionTy F = fnty 7 [7] ∧ isDeclaration F = true.
Proof.
  destruct (lAddBitcodeToModule_keeps_unused_declarations lookupIntrinsicID
              false 170000%N isGenXIntrinsic GenXIntrinsic_getAttributes
              FixFunctionAttribute getProgramAddressSpace
              Intrinsic_getAttributes false library target_module
              (declare "z" (fnty 7 [7]))) as (_ & _ & Hnew).
  - compute_done.
  - compute_done.
  - reflexivity.
  - reflexivity.
  - apply Hnew. compute_done.
Defined.

(** C10 at the failing input.  The declaration [d] has a use in the
    library, in [g], so the loop leaves it to the linker ("Declarations
    with uses will be moved by Linker"); the target needs no definition of
    the library, the needed-only link moves nothing, and the target has no
    [d] after the merge. *)
Lemma lAddBitcodeToModule_drops_declaration :
  declare "d" (fnty 0 []) ∈ FunctionList library ∧
  wf_module library ∧
  getNumUses library (GlobalRef "d") = 1 ∧
  addBitcode false (Some library) target_module =
    (module_of [define "main" ExternalLinkage [];
                declare "z" (fnty 7 [7])] [], []).
Proof. split_and!; [compute_done|compute_done|by vm_compute..]. Qed.

(** C4 on the sample: the composition returns and the four libraries are in
    the store with their images. *)
Lemma compose_keeps_libraries_sample :
  ∃ st', compose (globals true) 1%positive 0 store = Ok (3%Z, st') ∧
         libs_unchanged store st' ∧
         heap st' !! 2%positive = Some (ObjBitcodeLib (Some stdlib_image)).
Proof.
  destruct (compose (globals true) 1%positive 0 store) as [[n st']|msg] eqn:Hrun.
  - assert (n = 3%Z) as -> by (vm_compute in Hrun; congruence).
    exists st'. split; [reflexivity|].
    destruct (link_stages_keep_libraries lookupIntrinsicID Intrinsic_getType
                PointerType_get false 170000%N isGenXIntrinsic
                GenXIntrinsic_getAttributes FixFunctionAttribute
                getProgramAddressSpace Intrinsic_getAttributes
                persistentGroups persistentFuncs Int8PtrTy
                (globals true) 1%positive 1%positive 0%Z)
      as (_ & _ & _ & _ & _ & Hkeep).
    pose proof (Hkeep store 3%Z st' Hrun) as Hlibs.
    split; [exact Hlibs|]. apply Hlibs. reflexivity.
  - vm_compute in Hrun. discriminate Hrun.
Defined.

(** C5 on the sample: without the standard library the composition is the
    anchor step and the builtins stages, and it returns. *)
Lemma compose_without_stdlib_sample :
  compose (globals false) 1%positive 0 store =
    (updateModule 1%positive anchor;;
     lLinkBuiltinsStages lookupIntrinsicID Intrinsic_getType PointerType_get
       false 170000%N isGenXIntrinsic GenXIntrinsic_getAttributes
       FixFunctionAttribute getProgramAddressSpace Intrinsic_getAttributes
       (globals false) 1%positive 0) store.
Proof.
  destruct (LinkStandardLibraries_stdlib_optional lookupIntrinsicID
              Intrinsic_getType PointerType_get false 170000%N isGenXIntrinsic
              GenXIntrinsic_getAttributes FixFunctionAttribute
              getProgramAddressSpace Intrinsic_getAttributes
              persistentGroups persistentFuncs Int8PtrTy
              (globals false) 1%positive 0%Z store) as [Hwithout _].
  destruct (Hwithout eq_refl) as [Heq _]. exact Heq.
Defined.

(** C2 at the failing input.  With opaque pointers the type of a function
    is the pointer type of its address space whatever its signature: the
    declaration of [llvm.x86.sse.sqrt.ss] with another signature than the
    backend's passes the check. *)
Lemma lCheckModuleIntrinsics_accepts_other_signature :
  declare "llvm.x86.sse.sqrt.ss" (fnty 4 [4; 4]) ∈ FunctionList other_signature ∧
  lookupIntrinsicID "llvm.x86.sse.sqrt.ss" = 1 ∧
  fnty 4 [4; 4] ≠ Intrinsic_getType 1 ∧
  lCheckModuleIntrinsics lookupIntrinsicID Intrinsic_getType
    OpaquePointerType_get other_signature = Ok tt.
Proof. split_and!; [compute_done|reflexivity|discriminate|reflexivity]. Qed.
End SampleRuns.

(** * Further properties of [builtins.cpp] *)

Section TypeTranslation.
Context {LType : Type} `{!EqDecision LType}.
Variable LLVMTypes : @LLVMTypesTable LType.

Local Abbreviation lLLVMTypeToISPCType := (lLLVMTypeToISPCType LLVMTypes).
Local Abbreviation lKnownLLVMTypes := (lKnownLLVMTypes LLVMTypes).

Lemma lLLVMTypeToISPCType_known t intAsUnsigned :
  t ∈ lKnownLLVMTypes → is_Some (lLLVMTypeToISPCType t intAsUnsigned).
Proof.
  intros Hin. unfold lLLVMTypeToISPCType, is_type.
  repeat (case_bool_decide; [by eexists|]).
  exfalso. unfold lKnownLLVMTypes in Hin.
  repeat (apply elem_of_cons in Hin as [->|Hin]; [done|]).
  by apply elem_of_nil in Hin.
Qed.

Lemma lLLVMTypeToISPCType_unknown t intAsUnsigned :
  t ∉ lKnownLLVMTypes → lLLVMTypeToISPCType t intAsUnsigned = None.
Proof.
  intros Hnot. unfold lLLVMTypeToISPCType, is_type.
  repeat (case_bool_decide as Heq;
          [exfalso; apply Hnot; rewrite Heq; unfold lKnownLLVMTypes;
           repeat first [apply list_elem_of_here | apply list_elem_of_further]|
           clear Heq]).
  done.
Qed.

(** X1. A type has an ispc counterpart exactly when it is one of the types
    of the table [LLVMTypes], whatever [intAsUnsigned] is: the flag chooses
    between the signed and the unsigned integer type and never decides
    whether there is a result. *)
Theorem lLLVMTypeToISPCType_representable t :
  (∀ intAsUnsigned,
     lLLVMTypeToISPCType t intAsUnsigned = None ↔ t ∉ lKnownLLVMTypes) ∧
  (lLLVMTypeToISPCType t true = None ↔ lLLVMTypeToISPCType t false = None).
Proof.
  assert (∀ b, lLLVMTypeToISPCType t b = None ↔ t ∉ lKnownLLVMTypes) as Hchar.
  { intros b. split.
    - intros Hnone Hin.
      destruct (lLLVMTypeToISPCType_known t b Hin) as [ty Hty]. congruence.
    - apply lLLVMTypeToISPCType_unknown. }
  split; [exact Hchar|]. by rewrite !Hchar.
Qed.

(** X2. The comparisons are made in a fixed order and the first one that
    holds decides.  A type that is [LLVMTypes::Int8PointerType] and none of
    the scalar, vector and mask types is translated to a uniform pointer to
    uniform int8, also when it is equal to other pointer types of the table
    (as all pointer types are once pointers are opaque); and the mask type
    is translated to varying bool only when it is none of the scalar and
    vector types. *)
Theorem lLLVMTypeToISPCType_first_match t intAsUnsigned :
  t ∉ [VoidType LLVMTypes; BoolType LLVMTypes; Int8Type LLVMTypes;
       Int16Type LLVMTypes; Int32Type LLVMTypes; Float16Type LLVMTypes;
       FloatType LLVMTypes; DoubleType LLVMTypes; Int64Type LLVMTypes;
       Int8VectorType LLVMTypes; Int16VectorType LLVMTypes;
       Int32VectorType LLVMTypes; Float16VectorType LLVMTypes;
       FloatVectorType LLVMTypes; DoubleVectorType LLVMTypes;
       Int64VectorType LLVMTypes] →
  (t = MaskType LLVMTypes →
   lLLVMTypeToISPCType t intAsUnsigned = Some (Atomic VaryingBool)) ∧
  (t ≠ MaskType LLVMTypes → t = Int8PointerType LLVMTypes →
   lLLVMTypeToISPCType t intAsUnsigned =
     Some (PointerType_GetUniform
             (Atomic (if intAsUnsigned then UniformUInt8 else UniformInt8)))).
Proof.
  intros Hnot.
  assert (∀ X, X ∈ [VoidType LLVMTypes; BoolType LLVMTypes; Int8Type LLVMTypes;
       Int16Type LLVMTypes; Int32Type LLVMTypes; Float16Type LLVMTypes;
       FloatType LLVMTypes; DoubleType LLVMTypes; Int64Type LLVMTypes;
       Int8VectorType LLVMTypes; Int16VectorType LLVMTypes;
       Int32VectorType LLVMTypes; Float16VectorType LLVMTypes;
       FloatVectorType LLVMTypes; DoubleVectorType LLVMTypes;
       Int64VectorType LLVMTypes] → t ≠ X) as Hne.
  { intros X HX ->. done. }
  unfold lLLVMTypeToISPCType, is_type.
  do 16 (rewrite bool_decide_eq_false_2;
         [|apply Hne; repeat first [apply list_elem_of_here
                                   | apply list_elem_of_further]]).
  split.
  - intros Hmask. by rewrite bool_decide_eq_true_2.
  - intros Hnomask Hptr. rewrite bool_decide_eq_false_2 by done.
    by rewrite bool_decide_eq_true_2.
Qed.
End TypeTranslation.

Section LinkageNormalisation.
Context {LType : Type} `{!EqDecision LType}.
Implicit Types (M module : @Module LType) (F : @Function LType)
  (G GV : @GlobalVariable).

Lemma setLinkage_Internal_twice F :
  setLinkage (setLinkage F InternalLinkage) InternalLinkage =
  setLinkage F InternalLinkage.
Proof. reflexivity. Qed.

Lemma with_functions_same M : with_functions M (FunctionList M) = M.
Proof. by destruct M. Qed.

(** X3. Demotions add up: demoting the names of one set and then those of
    another is demoting the names of their union, in either order; demoting
    a set twice is demoting it once, and the empty set changes nothing. *)
Theorem lSetAsInternal_union module (A B : gset string) :
  lSetAsInternal (lSetAsInternal module A) B = lSetAsInternal module (A ∪ B) ∧
  lSetAsInternal (lSetAsInternal module A) B =
    lSetAsInternal (lSetAsInternal module B) A ∧
  lSetAsInternal (lSetAsInternal module A) A = lSetAsInternal module A ∧
  lSetAsInternal module ∅ = module.
Proof.
  assert (∀ X Y : gset string,
    lSetAsInternal (lSetAsInternal module X) Y = lSetAsInternal module (X ∪ Y))
    as Hunion.
  { intros X Y. unfold lSetAsInternal, with_functions. simpl. f_equal.
    rewrite <- list_fmap_compose. apply list_fmap_ext. intros i F _. simpl.
    destruct (isDeclaration F) eqn:Hdecl; simpl.
    { by rewrite Hdecl. }
    assert (isDeclaration (setLinkage F InternalLinkage) = false) as Hdecl'.
    { exact Hdecl. }
    destruct (decide (Name F ∈ X)) as [HX|HX], (decide (Name F ∈ Y)) as [HY|HY].
    - rewrite (bool_decide_eq_true_2 (_ ∈ X)) by done.
      rewrite (bool_decide_eq_true_2 (_ ∈ X ∪ Y)) by (apply elem_of_union; by left).
      rewrite Hdecl'. simpl. by rewrite bool_decide_eq_true_2.
    - rewrite (bool_decide_eq_true_2 (_ ∈ X)) by done.
      rewrite (bool_decide_eq_true_2 (_ ∈ X ∪ Y)) by (apply elem_of_union; by left).
      rewrite Hdecl'. simpl. by rewrite bool_decide_eq_false_2.
    - rewrite (bool_decide_eq_false_2 (_ ∈ X)) by done.
      rewrite (bool_decide_eq_true_2 (_ ∈ X ∪ Y)) by (apply elem_of_union; by right).
      rewrite Hdecl. simpl. by rewrite bool_decide_eq_true_2.
    - rewrite (bool_decide_eq_false_2 (_ ∈ X)) by done.
      rewrite (bool_decide_eq_false_2 (_ ∈ X ∪ Y))
        by (intros [?|?]%elem_of_union; done).
      rewrite Hdecl. simpl. by rewrite bool_decide_eq_false_2. }
  split_and!.
  - apply Hunion.
  - rewrite !Hunion. f_equal. apply (comm_L (∪)).
  - rewrite Hunion. f_equal. apply union_idemp_L.
  - unfold lSetAsInternal.
    transitivity (with_functions module (FunctionList module));
      [|apply with_functions_same].
    f_equal. transitivity (id <$> FunctionList module); [|apply list_fmap_id].
    apply list_fmap_ext. intros i F _.
    rewrite bool_decide_eq_false_2 by apply not_elem_of_empty.
    by rewrite andb_false_r.
Qed.

(** *** The demotion of global variables *)

Lemma lSetFirstInternal_names name (gs : list (@GlobalVariable)) :
  GName <$> lSetFirstInternal name gs = GName <$> gs.
Proof.
  induction gs as [|GV gs IH]; [done|]. cbn [lSetFirstInternal].
  case_bool_decide; [done|]. rewrite !fmap_cons. by rewrite IH.
Qed.

Lemma lSetFirstInternal_absent name (gs : list (@GlobalVariable)) :
  name ∉ GName <$> gs → lSetFirstInternal name gs = gs.
Proof.
  induction gs as [|GV gs IH]; [done|]. cbn [lSetFirstInternal].
  rewrite fmap_cons. intros Hnot. apply not_elem_of_cons in Hnot as [Hne Hnot].
  rewrite bool_decide_eq_false_2 by done. by rewrite IH.
Qed.

Lemma lSetFirstInternal_lookup name (gs : list (@GlobalVariable)) i GV :
  gs !! i = Some GV →
  (lSetFirstInternal name gs !! i = Some GV) ∨
  (GName GV = name ∧
   lSetFirstInternal name gs !! i = Some (GsetLinkage GV InternalLinkage)).
Proof.
  revert i. induction gs as [|GV0 gs IH]; intros i; simpl; [done|].
  case_bool_decide as Hn.
  - destruct i as [|i]; simpl; [|by left]. intros [= ->]. by right.
  - destruct i as [|i]; simpl; [by left|]. apply IH.
Qed.

Lemma lSetFirstInternal_other name (gs : list (@GlobalVariable)) i GV :
  gs !! i = Some GV → GName GV ≠ name →
  lSetFirstInternal name gs !! i = Some GV.
Proof.
  intros Hi Hne. by destruct (lSetFirstInternal_lookup name gs i GV Hi) as [?|[? _]].
Qed.

(** With distinct names, the one variable of the name is demoted. *)
Lemma lSetFirstInternal_named name (gs : list (@GlobalVariable)) i GV :
  NoDup (GName <$> gs) → gs !! i = Some GV → GName GV = name →
  lSetFirstInternal name gs !! i = Some (GsetLinkage GV InternalLinkage).
Proof.
  revert i. induction gs as [|GV0 gs IH]; intros i; simpl; [done|].
  intros [Hnotin Hnd]%NoDup_cons Hi Hname. case_bool_decide as Hn.
  - destruct i as [|i]; simpl in *; [by injection Hi as ->|].
    exfalso. apply Hnotin. rewrite Hn, <- Hname.
    apply list_elem_of_fmap_2. by eapply list_elem_of_lookup_2.
  - destruct i as [|i]; simpl in *; [by injection Hi as ->|]. by apply IH.
Qed.

Lemma lSetFirstInternal_twice name (gs : list (@GlobalVariable)) :
  lSetFirstInternal name (lSetFirstInternal name gs) = lSetFirstInternal name gs.
Proof.
  induction gs as [|GV gs IH]; simpl; [done|].
  case_bool_decide as Hn; simpl.
  - by rewrite bool_decide_eq_true_2.
  - rewrite bool_decide_eq_false_2 by done. by rewrite IH.
Qed.

Lemma lSetFirstInternal_comm n1 n2 (gs : list (@GlobalVariable)) :
  lSetFirstInternal n1 (lSetFirstInternal n2 gs) =
  lSetFirstInternal n2 (lSetFirstInternal n1 gs).
Proof.
  destruct (decide (n1 = n2)) as [->|Hne]; [done|].
  induction gs as [|GV gs IH]; simpl; [done|].
  destruct (decide (GName GV = n1)) as [H1|H1], (decide (GName GV = n2)) as [H2|H2].
  - congruence.
  - rewrite (bool_decide_eq_false_2 (_ = n2)) by done. simpl.
    rewrite (bool_decide_eq_true_2 (_ = n1)) by done. simpl.
    by rewrite bool_decide_eq_false_2.
  - rewrite (bool_decide_eq_true_2 (_ = n2)) by done. simpl.
    rewrite (bool_decide_eq_false_2 (_ = n1)) by done. simpl.
    by rewrite bool_decide_eq_true_2.
  - rewrite (bool_decide_eq_false_2 (_ = n2)), (bool_decide_eq_false_2 (_ = n1))
      by done. simpl.
    rewrite (bool_decide_eq_false_2 (_ = n2)), (bool_decide_eq_false_2 (_ = n1))
      by done. by rewrite IH.
Qed.

Lemma lSetInternalLinkageGlobal_globals module name :
  lSetInternalLinkageGlobal module name =
  with_globals module (lSetFirstInternal name (GlobalList module)).
Proof.
  unfold lSetInternalLinkageGlobal.
  destruct (getNamedGlobal module name) eqn:Hget; [done|].
  apply getNamedGlobal_None in Hget.
  rewrite lSetFirstInternal_absent by done. by destruct module.
Qed.

Lemma lSetInternalLinkageGlobals_globals module :
  lSetInternalLinkageGlobals module =
  with_globals module
    (lSetFirstInternal "__memory_alignment"
       (lSetFirstInternal "__math_lib"
          (lSetFirstInternal "__fast_masked_vload" (GlobalList module)))).
Proof.
  unfold lSetInternalLinkageGlobals. by rewrite !lSetInternalLinkageGlobal_globals.
Qed.

(** X4. [lSetInternalLinkageGlobals] touches the linkage of the variables
    named [__fast_masked_vload], [__math_lib] and [__memory_alignment] and
    nothing else: functions, names and order of the variables stay; a
    variable of another name is unchanged; each variable is as it was or
    demoted to internal linkage; in a module whose variables have distinct
    names every variable of the three names ends internal; a name that the
    module does not have is passed over, and a second call changes
    nothing. *)
Theorem lSetInternalLinkageGlobals_effect module :
  let module' := lSetInternalLinkageGlobals module in
  let names := ["__fast_masked_vload"; "__math_lib"; "__memory_alignment"] in
  FunctionList module' = FunctionList module ∧
  global_names module' = global_names module ∧
  (∀ i GV, GlobalList module !! i = Some GV →
     ∃ GV', GlobalList module' !! i = Some GV' ∧
       (GV' = GV ∨ (GName GV ∈ names ∧ GV' = GsetLinkage GV InternalLinkage))) ∧
  (NoDup (global_names module) →
   ∀ GV', GV' ∈ GlobalList module' → GName GV' ∈ names →
     GLinkage GV' = InternalLinkage) ∧
  ((∀ name, name ∈ names → name ∉ global_names module) → module' = module) ∧
  lSetInternalLinkageGlobals module' = module'.
Proof.
  intros module' names. subst module'.
  rewrite !lSetInternalLinkageGlobals_globals. simpl.
  set (gs := GlobalList module).
  assert (∀ i GV, gs !! i = Some GV →
     ∃ GV', lSetFirstInternal "__memory_alignment"
              (lSetFirstInternal "__math_lib"
                 (lSetFirstInternal "__fast_masked_vload" gs)) !! i = Some GV' ∧
       (GV' = GV ∨ (GName GV ∈ names ∧ GV' = GsetLinkage GV InternalLinkage)))
    as Hlookup.
  { intros i GV Hi.
    destruct (lSetFirstInternal_lookup "__fast_masked_vload" gs i GV Hi)
      as [H1|[Hn1 H1]];
    destruct (lSetFirstInternal_lookup "__math_lib" _ i _ H1) as [H2|[Hn2 H2]];
    destruct (lSetFirstInternal_lookup "__memory_alignment" _ i _ H2)
      as [H3|[Hn3 H3]];
    eexists; (split; [exact H3|]); try (by left); right;
    (split; [|done]); subst names; simpl in *;
    rewrite ?Hn1, ?Hn2, ?Hn3, <- ?Hn1, <- ?Hn2, <- ?Hn3;
    repeat first [apply list_elem_of_here | apply list_elem_of_further]. }
  split_and!.
  - done.
  - unfold global_names. simpl. by rewrite !lSetFirstInternal_names.
  - exact Hlookup.
  - intros Hnd GV' [i Hi]%list_elem_of_lookup Hname.
    assert (is_Some (gs !! i)) as [GV HGV].
    { apply lookup_lt_is_Some.
      apply lookup_lt_Some in Hi.
      rewrite <- (length_fmap GName), !lSetFirstInternal_names, length_fmap in Hi.
      done. }
    assert (NoDup (GName <$> lSetFirstInternal "__fast_masked_vload" gs)) as Hnd1.
    { by rewrite lSetFirstInternal_names. }
    assert (NoDup (GName <$> lSetFirstInternal "__math_lib"
               (lSetFirstInternal "__fast_masked_vload" gs))) as Hnd2.
    { by rewrite !lSetFirstInternal_names. }
    destruct (lSetFirstInternal_lookup "__fast_masked_vload" gs i GV HGV)
      as [H1|[Hn1 H1]];
    destruct (lSetFirstInternal_lookup "__math_lib" _ i _ H1) as [H2|[Hn2 H2]];
    destruct (lSetFirstInternal_lookup "__memory_alignment" _ i _ H2)
      as [H3|[Hn3 H3]];
    rewrite H3 in Hi; injection Hi as <-; try done.
    subst names.
    apply elem_of_cons in Hname as [Hname|Hname].
    { pose proof (lSetFirstInternal_named _ _ _ _ Hnd HGV Hname) as Hd.
      pose proof (eq_trans (eq_sym Hd) H1) as Heq.
      injection Heq as Heq. by rewrite <- Heq. }
    apply elem_of_cons in Hname as [Hname|Hname].
    { pose proof (lSetFirstInternal_named _ _ _ _ Hnd1 H1 Hname) as Hd.
      pose proof (eq_trans (eq_sym Hd) H2) as Heq.
      injection Heq as Heq. by rewrite <- Heq. }
    apply elem_of_cons in Hname as [Hname|Hname]; [|by apply elem_of_nil in Hname].
    pose proof (lSetFirstInternal_named _ _ _ _ Hnd2 H2 Hname) as Hd.
    pose proof (eq_trans (eq_sym Hd) H3) as Heq.
      injection Heq as Heq. by rewrite <- Heq.
  - intros Habsent. unfold global_names in Habsent. fold gs in Habsent.
    rewrite (lSetFirstInternal_absent "__fast_masked_vload"),
      (lSetFirstInternal_absent "__math_lib"),
      (lSetFirstInternal_absent "__memory_alignment");
      try (apply Habsent; subst names;
           repeat first [apply list_elem_of_here | apply list_elem_of_further]).
    subst gs. by destruct module.
  - unfold with_globals. simpl. f_equal. fold gs.
    rewrite (lSetFirstInternal_comm "__fast_masked_vload" "__memory_alignment"
               (lSetFirstInternal "__math_lib"
                  (lSetFirstInternal "__fast_masked_vload" gs))).
    rewrite (lSetFirstInternal_comm "__fast_masked_vload" "__math_lib"
               (lSetFirstInternal "__fast_masked_vload" gs)).
    rewrite lSetFirstInternal_twice.
    rewrite (lSetFirstInternal_comm "__math_lib" "__memory_alignment"
               (lSetFirstInternal "__math_lib"
                  (lSetFirstInternal "__fast_masked_vload" gs))).
    by rewrite !lSetFirstInternal_twice.
Qed.
End LinkageNormalisation.

Section AttributesAndCheck.
Context {LType : Type} `{!EqDecision LType}.
Variable lookupIntrinsicID : string -> nat.
Variable Intrinsic_getType : nat -> @FnType LType.
Variable PointerType_get : @FnType LType -> nat -> LType.
Variable ISPC_XE_ENABLED : bool.
Variable ISPC_LLVM_VERSION : N.
Variable isGenXIntrinsic : @Function LType -> bool.
Variable GenXIntrinsic_getAttributes : @Function LType -> list string.
Variable FixFunctionAttribute : list string -> string -> string -> list string.
Implicit Types (M module : @Module LType) (F Fn : @Function LType).

Local Abbreviation lUpdateIntrinsicAttributes :=
  (lUpdateIntrinsicAttributes ISPC_LLVM_VERSION isGenXIntrinsic
     GenXIntrinsic_getAttributes FixFunctionAttribute).
Local Abbreviation lUpdateIntrinsicsAttributes :=
  (lUpdateIntrinsicsAttributes ISPC_XE_ENABLED ISPC_LLVM_VERSION isGenXIntrinsic
     GenXIntrinsic_getAttributes FixFunctionAttribute).
Local Abbreviation lCheckIntrinsic :=
  (lCheckIntrinsic lookupIntrinsicID Intrinsic_getType PointerType_get).
Local Abbreviation lCheckFunctions :=
  (lCheckFunctions lookupIntrinsicID Intrinsic_getType PointerType_get).
Local Abbreviation lCheckModuleIntrinsics :=
  (lCheckModuleIntrinsics lookupIntrinsicID Intrinsic_getType PointerType_get).

Lemma setAttributes_same F : setAttributes F (Attributes F) = F.
Proof. by destruct F. Qed.

Lemma setAttributes_twice F attrs attrs' :
  setAttributes (setAttributes F attrs) attrs' = setAttributes F attrs'.
Proof. reflexivity. Qed.

(** The loop body sets attributes and nothing else, and only for a GenX
    intrinsic whose name does not contain [prefetch]. *)
Lemma lUpdateIntrinsicAttributes_setAttributes Fn :
  ∃ attrs, lUpdateIntrinsicAttributes Fn = setAttributes Fn attrs ∧
    (str_contains "prefetch" (Name Fn) = true ∨ isGenXIntrinsic Fn = false →
     attrs = Attributes Fn).
Proof.
  unfold lUpdateIntrinsicAttributes.
  destruct (str_contains "prefetch" (Name Fn)) eqn:Hp.
  { exists (Attributes Fn). by rewrite setAttributes_same. }
  destruct (isGenXIntrinsic Fn) eqn:Hg.
  - case_bool_decide; eexists; (split; [reflexivity|]); by intros [?|?].
  - exists (Attributes Fn). by rewrite setAttributes_same.
Qed.

(** X5. [lUpdateIntrinsicsAttributes] changes attributes only: every
    function stays at its place with its name, type, linkage and body; a
    function whose name contains [prefetch] or that is no GenX intrinsic
    keeps its attributes too; without [ISPC_XE_ENABLED] the module is
    unchanged. *)
Theorem lUpdateIntrinsicsAttributes_attributes_only module :
  let module' := lUpdateIntrinsicsAttributes module in
  (∀ i Fn, FunctionList module !! i = Some Fn →
     ∃ attrs, FunctionList module' !! i = Some (setAttributes Fn attrs) ∧
       (ISPC_XE_ENABLED = false ∨ str_contains "prefetch" (Name Fn) = true ∨
        isGenXIntrinsic Fn = false → attrs = Attributes Fn)) ∧
  length (FunctionList module') = length (FunctionList module) ∧
  GlobalList module' = GlobalList module ∧
  NamedMDList module' = NamedMDList module ∧
  TargetTriple module' = TargetTriple module ∧
  DataLayout module' = DataLayout module ∧
  (ISPC_XE_ENABLED = false → module' = module).
Proof.
  unfold lUpdateIntrinsicsAttributes. destruct ISPC_XE_ENABLED; simpl.
  - split_and!; try done.
    + intros i Fn Hi. rewrite list_lookup_fmap, Hi. simpl.
      destruct (lUpdateIntrinsicAttributes_setAttributes Fn) as (attrs & -> & Hsame).
      exists attrs. split; [done|]. intros [?|H]; [done|]. by apply Hsame.
    + by rewrite length_fmap.
  - split_and!; try done.
    intros i Fn Hi. exists (Attributes Fn). by rewrite setAttributes_same.
Qed.

(** *** What the signature check looks at *)

Lemma lCheckIntrinsic_ext F F' :
  Name F' = Name F → FunctionTy F' = FunctionTy F →
  AddressSpace F' = AddressSpace F →
  lCheckIntrinsic F' = lCheckIntrinsic F.
Proof.
  intros Hn Ht Ha.
  unfold lCheckIntrinsic, getIntrinsicID, getType, isIntrinsic.
  by rewrite Hn, Ht, Ha.
Qed.

Lemma lCheckFunctions_fmap (g : @Function LType → @Function LType) fs :
  (∀ F, lCheckIntrinsic (g F) = lCheckIntrinsic F) →
  lCheckFunctions (g <$> fs) = lCheckFunctions fs.
Proof.
  intros Hg. induction fs as [|F fs IH]; [done|].
  rewrite fmap_cons. simpl. by rewrite Hg, IH.
Qed.

(** X6. The signature check looks at names and types only: demoting
    functions or global variables and updating attributes do not change its
    verdict, so it may run before or after them. *)
Theorem lCheckModuleIntrinsics_independent module (functions : gset string) :
  lCheckModuleIntrinsics (lSetAsInternal module functions) =
    lCheckModuleIntrinsics module ∧
  lCheckModuleIntrinsics (lSetInternalLinkageGlobals module) =
    lCheckModuleIntrinsics module ∧
  lCheckModuleIntrinsics (lUpdateIntrinsicsAttributes module) =
    lCheckModuleIntrinsics module.
Proof.
  unfold lCheckModuleIntrinsics. split_and!.
  - unfold lSetAsInternal. simpl. apply lCheckFunctions_fmap. intros F.
    destruct (_ && _); [|done]. by apply lCheckIntrinsic_ext.
  - by rewrite lSetInternalLinkageGlobals_globals.
  - unfold lUpdateIntrinsicsAttributes. destruct ISPC_XE_ENABLED; [|done].
    simpl. apply lCheckFunctions_fmap. intros F.
    destruct (lUpdateIntrinsicAttributes_setAttributes F) as (attrs & -> & _).
    by apply lCheckIntrinsic_ext.
Qed.
End AttributesAndCheck.

Section Declarations.
Context {LType : Type} `{!EqDecision LType}.
Variable lookupIntrinsicID : string -> nat.
Variable ISPC_XE_ENABLED : bool.
Variable ISPC_LLVM_VERSION : N.
Variable isGenXIntrinsic : @Function LType -> bool.
Variable GenXIntrinsic_getAttributes : @Function LType -> list string.
Variable FixFunctionAttribute : list string -> string -> string -> list string.
Variable getProgramAddressSpace : string -> nat.
Variable Intrinsic_getAttributes : nat -> list string.
Implicit Types (M module bcModule : @Module LType) (F f : @Function LType).

Local Abbreviation newDeclaration :=
  (newDeclaration lookupIntrinsicID getProgramAddressSpace Intrinsic_getAttributes).
Local Abbreviation getOrInsertFunction :=
  (getOrInsertFunction lookupIntrinsicID getProgramAddressSpace Intrinsic_getAttributes).
Local Abbreviation lUpdateIntrinsicsAttributes :=
  (lUpdateIntrinsicsAttributes ISPC_XE_ENABLED ISPC_LLVM_VERSION isGenXIntrinsic
     GenXIntrinsic_getAttributes FixFunctionAttribute).
Local Abbreviation lAddDeclarationsToModule :=
  (lAddDeclarationsToModule lookupIntrinsicID ISPC_XE_ENABLED ISPC_LLVM_VERSION
     isGenXIntrinsic GenXIntrinsic_getAttributes FixFunctionAttribute
     getProgramAddressSpace Intrinsic_getAttributes).

Local Abbreviation lDeclare :=
  (lDeclareFunction lookupIntrinsicID getProgramAddressSpace
     Intrinsic_getAttributes).

Lemma newDeclaration_fields M name ty attrs :
  Name (newDeclaration M name ty attrs) = name ∧
  FunctionTy (newDeclaration M name ty attrs) = ty ∧
  Linkage (newDeclaration M name ty attrs) = ExternalLinkage ∧
  isDeclaration (newDeclaration M name ty attrs) = true.
Proof. unfold newDeclaration. by destruct (isIntrinsic _). Qed.

Lemma lDeclare_cases M f :
  (Name f ∈ symbol_names M ∧ lDeclare M f = M) ∨
  ((Name f ∉ symbol_names M) ∧
   lDeclare M f =
     with_functions M
       (FunctionList M ++
        [newDeclaration M (Name f) (FunctionTy f) (Attributes f)])).
Proof.
  unfold lDeclareFunction. destruct (getFunction M (Name f)) as [F|] eqn:Hget.
  - left. split; [|done]. unfold symbol_names. apply elem_of_app. left.
    apply getFunction_is_Some. by exists F.
  - unfold getOrInsertFunction. case_bool_decide; [by left|by right].
Qed.

(** What the loop as a whole does to the target. *)
Lemma foldl_lDeclare fs M :
  let M' := foldl lDeclare M fs in
  (∃ added, FunctionList M' = FunctionList M ++ added ∧
     ∀ F, F ∈ added →
       isDeclaration F = true ∧ Linkage F = ExternalLinkage ∧
       (Name F ∉ symbol_names M) ∧
       ∃ f, f ∈ fs ∧ Name F = Name f ∧ FunctionTy F = FunctionTy f) ∧
  GlobalList M' = GlobalList M ∧ NamedMDList M' = NamedMDList M ∧
  TargetTriple M' = TargetTriple M ∧ DataLayout M' = DataLayout M ∧
  (∀ f, f ∈ fs → Name f ∈ symbol_names M') ∧
  (wf_module M → wf_module M').
Proof.
  revert M. induction fs as [|f fs IH]; intros M; simpl.
  - split_and!; try done.
    + exists []. split; [by rewrite app_nil_r|]. by intros F ?%elem_of_nil.
    + by intros f ?%elem_of_nil.
  - specialize (IH (lDeclare M f)).
    destruct IH as ((added & Hfs & Hadded) & Hgl & Hmd & Htt & Hdl & Hall & Hwf).
    assert (∀ n, n ∈ symbol_names (lDeclare M f) →
                 n ∈ symbol_names (foldl lDeclare (lDeclare M f) fs)) as Hgrow.
    { intros n. unfold symbol_names, function_names, global_names.
      rewrite Hfs, Hgl, fmap_app, !elem_of_app.
      intros [?|?]; [left; by left|by right]. }
    destruct (lDeclare_cases M f) as [[Hin Heq]|[Hnotin Heq]];
      rewrite Heq in Hfs, Hadded, Hgl, Hmd, Htt, Hdl, Hall, Hwf, Hgrow;
      rewrite Heq.
    + split_and!; try done.
      * exists added. split; [done|]. intros F HF.
        destruct (Hadded F HF) as (? & ? & ? & f' & ? & ? & ?).
        split_and!; try done. exists f'. split; [by right|done].
      * intros f' [->|Hf']%elem_of_cons; [by apply Hgrow|by apply Hall].
    + simpl in Hfs, Hadded, Hgl, Hmd, Htt, Hdl.
      assert (∀ n, n ∈ symbol_names M →
        n ∈ symbol_names (with_functions M (FunctionList M ++
          [newDeclaration M (Name f) (FunctionTy f) (Attributes f)]))) as Hsub.
      { intros n. unfold symbol_names, function_names, global_names. simpl.
        rewrite fmap_app, !elem_of_app.
        intros [?|?]; [left; by left|by right]. }
      destruct (newDeclaration_fields M (Name f) (FunctionTy f) (Attributes f))
        as (Hn & Hty & Hl & Hd).
      split_and!; try done.
      * exists (newDeclaration M (Name f) (FunctionTy f) (Attributes f) :: added).
        split; [by rewrite Hfs, <- app_assoc|].
        intros F [->|HF]%elem_of_cons.
        -- split_and!; try done; [by rewrite Hn|].
           exists f. split; [by left|done].
        -- destruct (Hadded F HF) as (? & ? & Hno & f' & ? & ? & ?).
           split_and!; try done; [by intros ?%Hsub|].
           exists f'. split; [by right|done].
      * intros f' [->|Hf']%elem_of_cons; [|by apply Hall].
        apply Hgrow. unfold symbol_names, function_names. simpl.
        rewrite fmap_app, !elem_of_app. left. right.
        apply list_elem_of_singleton. by rewrite Hn.
      * intros HwfM. apply Hwf. unfold wf_module, symbol_names in *.
        unfold function_names, global_names in *. simpl.
        rewrite fmap_app. simpl. rewrite Hn.
        apply NoDup_app in HwfM as (Hf1 & Hdisj & Hg1).
        apply NoDup_app. split_and!.
        -- apply NoDup_app. split_and!; [done| |apply NoDup_singleton].
           intros x Hx ->%list_elem_of_singleton. apply Hnotin.
           apply elem_of_app. by left.
        -- intros x [Hx|Hx%list_elem_of_singleton]%elem_of_app; [by apply Hdisj|].
           subst x. intros Hg. apply Hnotin. apply elem_of_app. by right.
        -- done.
Qed.

(** X7. [lAddDeclarationsToModule] on a library module: the library gets
    the triple of the compilation unit's module and the data layout of the
    target; the target keeps its functions, in place and unchanged, and is
    given, after them, external declarations with the library's function
    types for names it did not have; its global variables, metadata, triple
    and layout stay.  Afterwards every function name of the library is in
    the target's symbol table, and distinct names stay distinct.  A null
    library module is reported and nothing changes. *)
Theorem lAddDeclarationsToModule_declares isXeTarget m_module bcModule module :
  let result := lAddDeclarationsToModule isXeTarget m_module (Some bcModule) module in
  let module' := result.1.2 in
  result.2 = [] ∧
  (∃ bc, result.1.1 = Some bc ∧
     TargetTriple bc = TargetTriple m_module ∧
     DataLayout bc = DataLayout module ∧
     function_names bc = function_names bcModule ∧
     GlobalList bc = GlobalList bcModule) ∧
  (∃ added, FunctionList module' = FunctionList module ++ added ∧
     ∀ F, F ∈ added →
       isDeclaration F = true ∧ Linkage F = ExternalLinkage ∧
       (Name F ∉ symbol_names module) ∧
       ∃ f, f ∈ FunctionList bcModule ∧ Name F = Name f ∧
            FunctionTy F = FunctionTy f) ∧
  GlobalList module' = GlobalList module ∧
  NamedMDList module' = NamedMDList module ∧
  TargetTriple module' = TargetTriple module ∧
  DataLayout module' = DataLayout module ∧
  (∀ f, f ∈ FunctionList bcModule → Name f ∈ symbol_names module') ∧
  (wf_module module → wf_module module') ∧
  lAddDeclarationsToModule isXeTarget m_module None module =
    (None, module, ["Error library module is nullptr"]).
Proof.
  unfold lAddDeclarationsToModule. cbn zeta.
  set (bc0 := setDataLayout (setTargetTriple bcModule (TargetTriple m_module))
                (DataLayout module)).
  set (bc := if isXeTarget then lUpdateIntrinsicsAttributes bc0 else bc0).
  cbn [fst snd].
  assert (function_names bc = function_names bcModule ∧
          GlobalList bc = GlobalList bcModule ∧
          TargetTriple bc = TargetTriple m_module ∧
          DataLayout bc = DataLayout module ∧
          ∀ f', f' ∈ FunctionList bc →
            ∃ f, f ∈ FunctionList bcModule ∧ Name f' = Name f ∧
                 FunctionTy f' = FunctionTy f) as (Hnames & Hgl & Htt & Hdl & Hfs).
  { subst bc. destruct isXeTarget; [|by eauto 10].
    unfold lUpdateIntrinsicsAttributes. destruct ISPC_XE_ENABLED; [|by eauto 10].
    unfold function_names. simpl. split_and!; try done.
    - rewrite <- list_fmap_compose. apply list_fmap_ext. intros i F _. simpl.
      by destruct (lUpdateIntrinsicAttributes_fields ISPC_LLVM_VERSION
                     isGenXIntrinsic GenXIntrinsic_getAttributes
                     FixFunctionAttribute F).
    - intros f' (f & -> & Hf)%list_elem_of_fmap. exists f. split; [done|].
      split.
      + by destruct (lUpdateIntrinsicAttributes_fields ISPC_LLVM_VERSION
                       isGenXIntrinsic GenXIntrinsic_getAttributes
                       FixFunctionAttribute f).
      + apply lUpdateIntrinsicAttributes_FunctionTy. }
  change (foldl _ module (FunctionList bc))
    with (foldl lDeclare module (FunctionList bc)).
  destruct (foldl_lDeclare (FunctionList bc) module)
    as ((added & Hadd & Hadded) & Hg' & Hmd' & Htt' & Hdl' & Hall & Hwf).
  split_and!; try done.
  - by exists bc.
  - exists added. split; [done|]. intros F HF.
    destruct (Hadded F HF) as (? & ? & ? & f' & Hf' & Hn' & Ht').
    split_and!; try done.
    destruct (Hfs f' Hf') as (f & ? & ? & ?). exists f.
    split_and!; [done|congruence|congruence].
  - intros f Hf.
    assert (Name f ∈ function_names bc) as Hin.
    { rewrite Hnames. by apply list_elem_of_fmap_2. }
    apply list_elem_of_fmap in Hin as (f' & -> & Hf'). by apply Hall.
Qed.
End Declarations.

Section MarkerElements.
Context {LType : Type} `{!EqDecision LType}.
Variable PointerType_get : @FnType LType -> nat -> LType.
Variable persistentGroups : list (PersistentGroup * list string).
Variable persistentFuncs : list (string * Z).
Variable Int8PtrTy : LType.
Implicit Types (M : @Module LType) (C : Constant).

Local Abbreviation lFuncAsConstInt8Ptr := (lFuncAsConstInt8Ptr PointerType_get Int8PtrTy).
Local Abbreviation lPersistentConstPtrs :=
  (lPersistentConstPtrs PointerType_get persistentGroups persistentFuncs Int8PtrTy).
Local Abbreviation lCollectPreservedFunctions :=
  (lCollectPreservedFunctions PointerType_get persistentGroups persistentFuncs Int8PtrTy).

End MarkerElements.

Section PruneSafety.
Context {LType : Type} `{!EqDecision LType}.
Variable PointerType_get : @FnType LType -> nat -> LType.
Variable persistentGroups : list (PersistentGroup * list string).
Variable persistentFuncs : list (string * Z).
Variable Int8PtrTy : LType.
Implicit Types (M : @Module LType) (F : @Function LType) (G : @GlobalVariable).

Local Abbreviation lFuncAsConstInt8Ptr := (lFuncAsConstInt8Ptr PointerType_get Int8PtrTy).
Local Abbreviation lPersistentConstPtrs :=
  (lPersistentConstPtrs PointerType_get persistentGroups persistentFuncs Int8PtrTy).
Local Abbreviation lAddPersistentToLLVMUsed :=
  (lAddPersistentToLLVMUsed PointerType_get persistentGroups persistentFuncs Int8PtrTy).
Local Abbreviation lCollectPreservedFunctions :=
  (lCollectPreservedFunctions PointerType_get persistentGroups persistentFuncs Int8PtrTy).
Local Abbreviation lRemoveUnusedPersistentFunctions :=
  (lRemoveUnusedPersistentFunctions PointerType_get persistentGroups persistentFuncs Int8PtrTy).
Local Abbreviation lProtectPrune :=
  (lProtectPrune PointerType_get persistentGroups persistentFuncs Int8PtrTy).

(** X9. The protect-prune sequence only removes, and removes nothing that
    is live.  On a module without a value named [llvm.compiler.used] the
    sequence returns; every function of the result is a function of the
    module, unchanged; and every function and every global variable of the
    module that dead-code elimination would keep (one reachable from a
    definition that may not be discarded) is in the result. *)
Theorem lProtectPrune_keeps_live M :
  "llvm.compiler.used" ∉ symbol_names M →
  ∃ M', lProtectPrune M = Ok M' ∧
    (∀ F, F ∈ FunctionList M' → F ∈ FunctionList M) ∧
    (∀ F, F ∈ FunctionList M → live M (Name F) → F ∈ FunctionList M') ∧
    (∀ G, G ∈ GlobalList M → live M (GName G) → G ∈ GlobalList M').
Proof.
  intros Hfree.
  destruct (lProtectPrune_returns PointerType_get persistentGroups
              persistentFuncs Int8PtrTy M Hfree) as [M' HM'].
  exists M'. split; [done|]. unfold lProtectPrune in HM'.
  set (Ma := lAddPersistentToLLVMUsed M) in *.
  assert (FunctionList Ma = FunctionList M) as HfsA
    by apply lAddPersistentToLLVMUsed_functions.
  assert (∀ G, G ∈ GlobalList M → G ∈ GlobalList Ma) as HgsA.
  { intros G HG. subst Ma.
    destruct (anchor_cases PointerType_get persistentGroups persistentFuncs
                Int8PtrTy M) as [[_ ->]|(_ & G' & -> & _)]; [done|].
    apply elem_of_app. by left. }
  assert (∀ n, live M n → live Ma n) as HliveA.
  { intros n. apply live_mono; [by rewrite HfsA|done]. }
  set (M1 := lRemoveUnused Ma) in *.
  assert (∀ F, F ∈ FunctionList M → live M (Name F) → F ∈ FunctionList M1) as HF1.
  { intros F HF Hl. apply elem_of_GlobalDCEPass_functions. rewrite HfsA. auto. }
  assert (∀ G, G ∈ GlobalList M → live M (GName G) → G ∈ GlobalList M1) as HG1.
  { intros G HG Hl. apply elem_of_GlobalDCEPass_globals. auto. }
  split_and!.
  - intros F HF.
    apply (lRemoveUnusedPersistentFunctions_subset _ _ _ _ _ _ _ HM') in HF.
    apply elem_of_GlobalDCEPass_functions in HF as [HF _]. by rewrite <- HfsA.
  - intros F HF Hl.
    apply lRemoveUnusedPersistentFunctions_Ok in HM'
      as [[_ ->]|(llvmUsed & used & Hget & _ & ->)]; [by apply HF1|].
    set (M2 := lUpdateLLVMUsed M1 llvmUsed _).
    apply elem_of_GlobalDCEPass_functions. split.
    + subst M2. rewrite lUpdateLLVMUsed_functions. by apply HF1.
    + apply (live_transfer M); [| |done].
      * intros F' HF' Hl'. subst M2. rewrite lUpdateLLVMUsed_functions. by apply HF1.
      * intros G HG Hl'. subst M2.
        destruct (lUpdateLLVMUsed_globals M1 llvmUsed
          (lCollectPreservedFunctions M1 []
             (lFindUsedPersistentGroups persistentGroups M1 used ∅)))
          as (G' & -> & _).
        apply elem_of_app. left. apply list_elem_of_filter. split; [|by apply HG1].
        apply getNamedGlobal_Some' in Hget as [_ ->].
        intros Hn. apply Hfree. unfold symbol_names. apply elem_of_app. right.
        apply elem_of_global_names. by exists G.
  - intros G HG Hl.
    apply lRemoveUnusedPersistentFunctions_Ok in HM'
      as [[_ ->]|(llvmUsed & used & Hget & _ & ->)]; [by apply HG1|].
    set (M2 := lUpdateLLVMUsed M1 llvmUsed _).
    assert (∀ G0, G0 ∈ GlobalList M → live M (GName G0) → G0 ∈ GlobalList M2) as HG2.
    { intros G0 HG0 Hl0. subst M2.
      destruct (lUpdateLLVMUsed_globals M1 llvmUsed
        (lCollectPreservedFunctions M1 []
           (lFindUsedPersistentGroups persistentGroups M1 used ∅)))
        as (G' & -> & _).
      apply elem_of_app. left. apply list_elem_of_filter. split; [|by apply HG1].
      apply getNamedGlobal_Some' in Hget as [_ ->].
      intros Hn. apply Hfree. unfold symbol_names. apply elem_of_app. right.
      apply elem_of_global_names. by exists G0. }
    apply elem_of_GlobalDCEPass_globals. split; [by apply HG2|].
    apply (live_transfer M); [|exact HG2|done].
    intros F' HF' Hl'. subst M2. rewrite lUpdateLLVMUsed_functions. by apply HF1.
Qed.

(** X10. Persistent functions are kept individually: a function of the
    table [persistentFuncs] that the module has is in the module after the
    first prune and after the whole sequence, whether or not anything uses
    it. *)
Theorem persistent_functions_survive M M' name val :
  (name, val) ∈ persistentFuncs → name ∈ function_names M →
  lProtectPrune M = Ok M' →
  name ∈ function_names (lRemoveUnused (lAddPersistentToLLVMUsed M)) ∧
  name ∈ function_names M'.
Proof.
  intros Hp Hin HM'. unfold lProtectPrune in HM'.
  set (Ma := lAddPersistentToLLVMUsed M) in *.
  assert (name ∈ function_names (lRemoveUnused Ma)) as H1.
  { destruct (lFuncAsConstInt8Ptr_present PointerType_get Int8PtrTy M name Hin)
      as [c Hc].
    assert (c ∈ lPersistentConstPtrs M) as Hcin.
    { apply elem_of_lPersistentConstPtrs. right. eauto. }
    apply lFuncAsConstInt8Ptr_Some in Hc as (_ & _ & Hstrip).
    subst Ma.
    destruct (anchor_cases PointerType_get persistentGroups persistentFuncs
                Int8PtrTy M) as [[Hnil _]|(_ & G' & Hgl & Hinit & Hlink & _)].
    { rewrite Hnil in Hcin. by apply elem_of_nil in Hcin. }
    apply (marker_keeps _ G').
    - rewrite Hgl. apply elem_of_app. right. by apply list_elem_of_singleton.
    - by rewrite Hinit.
    - done.
    - exists c. unfold global_operands. by rewrite Hinit.
    - unfold function_names. by rewrite lAddPersistentToLLVMUsed_functions. }
  split; [done|].
  set (M1 := lRemoveUnused Ma) in *.
  apply lRemoveUnusedPersistentFunctions_Ok in HM'
    as [[_ ->]|(llvmUsed & used & Hget & _ & ->)]; [done|].
  destruct (lFuncAsConstInt8Ptr_present PointerType_get Int8PtrTy M1 name H1)
    as [c Hc].
  set (newElements := lCollectPreservedFunctions M1 [] _).
  assert (c ∈ newElements) as Hcin.
  { apply elem_of_lCollectPreservedFunctions. right. right. eauto. }
  apply lFuncAsConstInt8Ptr_Some in Hc as (_ & _ & Hstrip).
  destruct (lUpdateLLVMUsed_globals M1 llvmUsed newElements)
    as (G' & Hgl & Hinit & Hlink).
  apply (marker_keeps _ G').
  - rewrite Hgl. apply elem_of_app. right. by apply list_elem_of_singleton.
  - by rewrite Hinit.
  - done.
  - exists c. unfold global_operands. by rewrite Hinit.
  - unfold function_names. by rewrite lUpdateLLVMUsed_functions.
Qed.
End PruneSafety.

Section Runs.
Context {LType : Type} `{!EqDecision LType}.
Implicit Types (st : @State LType) (M : @Module LType).

(** *** Runs that return *)

Lemma Comp_bind_Ok {A B} (c : Comp A) (f : A → Comp (LType:=LType) B) st b st' :
  (c ≫= f) st = Ok (b, st') →
  ∃ a s1, c st = Ok (a, s1) ∧ f a s1 = Ok (b, st').
Proof.
  unfold mbind, Comp_bind. destruct (c st) as [[a s1]|]; [|done]. eauto.
Qed.

Lemma Comp_ret_Ok {A} (a b : A) st st' :
  mret (M:=Comp (LType:=LType)) a st = Ok (b, st') → b = a ∧ st' = st.
Proof. by intros [= <- <-]. Qed.

Lemma readModule_Ok p M st st' :
  readModule p st = Ok (M, st') →
  st' = st ∧ heap st !! p = Some (ObjModule M).
Proof.
  unfold readModule. destruct (heap st !! p) as [[M0|?]|]; [|done..].
  by intros [= <- <-].
Qed.

Lemma writeModule_Ok p M st u st' :
  writeModule p M st = Ok (u, st') →
  is_Some (heap st !! p) ∧
  heap st' = <[p := ObjModule M]> (heap st) ∧
  errors st' = errors st ∧ dumped st' = dumped st.
Proof.
  unfold writeModule. destruct (heap st !! p) as [[M0|?]|]; [|done..].
  intros [= _ <-]. by eauto.
Qed.

Lemma updateModule_Ok p (f : @Module LType → @Module LType) st u st' :
  updateModule p f st = Ok (u, st') →
  ∃ M, heap st !! p = Some (ObjModule M) ∧
       heap st' = <[p := ObjModule (f M)]> (heap st) ∧
       errors st' = errors st ∧ dumped st' = dumped st.
Proof.
  unfold updateModule. intros (M & s1 & Hr & Hw)%Comp_bind_Ok.
  apply readModule_Ok in Hr as [-> Hr]. apply writeModule_Ok in Hw as (_ & ? & ? & ?).
  eauto.
Qed.

Lemma checkModule_Ok p (f : @Module LType → Result unit) st u st' :
  checkModule p f st = Ok (u, st') →
  st' = st ∧ ∃ M, heap st !! p = Some (ObjModule M) ∧ f M = Ok tt.
Proof.
  unfold checkModule. intros (M & s1 & Hr & Hc)%Comp_bind_Ok.
  apply readModule_Ok in Hr as [-> Hr]. destruct (f M) as [[]|] eqn:Hf; [|done].
  apply Comp_ret_Ok in Hc as [_ ->]. eauto.
Qed.

Lemma report_Ok msgs st u st' :
  report msgs st = Ok (u, st') →
  heap st' = heap st ∧ errors st' = errors st ++ msgs ∧ dumped st' = dumped st.
Proof. by intros [= _ <-]. Qed.

(** X11. [debugDumpModule] is selected by the two stage sets, and
    [off_stages] wins: for a stage that is switched off or is not a debug
    stage the call returns at once, whatever the pointer is.  A call that
    returns leaves the store as it was and has either printed the module at
    the pointer (to the standard output unless a dump directory is set),
    or reported at most one error and printed nothing.  When the dump
    directory does not exist and cannot be created, or the file cannot be
    opened, the error is reported and the call returns without reading the
    module; a selected stage with a module at the pointer is printed to
    the standard output, or to the file of its name in the dump directory
    when that opens; the file system never makes the call abort. *)
Theorem debugDumpModule_selected g module name stage st :
  let file :=
    path_append (dumpFilePath g)
      (let name := "pre_" +:+ pretty stage +:+ "_" +:+ name +:+ ".ll" in
       if isMultiTargetCompilation g
       then name +:+ "_" +:+ GetISAString (target g) else name) in
  let selected := (stage ∉ off_stages g) ∧ stage ∈ debug_stages g in
  let to_file := dumpFile g = true ∧ dumpFilePath g ≠ "" in
  (¬ selected → debugDumpModule g module name stage st = Ok (tt, st)) ∧
  (∀ st', debugDumpModule g module name stage st = Ok (tt, st') →
     heap st' = heap st ∧
     ((dumped st' = dumped st ∧
       (errors st' = errors st ∨ ∃ msg, errors st' = errors st ++ [msg])) ∨
      (errors st' = errors st ∧
       ∃ dest M, heap st !! module = Some (ObjModule M) ∧
         dumped st' = dumped st ++ [(dest, M)] ∧
         (dest = None ↔ ¬ to_file)))) ∧
  (selected → to_file →
   ∀ message,
     (dumpFilePath g ∉ fs_paths (files st)) →
     fs_create_directories (files st) (dumpFilePath g) = Some message →
     debugDumpModule g module name stage st =
       Ok (tt, {| heap := heap st;
                  errors := errors st ++
                    ["Error creating directory '" +:+ dumpFilePath g +:+ "': "
                     +:+ message];
                  dumped := dumped st; files := files st |})) ∧
  (selected → to_file →
   ∀ message,
     dumpFilePath g ∈ fs_paths (files st) →
     fs_open (files st) file = Some message →
     debugDumpModule g module name stage st =
       Ok (tt, {| heap := heap st;
                  errors := errors st ++
                    ["Error opening file '" +:+ file +:+ "': " +:+ message];
                  dumped := dumped st; files := files st |})) ∧
  (selected → ¬ to_file →
   ∀ M, heap st !! module = Some (ObjModule M) →
     debugDumpModule g module name stage st =
       Ok (tt, {| heap := heap st; errors := errors st;
                  dumped := dumped st ++ [(None, M)]; files := files st |})) ∧
  (selected → to_file →
   ∀ M, heap st !! module = Some (ObjModule M) →
     dumpFilePath g ∈ fs_paths (files st) →
     fs_open (files st) file = None →
     debugDumpModule g module name stage st =
       Ok (tt, {| heap := heap st; errors := errors st;
                  dumped := dumped st ++ [(Some file, M)];
                  files := with_path (files st) file |})) ∧
  (∀ M, heap st !! module = Some (ObjModule M) →
        ∃ st', debugDumpModule g module name stage st = Ok (tt, st')).
Proof.
  intros file selected to_file. unfold debugDumpModule.
  fold file. split_and!.
  - intros Hoff.
    assert (bool_decide (stage ∉ off_stages g) &&
            bool_decide (stage ∈ debug_stages g) = false) as ->; [|done].
    apply andb_false_iff.
    destruct (decide (stage ∉ off_stages g)) as [H1|H1];
      [|left; by apply bool_decide_eq_false_2].
    right. apply bool_decide_eq_false_2. intros H2. by apply Hoff.
  - intros st'. destruct (negb _); [intros [= <-]; split; [done|left; auto]|].
    destruct (dumpFile g && negb (bool_decide (dumpFilePath g = ""))) eqn:Hmode.
    + apply andb_true_iff in Hmode as [Hd Hp].
      apply negb_true_iff, bool_decide_eq_false in Hp.
      intros (found & s1 & [= <- <-] & Hrest)%Comp_bind_Ok.
      apply Comp_bind_Ok in Hrest as (EC & s2 & Hcreate & Hrest).
      assert (heap s2 = heap st ∧ errors s2 = errors st ∧ dumped s2 = dumped st)
        as (Hh2 & He2 & Hd2).
      { case_bool_decide.
        - by injection Hcreate as <- <-.
        - unfold sys_fs_create_directories in Hcreate.
          destruct (fs_create_directories _ _); by injection Hcreate as <- <-. }
      destruct EC as [message|].
      { apply report_Ok in Hrest as (Hh & He & Hdd). split; [congruence|].
        left. split; [congruence|]. right. eexists. by rewrite He, He2. }
      apply Comp_bind_Ok in Hrest as (EC & s3 & Hopen & Hrest).
      assert (heap s3 = heap s2 ∧ errors s3 = errors s2 ∧ dumped s3 = dumped s2)
        as (Hh3 & He3 & Hd3).
      { unfold raw_fd_ostream in Hopen.
        destruct (fs_open _ _); by injection Hopen as <- <-. }
      destruct EC as [message|].
      { apply report_Ok in Hrest as (Hh & He & Hdd). split; [congruence|].
        left. split; [congruence|]. right. eexists. by rewrite He, He3, He2. }
      apply Comp_bind_Ok in Hrest as (M & s4 & Hr & Hprint).
      apply readModule_Ok in Hr as [-> Hr]. injection Hprint as <-. simpl.
      split; [congruence|]. right. split; [congruence|].
      exists (Some file), M. split_and!; [congruence|congruence|].
      split; [done|]. intros Hno. exfalso. by apply Hno.
    + intros (M & s1 & Hr & Hprint)%Comp_bind_Ok.
      apply readModule_Ok in Hr as [-> Hr]. injection Hprint as <-. simpl.
      split; [done|]. right. split; [done|].
      exists None, M. split_and!; [done|done|].
      split; [|done]. intros _ [Hd Hp]. rewrite Hd in Hmode. simpl in Hmode.
      apply negb_false_iff, bool_decide_eq_true in Hmode. done.
  - intros [H1 H2] [Hd Hp] message Hmissing Hcreate.
    rewrite (bool_decide_eq_true_2 _ H1), (bool_decide_eq_true_2 _ H2), Hd.
    rewrite (bool_decide_eq_false_2 _ Hp). simpl.
    unfold mbind, Comp_bind, sys_fs_exists.
    rewrite (bool_decide_eq_false_2 _ Hmissing).
    unfold sys_fs_create_directories. by rewrite Hcreate.
  - intros [H1 H2] [Hd Hp] message Hthere Hopen.
    rewrite (bool_decide_eq_true_2 _ H1), (bool_decide_eq_true_2 _ H2), Hd.
    rewrite (bool_decide_eq_false_2 _ Hp). simpl.
    unfold mbind, Comp_bind, sys_fs_exists.
    rewrite (bool_decide_eq_true_2 _ Hthere). simpl.
    unfold raw_fd_ostream. by rewrite Hopen.
  - intros [H1 H2] Hstdout M Hmod.
    rewrite (bool_decide_eq_true_2 _ H1), (bool_decide_eq_true_2 _ H2). simpl.
    assert (dumpFile g && negb (bool_decide (dumpFilePath g = "")) = false) as ->.
    { destruct (dumpFile g) eqn:Hd; [|done]. simpl.
      apply negb_false_iff, bool_decide_eq_true.
      destruct (decide (dumpFilePath g = "")) as [|Hp]; [done|].
      exfalso. by apply Hstdout. }
    unfold mbind, Comp_bind, readModule. by rewrite Hmod.
  - intros [H1 H2] [Hd Hp] M Hmod Hthere Hopen.
    rewrite (bool_decide_eq_true_2 _ H1), (bool_decide_eq_true_2 _ H2), Hd.
    rewrite (bool_decide_eq_false_2 _ Hp). simpl.
    unfold mbind, Comp_bind, sys_fs_exists.
    rewrite (bool_decide_eq_true_2 _ Hthere). simpl.
    unfold raw_fd_ostream. rewrite Hopen. unfold readModule. simpl.
    by rewrite Hmod.
  - intros M Hmod. destruct (negb _); [by eexists|].
    assert (∀ s dest, heap s = heap st →
              ∃ st', (M0 ← readModule module; printModule dest M0) s = Ok (tt, st'))
      as Hprint.
    { intros s dest Hs. unfold mbind, Comp_bind, readModule. rewrite Hs, Hmod.
      by eexists. }
    destruct (dumpFile g && negb (bool_decide (dumpFilePath g = "")));
      [|by apply Hprint].
    unfold mbind at 1, Comp_bind at 1, sys_fs_exists.
    case_bool_decide.
    + unfold mbind at 1, Comp_bind at 1. simpl.
      unfold mbind at 1, Comp_bind at 1, raw_fd_ostream.
      destruct (fs_open _ _); [by eexists|]. by apply Hprint.
    + unfold mbind at 1, Comp_bind at 1, sys_fs_create_directories.
      destruct (fs_create_directories _ _); [by eexists|].
      unfold mbind at 1, Comp_bind at 1, raw_fd_ostream. simpl.
      destruct (fs_open _ _); [by eexists|]. by apply Hprint.
Qed.
End Runs.

Section StageResults.
Context {LType : Type} `{!EqDecision LType}.
Variable lookupIntrinsicID : string -> nat.
Variable Intrinsic_getType : nat -> @FnType LType.
Variable PointerType_get : @FnType LType -> nat -> LType.
Variable ISPC_XE_ENABLED : bool.
Variable ISPC_LLVM_VERSION : N.
Variable isGenXIntrinsic : @Function LType -> bool.
Variable GenXIntrinsic_getAttributes : @Function LType -> list string.
Variable FixFunctionAttribute : list string -> string -> string -> list string.
Variable getProgramAddressSpace : string -> nat.
Variable Intrinsic_getAttributes : nat -> list string.
Variable persistentGroups : list (PersistentGroup * list string).
Variable persistentFuncs : list (string * Z).
Variable Int8PtrTy : LType.
Implicit Types (st : @State LType) (M bc image : @Module LType)
  (F : @Function LType).

Local Abbreviation lAddBitcodeToModule :=
  (lAddBitcodeToModule lookupIntrinsicID ISPC_XE_ENABLED ISPC_LLVM_VERSION
     isGenXIntrinsic GenXIntrinsic_getAttributes FixFunctionAttribute
     getProgramAddressSpace Intrinsic_getAttributes).
Local Abbreviation lAddBitcodeToModule_at :=
  (lAddBitcodeToModule_at lookupIntrinsicID ISPC_XE_ENABLED ISPC_LLVM_VERSION
     isGenXIntrinsic GenXIntrinsic_getAttributes FixFunctionAttribute
     getProgramAddressSpace Intrinsic_getAttributes).
Local Abbreviation lAddDeclarationsToModule_at :=
  (lAddDeclarationsToModule_at lookupIntrinsicID ISPC_XE_ENABLED ISPC_LLVM_VERSION
     isGenXIntrinsic GenXIntrinsic_getAttributes FixFunctionAttribute
     getProgramAddressSpace Intrinsic_getAttributes).
Local Abbreviation LinkDispatcher :=
  (LinkDispatcher lookupIntrinsicID ISPC_XE_ENABLED ISPC_LLVM_VERSION
     isGenXIntrinsic GenXIntrinsic_getAttributes FixFunctionAttribute
     getProgramAddressSpace Intrinsic_getAttributes).
Local Abbreviation lLinkCommonBuiltins :=
  (lLinkCommonBuiltins lookupIntrinsicID ISPC_XE_ENABLED ISPC_LLVM_VERSION
     isGenXIntrinsic GenXIntrinsic_getAttributes FixFunctionAttribute
     getProgramAddressSpace Intrinsic_getAttributes).
Local Abbreviation lLinkTargetBuiltins :=
  (lLinkTargetBuiltins lookupIntrinsicID ISPC_XE_ENABLED ISPC_LLVM_VERSION
     isGenXIntrinsic GenXIntrinsic_getAttributes FixFunctionAttribute
     getProgramAddressSpace Intrinsic_getAttributes).
Local Abbreviation lLinkStdlib :=
  (lLinkStdlib lookupIntrinsicID ISPC_XE_ENABLED ISPC_LLVM_VERSION
     isGenXIntrinsic GenXIntrinsic_getAttributes FixFunctionAttribute
     getProgramAddressSpace Intrinsic_getAttributes).
Local Abbreviation LinkStandardLibraries :=
  (LinkStandardLibraries lookupIntrinsicID Intrinsic_getType PointerType_get
     ISPC_XE_ENABLED ISPC_LLVM_VERSION isGenXIntrinsic
     GenXIntrinsic_getAttributes FixFunctionAttribute getProgramAddressSpace
     Intrinsic_getAttributes persistentGroups persistentFuncs Int8PtrTy).
Local Abbreviation lCheckModuleIntrinsics :=
  (lCheckModuleIntrinsics lookupIntrinsicID Intrinsic_getType PointerType_get).

Lemma Assert_ptr_Ok {A} (p : option A) what st a st' :
  Assert_ptr (LType:=LType) p what st = Ok (a, st') → p = Some a ∧ st' = st.
Proof. destruct p; [|done]. by intros [= <- <-]. Qed.

Lemma deref_Ok p st a st' :
  deref (LType:=LType) p st = Ok (a, st') → p = Some a ∧ st' = st.
Proof. destruct p; [|done]. by intros [= <- <-]. Qed.

Lemma getLLVMModule_Ok lib st r st' :
  getLLVMModule lib st = Ok (r, st') →
  (r = None ∧ st' = st ∧ heap st !! lib = Some (ObjBitcodeLib None)) ∨
  (∃ p image, r = Some p ∧ heap st !! lib = Some (ObjBitcodeLib (Some image)) ∧
     heap st !! p = None ∧
     heap st' = <[p := ObjModule image]> (heap st) ∧
     errors st' = errors st ∧ dumped st' = dumped st).
Proof.
  unfold getLLVMModule.
  destruct (heap st !! lib) as [[?|[image|]]|] eqn:Hlib; [done| | |done].
  - intros [= <- <-]. right. eexists _, image. split_and!; try done.
    apply not_elem_of_dom. apply is_fresh.
  - intros [= <- <-]. by left.
Qed.

Lemma lSetAsInternal_internal M (functions : gset string) F :
  F ∈ FunctionList (lSetAsInternal M functions) →
  isDeclaration F = false → Name F ∈ functions → Linkage F = InternalLinkage.
Proof.
  unfold lSetAsInternal. simpl. intros (F0 & -> & HF0)%list_elem_of_fmap.
  destruct (isDeclaration F0) eqn:Hd; simpl.
  - by rewrite Hd.
  - case_bool_decide; [done|]. by intros _ ?.
Qed.

(** The last step of a link stage: the demotion of a set of names in the
    target. *)
Lemma demotion_Ok module (functions : gset string) st st' :
  updateModule module (fun M => lSetAsInternal M functions) st = Ok (tt, st') →
  ∃ M', heap st' !! module = Some (ObjModule M') ∧
    ∀ F, F ∈ FunctionList M' → isDeclaration F = false → Name F ∈ functions →
      Linkage F = InternalLinkage.
Proof.
  intros (M & HM & Hheap & _)%updateModule_Ok.
  exists (lSetAsInternal M functions). split.
  - rewrite Hheap. apply lookup_insert_eq.
  - intros F. apply lSetAsInternal_internal.
Qed.

(** X12. Each link stage ends by demoting the names of its library: when the
    stage returns, no definition of the target with one of these names is
    visible outside the module.  For the common builtins the names are
    [__do_print] and [__num_cores]; for the target builtins, the function
    names of the library (definitions and declarations) outside [llvm.];
    for the standard library, all function names of the library, after the
    renaming of a multi-target compilation. *)
Theorem link_stages_demote g module st st' :
  (lLinkCommonBuiltins g module st = Ok (tt, st') →
   ∃ M', heap st' !! module = Some (ObjModule M') ∧
     ∀ F, F ∈ FunctionList M' → isDeclaration F = false →
       Name F = "__do_print" ∨ Name F = "__num_cores" →
       Linkage F = InternalLinkage) ∧
  (lLinkTargetBuiltins g module st = Ok (tt, st') →
   ∃ lib image M',
     getISPCTargetLib (target_registry g) (getISPCTarget (target g))
       (target_os g) (getArch (target g)) = Some lib ∧
     heap st !! lib = Some (ObjBitcodeLib (Some image)) ∧
     heap st' !! module = Some (ObjModule M') ∧
     ∀ F, F ∈ FunctionList M' → isDeclaration F = false →
       Name F ∈ function_names image → lStartsWithLLVM (Name F) = false →
       Linkage F = InternalLinkage) ∧
  (lLinkStdlib g module st = Ok (tt, st') →
   ∃ lib image M',
     getISPCStdLib (target_registry g) (getISPCTarget (target g))
       (target_os g) (getArch (target g)) = Some lib ∧
     heap st !! lib = Some (ObjBitcodeLib (Some image)) ∧
     heap st' !! module = Some (ObjModule M') ∧
     ∀ F, F ∈ FunctionList M' → isDeclaration F = false →
       Name F ∈ function_names
                  (if isMultiTargetCompilation g
                   then lAddTargetSuffix (GetTargetSuffix (target g)) image
                   else image) →
       Linkage F = InternalLinkage).
Proof.
  split_and!.
  - unfold lLinkCommonBuiltins.
    intros (lib & s1 & _ & H)%Comp_bind_Ok.
    apply Comp_bind_Ok in H as (r & s2 & _ & H).
    apply Comp_bind_Ok in H as ([] & s3 & _ & H).
    apply demotion_Ok in H as (M' & HM' & Hint). exists M'. split; [done|].
    intros F HF Hd Hn. apply Hint; [done|done|].
    destruct Hn as [->| ->]; apply elem_of_union; [left|right];
      by apply elem_of_singleton.
  - unfold lLinkTargetBuiltins.
    intros (lib & s1 & [Hreg ->]%Assert_ptr_Ok & H)%Comp_bind_Ok.
    apply Comp_bind_Ok in H as (r & s2 & Hget & H).
    apply Comp_bind_Ok in H as (p & s3 & [-> ->]%deref_Ok & H).
    apply getLLVMModule_Ok in Hget
      as [(? & _)|(p' & image & [= <-] & Hlib & Hfresh & Hheap & _)]; [done|].
    apply Comp_bind_Ok in H as (bc & s4 & [-> Hbc]%readModule_Ok & H).
    rewrite Hheap, lookup_insert_eq in Hbc. injection Hbc as <-.
    apply Comp_bind_Ok in H as ([] & s5 & _ & H).
    apply Comp_bind_Ok in H as ([] & s6 & _ & H).
    apply demotion_Ok in H as (M' & HM' & Hint).
    exists lib, image, M'. split_and!; try done.
    intros F HF Hd Hn Hllvm. apply Hint; [done|done|].
    apply elem_of_list_to_set, list_elem_of_filter. split; [|done].
    by rewrite Hllvm.
  - unfold lLinkStdlib.
    intros (lib & s1 & [Hreg ->]%Assert_ptr_Ok & H)%Comp_bind_Ok.
    apply Comp_bind_Ok in H as (r & s2 & Hget & H).
    apply Comp_bind_Ok in H as (p & s3 & [-> ->]%deref_Ok & H).
    apply getLLVMModule_Ok in Hget
      as [(? & _)|(p' & image & [= <-] & Hlib & Hfresh & Hheap & _)]; [done|].
    apply Comp_bind_Ok in H as ([] & s4 & Hren & H).
    apply Comp_bind_Ok in H as (bc & s5 & [-> Hbc]%readModule_Ok & H).
    apply Comp_bind_Ok in H as ([] & s6 & _ & H).
    apply demotion_Ok in H as (M' & HM' & Hint).
    exists lib, image, M'. split_and!; try done.
    intros F HF Hd Hn. apply Hint; [done|done|].
    apply elem_of_list_to_set.
    destruct (isMultiTargetCompilation g).
    + apply updateModule_Ok in Hren as (M0 & HM0 & Hheap4 & _).
      rewrite Hheap, lookup_insert_eq in HM0. injection HM0 as <-.
      rewrite Hheap4, lookup_insert_eq in Hbc. by injection Hbc as <-.
    + apply Comp_ret_Ok in Hren as [_ ->].
      rewrite Hheap, lookup_insert_eq in Hbc. by injection Hbc as <-.
Qed.

(** X13. When [LinkStandardLibraries] returns, [debug_num] has advanced by
    one for each stage that ran (three with the standard library, two
    without), and the target pointer holds a module that went through the
    demotion of the global variables and passes the intrinsic check. *)
Theorem LinkStandardLibraries_returns g module debug_num st n st' :
  LinkStandardLibraries g module debug_num st = Ok (n, st') →
  n = (debug_num + (if includeStdlib g then 3 else 2))%Z ∧
  ∃ M, heap st' !! module = Some (ObjModule (lSetInternalLinkageGlobals M)) ∧
       lCheckModuleIntrinsics (lSetInternalLinkageGlobals M) = Ok tt.
Proof.
  unfold LinkStandardLibraries.
  intros (d & s1 & Hfirst & H)%Comp_bind_Ok.
  assert (d = (debug_num + (if includeStdlib g then 1 else 0))%Z) as ->.
  { destruct (includeStdlib g).
    - repeat (apply Comp_bind_Ok in Hfirst as ([] & ? & _ & Hfirst)).
      by apply Comp_ret_Ok in Hfirst as [-> _].
    - apply Comp_bind_Ok in Hfirst as ([] & ? & _ & Hfirst).
      apply Comp_ret_Ok in Hfirst as [-> _]. lia. }
  do 6 (apply Comp_bind_Ok in H as ([] & ? & _ & H)).
  apply Comp_bind_Ok in H as ([] & s8 & Hdemote & H).
  apply Comp_bind_Ok in H as ([] & s9 & Hcheck & H).
  apply Comp_ret_Ok in H as [-> ->].
  split; [destruct (includeStdlib g); lia|].
  apply updateModule_Ok in Hdemote as (M & _ & Hheap & _).
  apply checkModule_Ok in Hcheck as (-> & M' & HM' & Hok).
  rewrite Hheap, lookup_insert_eq in HM'. injection HM' as <-.
  exists M. split; [|done]. rewrite Hheap. apply lookup_insert_eq.
Qed.

(** X14. A library whose module is null is a reported error, not an abort,
    where the code tests the pointer: [LinkDispatcher] reports it twice
    (once for the declarations, once for the bitcode) and leaves the store
    as it was, and [lLinkCommonBuiltins] reports it once and goes on to the
    demotion in the target. *)
Theorem null_library_module_is_reported g m module lib st :
  heap st !! lib = Some (ObjBitcodeLib None) →
  (getDispatchLib (target_registry g) (target_os g) = Some lib →
   LinkDispatcher g m module st =
     Ok (tt, {| heap := heap st;
                errors := (errors st ++ ["Error library module is nullptr"])
                          ++ ["Error library module is nullptr"];
                dumped := dumped st; files := files st |})) ∧
  (getBuiltinsCLib (target_registry g) (target_os g) (getArch (target g))
     = Some lib →
   ∀ M, heap st !! module = Some (ObjModule M) →
   lLinkCommonBuiltins g module st =
     Ok (tt, {| heap := <[module :=
                   ObjModule (lSetAsInternal M {[ "__do_print"; "__num_cores" ]})]>
                  (heap st);
                errors := errors st ++ ["Error library module is nullptr"];
                dumped := dumped st; files := files st |})).
Proof.
  intros Hlib. split.
  - intros Hreg. unfold LinkDispatcher. rewrite Hreg.
    unfold mbind, Comp_bind. simpl. unfold getLLVMModule. by rewrite Hlib.
  - intros Hreg M HM. unfold lLinkCommonBuiltins. rewrite Hreg.
    unfold mbind, Comp_bind. simpl. unfold getLLVMModule. rewrite Hlib. simpl.
    unfold updateModule, mbind, Comp_bind, readModule, writeModule.
    cbn [heap errors dumped]. rewrite HM. cbn [heap errors dumped].
    by rewrite HM.
Qed.
End StageResults.

Section Ownership.
Context {LType : Type} `{!EqDecision LType}.
Implicit Types (st : @State LType).

Lemma keeps_ret {A} (a : A) : keeps_objects (LType:=LType) (mret a).
Proof. by intros st a' st' [= _ <-]. Qed.

Lemma keeps_abort {A} msg : keeps_objects (LType:=LType) (abort (A:=A) msg).
Proof. by intros st a st'. Qed.

Lemma keeps_bind {A B} (c : Comp A) (f : A → Comp (LType:=LType) B) :
  keeps_objects c → (∀ a, keeps_objects (f a)) → keeps_objects (c ≫= f).
Proof.
  intros Hc Hf st b st' (a & s1 & H1 & H2)%Comp_bind_Ok.
  rewrite (Hf _ _ _ _ H2). by apply (Hc _ _ _ H1).
Qed.

Lemma keeps_Assert_ptr {A} (p : option A) what :
  keeps_objects (LType:=LType) (Assert_ptr p what).
Proof. destruct p; [apply keeps_ret|apply keeps_abort]. Qed.

Lemma keeps_deref p : keeps_objects (LType:=LType) (deref p).
Proof. destruct p; [apply keeps_ret|apply keeps_abort]. Qed.

Lemma keeps_readModule p : keeps_objects (LType:=LType) (readModule p).
Proof. by intros st M st' [-> _]%readModule_Ok. Qed.

(** Writing through a pointer needs an object there: none is added. *)
Lemma keeps_writeModule p (M : Module) :
  keeps_objects (LType:=LType) (writeModule p M).
Proof.
  intros st u st' ([x Hp] & -> & _)%writeModule_Ok.
  rewrite dom_insert_L. apply subseteq_union_1_L.
  apply singleton_subseteq_l. by apply elem_of_dom.
Qed.

Lemma keeps_report msgs : keeps_objects (LType:=LType) (report msgs).
Proof. by intros st u st' (-> & _)%report_Ok. Qed.

Lemma keeps_printModule dest (M : Module) :
  keeps_objects (LType:=LType) (printModule dest M).
Proof. by intros st [] st' [= <-]. Qed.

Lemma keeps_updateModule p (f : Module → Module) :
  keeps_objects (LType:=LType) (updateModule p f).
Proof.
  apply keeps_bind; [apply keeps_readModule|]. intros M. apply keeps_writeModule.
Qed.

Lemma keeps_tryUpdateModule p (f : Module → Result Module) :
  keeps_objects (LType:=LType) (tryUpdateModule p f).
Proof.
  apply keeps_bind; [apply keeps_readModule|].
  intros M. destruct (f M); [apply keeps_writeModule|apply keeps_abort].
Qed.

Lemma keeps_checkModule p (f : Module → Result unit) :
  keeps_objects (LType:=LType) (checkModule p f).
Proof.
  apply keeps_bind; [apply keeps_readModule|].
  intros M. destruct (f M); [apply keeps_ret|apply keeps_abort].
Qed.

Lemma keeps_sys_fs_exists path :
  keeps_objects (LType:=LType) (sys_fs_exists path).
Proof. by intros st b st' [= _ <-]. Qed.

Lemma keeps_sys_fs_create_directories path :
  keeps_objects (LType:=LType) (sys_fs_create_directories path).
Proof.
  intros st EC st'. unfold sys_fs_create_directories.
  by destruct (fs_create_directories _ _); intros [= _ <-].
Qed.

Lemma keeps_raw_fd_ostream path :
  keeps_objects (LType:=LType) (raw_fd_ostream path).
Proof.
  intros st EC st'. unfold raw_fd_ostream.
  by destruct (fs_open _ _); intros [= _ <-].
Qed.

Lemma keeps_debugDumpModule g module name stage :
  keeps_objects (LType:=LType) (debugDumpModule g module name stage).
Proof.
  unfold debugDumpModule. destruct (negb _); [apply keeps_ret|].
  destruct (_ && _).
  - apply keeps_bind; [apply keeps_sys_fs_exists|]. intros found.
    apply keeps_bind.
    { destruct found; [apply keeps_ret|apply keeps_sys_fs_create_directories]. }
    intros [message|]; [apply keeps_report|].
    apply keeps_bind; [apply keeps_raw_fd_ostream|].
    intros [message|]; [apply keeps_report|].
    apply keeps_bind; [apply keeps_readModule|].
    intros M. apply keeps_printModule.
  - apply keeps_bind; [apply keeps_readModule|].
    intros M. apply keeps_printModule.
Qed.

(** The module behind the pointer is destroyed. *)
Lemma frees_deleteModule p : frees_object (LType:=LType) p (deleteModule p).
Proof.
  intros st [] st'. unfold deleteModule.
  destruct (heap st !! p) as [[M0|?]|]; [|done..].
  intros [= <-]. simpl. apply dom_delete_L.
Qed.

Lemma frees_after {A B} p (c : Comp A) (f : A → Comp (LType:=LType) B) :
  keeps_objects c → (∀ a, frees_object p (f a)) → frees_object p (c ≫= f).
Proof.
  intros Hc Hf st b st' (a & s1 & H1 & H2)%Comp_bind_Ok.
  rewrite (Hf _ _ _ _ H2). by rewrite (Hc _ _ _ H1).
Qed.

Lemma frees_before {A B} p (c : Comp A) (f : A → Comp (LType:=LType) B) :
  frees_object p c → (∀ a, keeps_objects (f a)) → frees_object p (c ≫= f).
Proof.
  intros Hc Hf st b st' (a & s1 & H1 & H2)%Comp_bind_Ok.
  rewrite (Hf _ _ _ _ H2). by apply (Hc _ _ _ H1).
Qed.

(** A library module that is made and then destroyed leaves the store with
    the objects it had. *)
Lemma keeps_getLLVMModule {B} lib (rest : option loc → Comp (LType:=LType) B) :
  keeps_objects (rest None) →
  (∀ p, frees_object p (rest (Some p))) →
  keeps_objects (getLLVMModule lib ≫= rest).
Proof.
  intros Hnone Hsome st b st' (r & s1 & Hget & Hrest)%Comp_bind_Ok.
  apply getLLVMModule_Ok in Hget
    as [(-> & -> & _)|(p & image & -> & _ & Hfresh & Hheap & _)].
  - by apply (Hnone _ _ _ Hrest).
  - rewrite (Hsome _ _ _ _ Hrest), Hheap, dom_insert_L.
    apply not_elem_of_dom in Hfresh.
    rewrite difference_union_distr_l_L, difference_diag_L, (left_id_L ∅ (∪)).
    apply difference_disjoint_L. by apply disjoint_singleton_r.
Qed.
End Ownership.

Create HintDb objects.
#[export] Hint Resolve keeps_ret keeps_abort keeps_Assert_ptr keeps_deref
  keeps_readModule keeps_writeModule keeps_report keeps_printModule
  keeps_updateModule keeps_tryUpdateModule keeps_checkModule
  keeps_debugDumpModule frees_deleteModule : objects.

(** Along a computation: the objects are kept by each step, or one step
    destroys the object and the steps around it keep the others. *)
Ltac keeps_step :=
  match goal with
  | |- keeps_objects (mbind _ (getLLVMModule _)) => fail 1
  | |- keeps_objects (mbind _ _) => apply keeps_bind; [|intros ?]
  | |- keeps_objects (let '(_, _) := ?x in _) => destruct x
  | |- keeps_objects (match ?x with _ => _ end) => destruct x
  | |- keeps_objects (from_option _ _ ?x) => destruct x; simpl
  | |- keeps_objects _ => solve [eauto with objects]
  end.
Ltac keeps := repeat keeps_step.

Ltac frees_step :=
  match goal with
  | |- frees_object _ (let '(_, _) := ?x in _) => destruct x
  | |- frees_object _ (mbind _ _) =>
      first [ apply frees_after; [solve [keeps]|intros ?]
            | apply frees_before; [|intros ?; solve [keeps]] ]
  | |- frees_object _ _ => solve [eauto with objects]
  end.
Ltac frees := repeat frees_step.

Section StageOwnership.
Context {LType : Type} `{!EqDecision LType}.
Variable lookupIntrinsicID : string -> nat.
Variable Intrinsic_getType : nat -> @FnType LType.
Variable PointerType_get : @FnType LType -> nat -> LType.
Variable ISPC_XE_ENABLED : bool.
Variable ISPC_LLVM_VERSION : N.
Variable isGenXIntrinsic : @Function LType -> bool.
Variable GenXIntrinsic_getAttributes : @Function LType -> list string.
Variable FixFunctionAttribute : list string -> string -> string -> list string.
Variable getProgramAddressSpace : string -> nat.
Variable Intrinsic_getAttributes : nat -> list string.
Variable persistentGroups : list (PersistentGroup * list string).
Variable persistentFuncs : list (string * Z).
Variable Int8PtrTy : LType.

Local Abbreviation lAddBitcodeToModule_at :=
  (lAddBitcodeToModule_at lookupIntrinsicID ISPC_XE_ENABLED ISPC_LLVM_VERSION
     isGenXIntrinsic GenXIntrinsic_getAttributes FixFunctionAttribute
     getProgramAddressSpace Intrinsic_getAttributes).
Local Abbreviation lAddDeclarationsToModule_at :=
  (lAddDeclarationsToModule_at lookupIntrinsicID ISPC_XE_ENABLED ISPC_LLVM_VERSION
     isGenXIntrinsic GenXIntrinsic_getAttributes FixFunctionAttribute
     getProgramAddressSpace Intrinsic_getAttributes).
Local Abbreviation LinkDispatcher :=
  (LinkDispatcher lookupIntrinsicID ISPC_XE_ENABLED ISPC_LLVM_VERSION
     isGenXIntrinsic GenXIntrinsic_getAttributes FixFunctionAttribute
     getProgramAddressSpace Intrinsic_getAttributes).
Local Abbreviation lLinkCommonBuiltins :=
  (lLinkCommonBuiltins lookupIntrinsicID ISPC_XE_ENABLED ISPC_LLVM_VERSION
     isGenXIntrinsic GenXIntrinsic_getAttributes FixFunctionAttribute
     getProgramAddressSpace Intrinsic_getAttributes).
Local Abbreviation lLinkTargetBuiltins :=
  (lLinkTargetBuiltins lookupIntrinsicID ISPC_XE_ENABLED ISPC_LLVM_VERSION
     isGenXIntrinsic GenXIntrinsic_getAttributes FixFunctionAttribute
     getProgramAddressSpace Intrinsic_getAttributes).
Local Abbreviation lLinkStdlib :=
  (lLinkStdlib lookupIntrinsicID ISPC_XE_ENABLED ISPC_LLVM_VERSION
     isGenXIntrinsic GenXIntrinsic_getAttributes FixFunctionAttribute
     getProgramAddressSpace Intrinsic_getAttributes).
Local Abbreviation LinkStandardLibraries :=
  (LinkStandardLibraries lookupIntrinsicID Intrinsic_getType PointerType_get
     ISPC_XE_ENABLED ISPC_LLVM_VERSION isGenXIntrinsic
     GenXIntrinsic_getAttributes FixFunctionAttribute getProgramAddressSpace
     Intrinsic_getAttributes persistentGroups persistentFuncs Int8PtrTy).

(** The linker consumes the library module it is given. *)
Lemma frees_lAddBitcodeToModule_at g p module :
  frees_object p (lAddBitcodeToModule_at g (Some p) module).
Proof. unfold lAddBitcodeToModule_at. frees. Qed.

Lemma keeps_lAddBitcodeToModule_at_null g module :
  keeps_objects (lAddBitcodeToModule_at g None module).
Proof. unfold lAddBitcodeToModule_at. keeps. Qed.

Lemma keeps_lAddDeclarationsToModule_at g m bcModule module :
  keeps_objects (lAddDeclarationsToModule_at g m bcModule module).
Proof. unfold lAddDeclarationsToModule_at. keeps. Qed.

Lemma keeps_lLinkCommonBuiltins g module :
  keeps_objects (lLinkCommonBuiltins g module).
Proof.
  pose proof frees_lAddBitcodeToModule_at.
  pose proof keeps_lAddBitcodeToModule_at_null.
  unfold lLinkCommonBuiltins. apply keeps_bind; [keeps|intros lib].
  apply keeps_getLLVMModule; [keeps|intros p; frees].
Qed.

Lemma keeps_LinkDispatcher g m module :
  keeps_objects (LinkDispatcher g m module).
Proof.
  pose proof frees_lAddBitcodeToModule_at.
  pose proof keeps_lAddBitcodeToModule_at_null.
  pose proof keeps_lAddDeclarationsToModule_at.
  unfold LinkDispatcher. apply keeps_bind; [keeps|intros lib].
  apply keeps_getLLVMModule; [keeps|intros p; frees].
Qed.

Lemma keeps_lLinkTargetBuiltins g module :
  keeps_objects (lLinkTargetBuiltins g module).
Proof.
  pose proof frees_lAddBitcodeToModule_at.
  unfold lLinkTargetBuiltins. apply keeps_bind; [keeps|intros lib].
  apply keeps_getLLVMModule; [by intros st a st'|intros p].
  simpl. apply frees_after; [keeps|intros ?]. frees.
Qed.

Lemma keeps_lLinkStdlib g module : keeps_objects (lLinkStdlib g module).
Proof.
  pose proof frees_lAddBitcodeToModule_at.
  unfold lLinkStdlib. apply keeps_bind; [keeps|intros lib].
  apply keeps_getLLVMModule; [by intros st a st'|intros p].
  simpl. apply frees_after; [keeps|intros ?].
  apply frees_after; [destruct (isMultiTargetCompilation g); keeps|intros ?].
  frees.
Qed.

(** X15. Every link stage, and the composition as a whole, returns with
    the store holding exactly the objects it started with: the module a
    library hands out is destroyed by the linker that consumes it, and
    nothing else is created or destroyed. *)
Theorem link_stages_keep_objects g m module debug_num :
  keeps_objects (lLinkStdlib g module) ∧
  keeps_objects (lLinkCommonBuiltins g module) ∧
  keeps_objects (lLinkTargetBuiltins g module) ∧
  keeps_objects (LinkDispatcher g m module) ∧
  keeps_objects (LinkStandardLibraries g module debug_num).
Proof.
  split_and!.
  - apply keeps_lLinkStdlib.
  - apply keeps_lLinkCommonBuiltins.
  - apply keeps_lLinkTargetBuiltins.
  - apply keeps_LinkDispatcher.
  - pose proof keeps_lLinkStdlib. pose proof keeps_lLinkCommonBuiltins.
    pose proof keeps_lLinkTargetBuiltins. unfold LinkStandardLibraries. keeps.
Qed.
End StageOwnership.

Section NamedMetadata.
Context {LType : Type} `{!EqDecision LType}.
Variable lookupIntrinsicID : string -> nat.
Variable ISPC_XE_ENABLED : bool.
Variable ISPC_LLVM_VERSION : N.
Variable isGenXIntrinsic : @Function LType -> bool.
Variable GenXIntrinsic_getAttributes : @Function LType -> list string.
Variable FixFunctionAttribute : list string -> string -> string -> list string.
Variable getProgramAddressSpace : string -> nat.
Variable Intrinsic_getAttributes : nat -> list string.
Implicit Types (M module bcModule : @Module LType).

Local Abbreviation lUpdateIntrinsicsAttributes :=
  (lUpdateIntrinsicsAttributes ISPC_XE_ENABLED ISPC_LLVM_VERSION isGenXIntrinsic
     GenXIntrinsic_getAttributes FixFunctionAttribute).
Local Abbreviation lMoveUnusedDeclarations :=
  (lMoveUnusedDeclarations lookupIntrinsicID getProgramAddressSpace
     Intrinsic_getAttributes).
Local Abbreviation lAddBitcodeToModule :=
  (lAddBitcodeToModule lookupIntrinsicID ISPC_XE_ENABLED ISPC_LLVM_VERSION
     isGenXIntrinsic GenXIntrinsic_getAttributes FixFunctionAttribute
     getProgramAddressSpace Intrinsic_getAttributes).

Lemma lMoveUnusedDeclarations_metadata bcModule M :
  NamedMDList (lMoveUnusedDeclarations bcModule M) = NamedMDList M.
Proof.
  unfold lMoveUnusedDeclarations. generalize (FunctionList bcModule) as fs.
  intros fs. revert M. induction fs as [|f fs IH]; intros M; simpl; [done|].
  rewrite IH. unfold lMoveDeclaration. destruct (isDeclaration f); [|done].
  case_bool_decide; [done|]. unfold getOrInsertFunction. by case_bool_decide.
Qed.

Lemma lUpdateIntrinsicsAttributes_metadata bcModule :
  NamedMDList (lUpdateIntrinsicsAttributes bcModule) = NamedMDList bcModule.
Proof. unfold lUpdateIntrinsicsAttributes. by destruct ISPC_XE_ENABLED. Qed.

Lemma linkModules_metadata (DstM SrcM : @Module LType) md :
  md ∈ NamedMDList (linkModules DstM SrcM).2 ↔
  md ∈ NamedMDList DstM ∨
  ((linkModules DstM SrcM).1 = false ∧ md ∈ NamedMDList SrcM).
Proof.
  unfold linkModules. destruct (existsb _ _).
  - simpl. split; [by left|]. by intros [?|[? _]].
  - destruct (uniqueNames _ _ _) as [[sigma taken] last].
    destruct (uniqueNames _ taken last) as [[rho taken'] last']. simpl.
    rewrite elem_of_app, list_elem_of_filter. split.
    + intros [?|[_ ?]]; [by left|by right].
    + intros [?|[_ ?]]; [by left|].
      destruct (decide (md ∈ NamedMDList DstM)); [by left|by right].
Qed.

(** X16. The compiler identification of a library does not reach the
    target: after [lAddBitcodeToModule] the target has a named metadata
    node [llvm.ident] only if it had one before.  The target keeps its own
    named metadata, and when the link succeeds it has the library's other
    named metadata too. *)
Theorem lAddBitcodeToModule_drops_ident (isXeTarget : bool) bcModule module :
  let result := lAddBitcodeToModule isXeTarget (Some bcModule) module in
  ("llvm.ident" ∈ NamedMDList result.1 → "llvm.ident" ∈ NamedMDList module) ∧
  (∀ md, md ∈ NamedMDList module → md ∈ NamedMDList result.1) ∧
  (result.2 = [] →
   ∀ md, md ∈ NamedMDList bcModule → md ≠ "llvm.ident" →
     md ∈ NamedMDList result.1).
Proof.
  unfold lAddBitcodeToModule. cbn zeta.
  set (bc := if isXeTarget then _ else bcModule).
  assert (NamedMDList bc = NamedMDList bcModule) as Hbc.
  { subst bc. destruct isXeTarget; [|done]. apply lUpdateIntrinsicsAttributes_metadata. }
  set (M1 := lMoveUnusedDeclarations bc module).
  set (Src := eraseNamedMetadata bc "llvm.ident").
  pose proof (linkModules_metadata M1 Src) as Hmd.
  destruct (linkModules M1 Src) as [failed M2]. simpl in *.
  assert (NamedMDList M1 = NamedMDList module) as HM1
    by apply lMoveUnusedDeclarations_metadata.
  rewrite HM1 in Hmd. split_and!.
  - intros [?|[_ Hin]]%Hmd; [done|].
    apply list_elem_of_filter in Hin as [Hne _]. done.
  - intros md Hin. apply Hmd. by left.
  - intros Herrs md Hin Hne. apply Hmd. right. split.
    + by destruct failed.
    + apply list_elem_of_filter. split; [done|]. by rewrite Hbc.
Qed.
End NamedMetadata.

Section DeclareThenLink.
Context {LType : Type} `{!EqDecision LType}.
Variable lookupIntrinsicID : string -> nat.
Variable ISPC_XE_ENABLED : bool.
Variable ISPC_LLVM_VERSION : N.
Variable isGenXIntrinsic : @Function LType -> bool.
Variable GenXIntrinsic_getAttributes : @Function LType -> list string.
Variable FixFunctionAttribute : list string -> string -> string -> list string.
Variable getProgramAddressSpace : string -> nat.
Variable Intrinsic_getAttributes : nat -> list string.
Implicit Types (M DstM SrcM module bcModule : @Module LType)
  (F f D : @Function LType).

Local Abbreviation lUpdateIntrinsicAttributes :=
  (lUpdateIntrinsicAttributes ISPC_LLVM_VERSION isGenXIntrinsic
     GenXIntrinsic_getAttributes FixFunctionAttribute).
Local Abbreviation lUpdateIntrinsicsAttributes :=
  (lUpdateIntrinsicsAttributes ISPC_XE_ENABLED ISPC_LLVM_VERSION isGenXIntrinsic
     GenXIntrinsic_getAttributes FixFunctionAttribute).
Local Abbreviation lMoveDeclaration :=
  (lMoveDeclaration lookupIntrinsicID getProgramAddressSpace
     Intrinsic_getAttributes).
Local Abbreviation lMoveUnusedDeclarations :=
  (lMoveUnusedDeclarations lookupIntrinsicID getProgramAddressSpace
     Intrinsic_getAttributes).
Local Abbreviation lDeclare :=
  (lDeclareFunction lookupIntrinsicID getProgramAddressSpace
     Intrinsic_getAttributes).
Local Abbreviation lAddDeclarationsToModule :=
  (lAddDeclarationsToModule lookupIntrinsicID ISPC_XE_ENABLED ISPC_LLVM_VERSION
     isGenXIntrinsic GenXIntrinsic_getAttributes FixFunctionAttribute
     getProgramAddressSpace Intrinsic_getAttributes).
Local Abbreviation lAddBitcodeToModule :=
  (lAddBitcodeToModule lookupIntrinsicID ISPC_XE_ENABLED ISPC_LLVM_VERSION
     isGenXIntrinsic GenXIntrinsic_getAttributes FixFunctionAttribute
     getProgramAddressSpace Intrinsic_getAttributes).

(** *** The linker on a definition that the destination names *)

(** A definition of the source with a linkage that is not local, whose name
    the destination has for a function that is not local either: the
    destination ends with a definition of that name, the one of the source
    when the destination only declared it. *)
Lemma linkModules_defines DstM SrcM f D :
  NoDup (function_names SrcM) →
  f ∈ FunctionList SrcM → isDeclaration f = false →
  isLocalLinkage (Linkage f) = false →
  getFunction DstM (Name f) = Some D → isLocalLinkage (Linkage D) = false →
  (linkModules DstM SrcM).1 = false →
  ∃ F', F' ∈ FunctionList (linkModules DstM SrcM).2 ∧ Name F' = Name f ∧
        isDeclaration F' = false.
Proof.
  intros Hnd Hf Hdef Hlocal HD HDlocal.
  pose proof (getFunction_NoDup _ _ Hnd Hf) as Hsrc.
  assert (isLocalIn SrcM (Name f) = false) as HlocalS.
  { unfold isLocalIn, getNamedValue. by rewrite Hsrc. }
  assert (isLocalIn DstM (Name f) = false) as HlocalD.
  { unfold isLocalIn, getNamedValue. by rewrite HD. }
  destruct (decide (Name f ∈ linkedDefinitions DstM SrcM)) as [HL|HL].
  - (* the definition of the source is moved *)
    unfold linkModules. destruct (existsb _ _); [done|]. intros _.
    destruct (uniqueNames _ _ _) as [[sigma taken] last].
    match goal with
    | |- context [uniqueNames ?ns taken last] =>
        pose proof (rename_outside ns taken last (Name f)) as Hren;
        destruct (uniqueNames ns taken last) as [[rho taken'] last']
    end.
    simpl in *. exists (renameFunction rho f). split_and!.
    + apply elem_of_app. right. unfold movedFunctions.
      apply list_elem_of_omap. exists f. split; [done|].
      by rewrite bool_decide_eq_true_2.
    + simpl. apply Hren. intros [Hb _]%list_elem_of_filter.
      apply Is_true_true in Hb. apply andb_true_iff in Hb as [Hb _].
      apply andb_true_iff in Hb as [_ Hb]. congruence.
    + unfold isDeclaration in *. simpl. by destruct (Body f).
  - (* it is not: the destination has its own definition, which stays *)
    assert (isDeclaration D = false) as HDdef.
    { destruct (isDeclaration D) eqn:HDd; [|done]. exfalso. apply HL.
      unfold linkedDefinitions. apply closure_incl.
      unfold valuesToLink. apply elem_of_list_to_set, list_elem_of_filter.
      split.
      - unfold isNeeded, getNamedValue. rewrite Hsrc.
        unfold linkIfNeeded, getLinkedToGlobal, getNamedValue. simpl.
        rewrite Hdef, Hlocal, HD. simpl. rewrite HDlocal, HDd.
        by rewrite orb_true_r.
      - unfold symbol_names. apply elem_of_app. left.
        by apply list_elem_of_fmap_2. }
    apply getFunction_Some in HD as [HDin HDname].
    unfold linkModules. destruct (existsb _ _); [done|]. intros _.
    match goal with
    | |- context [uniqueNames ?ns ?tk ?la] =>
        pose proof (rename_outside ns tk la (Name f)) as Hren;
        destruct (uniqueNames ns tk la) as [[sigma taken] last]
    end.
    destruct (uniqueNames _ taken last) as [[rho taken'] last'].
    simpl in *. exists (renameFunction sigma D). split_and!.
    + apply elem_of_app. left. apply list_elem_of_fmap_2.
      apply list_elem_of_filter. split; [|done].
      unfold isReplaced. rewrite HDname.
      rewrite (bool_decide_eq_false_2 (Name f ∈ _)) by done.
      by rewrite andb_false_r.
    + simpl. rewrite HDname. apply Hren. intros [Hb _]%list_elem_of_filter.
      apply Is_true_true in Hb. apply andb_true_iff in Hb as [Hb _].
      apply andb_true_iff in Hb as [Hb _]. congruence.
    + unfold isDeclaration in *. simpl. by destruct (Body D).
Qed.

(** *** The library and the target on the way to the linker *)

Lemma updated_library (b : bool) bcModule :
  let bc := if b then lUpdateIntrinsicsAttributes bcModule else bcModule in
  function_names bc = function_names bcModule ∧
  ∀ f, f ∈ FunctionList bcModule →
    ∃ f', f' ∈ FunctionList bc ∧ Name f' = Name f ∧ Body f' = Body f ∧
          Linkage f' = Linkage f.
Proof.
  destruct b; simpl; [|by eauto 10]. split.
  - apply lUpdateIntrinsicsAttributes_names.
  - unfold lUpdateIntrinsicsAttributes. destruct ISPC_XE_ENABLED; [|by eauto 10].
    intros f Hf. exists (lUpdateIntrinsicAttributes f). split.
    + simpl. by apply list_elem_of_fmap_2.
    + apply lUpdateIntrinsicAttributes_fields.
Qed.

(** The loop that moves the unused declarations adds external
    declarations only. *)
Lemma foldl_lMoveDeclaration_added bcModule fs M F :
  F ∈ FunctionList (foldl (lMoveDeclaration bcModule) M fs) →
  F ∈ FunctionList M ∨ Linkage F = ExternalLinkage.
Proof.
  revert M. induction fs as [|f fs IH]; intros M; simpl; [by left|].
  intros [HF|HF]%IH; [|by right]. revert HF. unfold lMoveDeclaration.
  destruct (isDeclaration f); [|by left]. case_bool_decide; [by left|].
  unfold getOrInsertFunction. case_bool_decide; [by left|]. simpl.
  intros [?|HF]%elem_of_app; [by left|]. right.
  apply list_elem_of_singleton in HF as ->.
  unfold newDeclaration. by destruct (isIntrinsic _).
Qed.

Lemma getFunction_nonlocal M n :
  n ∈ function_names M →
  (∀ F, F ∈ FunctionList M → Name F = n → isLocalLinkage (Linkage F) = false) →
  ∃ D, getFunction M n = Some D ∧ isLocalLinkage (Linkage D) = false.
Proof.
  intros [D HD]%getFunction_is_Some Hall. exists D. split; [done|].
  apply getFunction_Some in HD as [? ?]. by apply Hall.
Qed.

(** X17. Declaring before linking makes the needed-only link take the whole
    library, which is what [LinkDispatcher] does.  After
    [lAddDeclarationsToModule] and [lAddBitcodeToModule] on the same
    library, when the link reports no error, the target has a definition
    for every function the library defines with a linkage that is not
    local, provided the target has no global variable and no local function
    of that name: the library's definition, or the one the target had. *)
Theorem declare_then_link_defines (isXeTarget : bool) m_module bcModule module f :
  wf_module bcModule →
  f ∈ FunctionList bcModule → isDeclaration f = false →
  isLocalLinkage (Linkage f) = false →
  Name f ∉ global_names module →
  (∀ F, F ∈ FunctionList module → Name F = Name f →
     isLocalLinkage (Linkage F) = false) →
  let declared := lAddDeclarationsToModule isXeTarget m_module (Some bcModule) module in
  let merged := lAddBitcodeToModule isXeTarget declared.1.1 declared.1.2 in
  merged.2 = [] →
  ∃ F', F' ∈ FunctionList merged.1 ∧ Name F' = Name f ∧ isDeclaration F' = false.
Proof.
  intros Hwf Hf Hdef Hlocal Hnoglobal Hmodule.
  assert (NoDup (function_names bcModule)) as Hnd.
  { unfold wf_module, symbol_names in Hwf. by apply NoDup_app in Hwf as [? _]. }
  unfold lAddDeclarationsToModule. cbn zeta. cbn [fst snd].
  set (bc0 := setDataLayout (setTargetTriple bcModule (TargetTriple m_module))
                (DataLayout module)).
  set (bc1 := if isXeTarget then lUpdateIntrinsicsAttributes bc0 else bc0).
  change (foldl _ module (FunctionList bc1))
    with (foldl lDeclare module (FunctionList bc1)).
  set (M1 := foldl lDeclare module (FunctionList bc1)).
  unfold lAddBitcodeToModule. cbn zeta.
  set (bc2 := if isXeTarget then lUpdateIntrinsicsAttributes bc1 else bc1).
  set (M2 := lMoveUnusedDeclarations bc2 M1).
  set (Src := eraseNamedMetadata bc2 "llvm.ident").
  (* the definition, as the linker sees it *)
  destruct (updated_library isXeTarget bc0) as [Hn1 Hf1]. fold bc1 in Hn1, Hf1.
  destruct (updated_library isXeTarget bc1) as [Hn2 Hf2]. fold bc2 in Hn2, Hf2.
  destruct (Hf1 f Hf) as (f1 & Hin1 & Hname1 & Hbody1 & Hlink1).
  destruct (Hf2 f1 Hin1) as (f2 & Hin2 & Hname2 & Hbody2 & Hlink2).
  assert (NoDup (function_names Src)) as HndS.
  { change (function_names Src) with (function_names bc2). by rewrite Hn2, Hn1. }
  assert (f2 ∈ FunctionList Src) as HinS by exact Hin2.
  assert (isDeclaration f2 = false) as Hdef2.
  { unfold isDeclaration in *. by rewrite Hbody2, Hbody1. }
  assert (isLocalLinkage (Linkage f2) = false) as Hlocal2.
  { by rewrite Hlink2, Hlink1. }
  assert (Name f2 = Name f) as HnameS by congruence.
  (* the target, as the linker sees it *)
  destruct (foldl_lDeclare lookupIntrinsicID getProgramAddressSpace
              Intrinsic_getAttributes (FunctionList bc1) module)
    as ((added & Hadd & Hadded) & Hgl & _ & _ & _ & Hall & _).
  fold M1 in Hadd, Hgl, Hall.
  assert (Name f ∈ function_names M1) as Hdeclared.
  { pose proof (Hall f1 Hin1) as Hs. rewrite Hname1 in Hs.
    unfold symbol_names in Hs. apply elem_of_app in Hs as [?|Hg]; [done|].
    unfold global_names in Hg. by rewrite Hgl in Hg. }
  assert (Name f ∈ function_names M2) as Hin.
  { by apply foldl_lMoveDeclaration_keeps. }
  assert (∀ F, F ∈ FunctionList M2 → Name F = Name f →
               isLocalLinkage (Linkage F) = false) as Hnonlocal.
  { intros F HF HnF.
    apply foldl_lMoveDeclaration_added in HF as [HF|HF]; [|by rewrite HF].
    rewrite Hadd in HF. apply elem_of_app in HF as [HF|HF]; [by apply Hmodule|].
    destruct (Hadded F HF) as (_ & -> & _). done. }
  destruct (getFunction_nonlocal M2 (Name f) Hin Hnonlocal) as (D & HD & HDlocal).
  rewrite <- HnameS in HD.
  pose proof (linkModules_defines M2 Src f2 D HndS HinS Hdef2 Hlocal2 HD HDlocal)
    as Hlink.
  destruct (linkModules M2 Src) as [failed M3]. simpl in *.
  intros Herrs. destruct failed; [done|].
  destruct (Hlink eq_refl) as (F' & HF' & HnF' & HdF').
  exists F'. split_and!; [done|congruence|done].
Qed.
End DeclareThenLink.

(** * The target suffix of a multi-target compilation *)

Section TargetSuffix.
Context {LType : Type}.
Variable suffix : string.
Implicit Types (M : @Module LType) (F : @Function LType).

Local Abbreviation kept F F' :=
  (isDeclaration F' = isDeclaration F ∧ Linkage F' = Linkage F ∧
   FunctionTy F' = FunctionTy F ∧ Attributes F' = Attributes F).

Local Abbreviation suffixed F F' :=
  (if negb (isDeclaration F) && negb (lStartsWithLLVM (Name F))
   then Name F' = Name F +:+ suffix ∨
        ∃ k : nat, Name F' = (Name F +:+ suffix) +:+ "." +:+ pretty k
   else Name F' = Name F).

Lemma makeUniqueName_form fuel taken base last :
  ∃ k : nat, (makeUniqueName fuel taken base last).1 = base +:+ "." +:+ pretty k.
Proof.
  revert last. induction fuel as [|fuel IH]; intros last; simpl; [eauto|].
  case_bool_decide; [apply IH|eauto].
Qed.

Lemma rename_singleton (old n' n : string) :
  rename {[old := n']} n = if bool_decide (n = old) then n' else n.
Proof.
  unfold rename. case_bool_decide as Hn.
  - subst. by rewrite lookup_singleton_eq.
  - rewrite lookup_singleton_ne; [done|congruence].
Qed.

Lemma NoDup_rename (l : list string) old n' :
  NoDup l → n' ∉ l → NoDup (rename {[old := n']} <$> l).
Proof.
  intros Hnd Hfresh. apply NoDup_fmap_2_strong; [|done].
  intros x y Hx Hy. rewrite !rename_singleton.
  repeat case_bool_decide; intros Heq; subst; try done; congruence.
Qed.

Lemma rename_other (l : list string) old n' :
  old ∉ l → rename {[old := n']} <$> l = l.
Proof.
  intros Hold. induction l as [|x l IH]; [done|].
  rewrite fmap_cons, rename_singleton, IH.
  - rewrite bool_decide_eq_false_2; [done|]. intros ->. apply Hold. by left.
  - intros ?. apply Hold. by right.
Qed.

(** [setName] under a new name: one name for the function, not in the
    table, which is the name asked for or that name with a number. *)
Lemma setName_lists M old new :
  new ≠ old →
  ∃ name',
    (name' = new ∨ ∃ k : nat, name' = new +:+ "." +:+ pretty k) ∧
    (name' ∉ symbol_names M) ∧
    FunctionList (setName M old new)
      = renameFunction {[old := name']} <$> FunctionList M ∧
    GlobalList (setName M old new)
      = renameGlobal {[old := name']} <$> GlobalList M.
Proof.
  intros Hne. unfold setName. rewrite (bool_decide_eq_false_2 _ Hne).
  case_bool_decide as Htaken.
  - pose proof (makeUniqueName_fresh (symbol_names M) new (LastUnique M)) as Hfresh.
    destruct (makeUniqueName_form (S (length (symbol_names M))) (symbol_names M)
                new (LastUnique M)) as [k Hk].
    destruct (makeUniqueName _ _ _ _) as [name last]. cbn [fst] in Hfresh, Hk.
    exists name. split_and!; [right; by exists k|done|done|done].
  - exists new. split_and!; [by left|done|done|done].
Qed.

Lemma setName_names M old new name' :
  FunctionList (setName M old new)
    = renameFunction {[old := name']} <$> FunctionList M →
  GlobalList (setName M old new)
    = renameGlobal {[old := name']} <$> GlobalList M →
  symbol_names (setName M old new) = rename {[old := name']} <$> symbol_names M.
Proof.
  intros Hfl Hgl. unfold symbol_names, function_names, global_names.
  rewrite Hfl, Hgl, fmap_app, <- !list_fmap_compose. done.
Qed.

Lemma Forall2_renamed (R : Function → Function → Prop) old n'
    (fs cur : list (@Function LType)) :
  (∀ F F', R F F' → Name F' ≠ old → R F (renameFunction {[old := n']} F')) →
  Forall2 R fs cur → old ∉ Name <$> cur →
  Forall2 R fs (renameFunction {[old := n']} <$> cur).
Proof.
  intros HR Hall. induction Hall as [|F F' fs cur HF Hall IH]; intros Hold.
  - constructor.
  - rewrite fmap_cons in Hold. apply not_elem_of_cons in Hold as [Hne Hold].
    rewrite fmap_cons. constructor; [apply HR; [done|congruence]|by apply IH].
Qed.

Lemma renameFunction_other old n' F :
  Name F ≠ old → Name (renameFunction {[old := n']} F) = Name F.
Proof.
  intros Hne. cbn [renameFunction Name]. rewrite rename_singleton.
  by rewrite bool_decide_eq_false_2.
Qed.

Lemma renameFunction_kept ren F : kept F (renameFunction ren F).
Proof. unfold isDeclaration. cbn. by destruct (Body F). Qed.

(** The loop, from any point of the list: the functions passed have their
    final names, the ones to come have the names they had. *)
Lemma foldl_setName fs : ∀ M passed pre cur,
  NoDup (symbol_names M) →
  FunctionList M = pre ++ cur →
  Forall2 (λ F F', kept F F' ∧ suffixed F F') passed pre →
  Forall2 (λ F F', kept F F' ∧ Name F' = Name F) fs cur →
  let M' := foldl (λ M F,
                     if negb (isDeclaration F) && negb (lStartsWithLLVM (Name F))
                     then setName M (Name F) (Name F +:+ suffix) else M) M fs in
  NoDup (symbol_names M') ∧ global_names M' = global_names M ∧
  Forall2 (λ F F', kept F F' ∧ suffixed F F') (passed ++ fs) (FunctionList M').
Proof.
  induction fs as [|F fs IH]; intros M passed pre cur Hnd HM Hpassed Hcur.
  - apply Forall2_nil_inv_l in Hcur as ->. rewrite app_nil_r in HM.
    cbn [foldl]. rewrite app_nil_r, HM. done.
  - apply Forall2_cons_inv_l in Hcur as (c & cur' & [Hk Hname] & Hcur & ->).
    cbn [foldl]. rewrite (cons_middle F passed fs), app_assoc.
    destruct (negb (isDeclaration F) && negb (lStartsWithLLVM (Name F))) eqn:Hc.
    + destruct (decide (Name F +:+ suffix = Name F)) as [Heq|Hne].
      * assert (setName M (Name F) (Name F +:+ suffix) = M) as ->.
        { unfold setName. by rewrite (bool_decide_eq_true_2 _ Heq). }
        apply (IH M (passed ++ [F]) (pre ++ [c]) cur'); [done| |  |done].
        { by rewrite HM, (cons_middle c pre cur'), app_assoc. }
        apply Forall2_app; [done|]. constructor; [|constructor].
        split; [done|]. rewrite Hc. left. congruence.
      * destruct (setName_lists M (Name F) _ Hne) as (n' & Hform & Hfresh & Hfl & Hgl).
        pose proof (setName_names M _ _ _ Hfl Hgl) as Hnames.
        set (M1 := setName M (Name F) (Name F +:+ suffix)) in *.
        assert (NoDup (Name <$> pre ++ c :: cur') ∧ Name F ∉ global_names M)
          as [Hndf Hnog].
        { unfold symbol_names, function_names in Hnd. rewrite HM in Hnd.
          apply NoDup_app in Hnd as (Hndf & Hdisj & _). split; [done|].
          apply Hdisj. rewrite <- Hname, fmap_app, fmap_cons.
          apply elem_of_app. right. by left. }
        rewrite fmap_app, fmap_cons in Hndf.
        apply NoDup_app in Hndf as (_ & Hpre & Hndc).
        apply NoDup_cons in Hndc as [Hcur' _].
        assert (Name F ∉ Name <$> pre) as Hnopre.
        { intros Hin. apply (Hpre _ Hin). rewrite <- Hname. by left. }
        assert (Name F ∉ Name <$> cur') as Hnocur by by rewrite <- Hname.
        destruct (IH M1 (passed ++ [F])
                    (renameFunction {[Name F := n']} <$> (pre ++ [c]))
                    (renameFunction {[Name F := n']} <$> cur'))
          as (Hnd' & Hgl' & Hall).
        { rewrite Hnames. by apply NoDup_rename. }
        { by rewrite Hfl, HM, (cons_middle c pre cur'), app_assoc, fmap_app. }
        { rewrite fmap_app. apply Forall2_app.
          - apply Forall2_renamed; [|done|done].
            intros D D' [Hkd Hsd] HneD.
            destruct (renameFunction_kept {[Name F := n']} D') as (?&?&?&?).
            destruct Hkd as (?&?&?&?).
            split; [split_and!; congruence|].
            by rewrite (renameFunction_other _ _ _ HneD).
          - constructor; [|constructor].
            destruct (renameFunction_kept {[Name F := n']} c) as (?&?&?&?).
            destruct Hk as (?&?&?&?).
            split; [split_and!; congruence|]. rewrite Hc.
            cbn [renameFunction Name]. rewrite rename_singleton, Hname.
            rewrite bool_decide_eq_true_2; [|done].
            destruct Hform as [->|[k ->]]; [by left|right; by exists k]. }
        { apply Forall2_renamed; [|done|done].
          intros D D' [Hkd Hsd] HneD.
          destruct (renameFunction_kept {[Name F := n']} D') as (?&?&?&?).
          destruct Hkd as (?&?&?&?).
          split; [split_and!; congruence|].
          by rewrite (renameFunction_other _ _ _ HneD). }
        split_and!; [done| |done].
        rewrite Hgl'. unfold global_names. fold M1 in Hgl. rewrite Hgl.
        rewrite <- list_fmap_compose.
        change (GName ∘ renameGlobal {[Name F := n']})
          with (rename {[Name F := n']} ∘ GName).
        rewrite list_fmap_compose. by apply rename_other.
    + apply (IH M (passed ++ [F]) (pre ++ [c]) cur'); [done| |  |done].
      { by rewrite HM, (cons_middle c pre cur'), app_assoc. }
      apply Forall2_app; [done|]. constructor; [|constructor].
      split; [done|]. by rewrite Hc.
Qed.

(** X18. The first loop of [lLinkStdlib] on a library whose names are
    distinct.  The library has the same functions in the same order, each
    with the linkage, type, attributes and body-or-not it had, and the same
    names of variables.  A declaration and a function of LLVM's name space
    keep their names; a defined function [n] outside it is named [n] with
    the suffix, or that name followed by a dot and a number when the name is
    taken; the names are still distinct. *)
Theorem lAddTargetSuffix_renames M :
  wf_module M →
  let M' := lAddTargetSuffix suffix M in
  wf_module M' ∧
  global_names M' = global_names M ∧
  Forall2 (λ F F',
             (isDeclaration F' = isDeclaration F ∧ Linkage F' = Linkage F ∧
              FunctionTy F' = FunctionTy F ∧ Attributes F' = Attributes F) ∧
             if negb (isDeclaration F) && negb (lStartsWithLLVM (Name F))
             then Name F' = Name F +:+ suffix ∨
                  ∃ k : nat, Name F' = (Name F +:+ suffix) +:+ "." +:+ pretty k
             else Name F' = Name F)
          (FunctionList M) (FunctionList M').
Proof.
  intros Hwf. unfold lAddTargetSuffix.
  apply (foldl_setName (FunctionList M) M [] [] (FunctionList M)); try done.
  apply Forall_Forall2_diag, Forall_forall. by intros F _.
Qed.
End TargetSuffix.

(** * Concrete runs of the stages *)

Section SampleStages.
Import Sample.

(** X2 under opaque pointers: the type of a pointer to 16-bit integers is
    the type of a pointer to 8-bit integers, and is translated as that. *)
Lemma opaque_pointer_is_int8_pointer :
  Int16PointerType OpaquePointerTypes = Int8PointerType OpaquePointerTypes ∧
  lLLVMTypeToISPCType OpaquePointerTypes (Int16PointerType OpaquePointerTypes)
    false = Some (PointerType_GetUniform (Atomic UniformInt8)).
Proof.
  split; [reflexivity|].
  destruct (lLLVMTypeToISPCType_first_match OpaquePointerTypes 17 false)
    as [_ Hpointer]; [compute_done|].
  apply Hpointer; [discriminate|reflexivity].
Defined.

(** X9 on the sample: [main], which dead-code elimination keeps, is in the
    module after the sequence. *)
Lemma lProtectPrune_keeps_main :
  ∃ M', protectPrune with_persistent = Ok M' ∧
        define "main" ExternalLinkage [] ∈ FunctionList M'.
Proof.
  destruct (lProtectPrune_keeps_live PointerType_get persistentGroups
              persistentFuncs Int8PtrTy with_persistent)
    as (M' & Hrun & _ & Hlive & _); [compute_done|].
  exists M'. split; [exact Hrun|]. apply Hlive; [compute_done|].
  apply reachable_root. compute_done.
Defined.

(** X10 on the sample: the persistent function [P], internal and without a
    use, is in the module after the sequence. *)
Lemma persistent_function_survives_sample :
  ∃ M', protectPrune with_persistent = Ok M' ∧ "P" ∈ function_names M'.
Proof.
  destruct (protectPrune with_persistent) as [M'|msg] eqn:Hrun.
  - exists M'. split; [reflexivity|].
    apply (persistent_functions_survive PointerType_get persistentGroups
             persistentFuncs Int8PtrTy with_persistent M' "P" 0%Z);
      [compute_done|compute_done|exact Hrun].
  - vm_compute in Hrun. discriminate Hrun.
Defined.

(** X13 on the sample: the composition with the standard library returns
    the stage number advanced by three. *)
Lemma compose_returns_sample :
  ∃ st' M, compose (globals true) 1%positive 0 store = Ok (3%Z, st') ∧
           heap st' !! 1%positive = Some (ObjModule (lSetInternalLinkageGlobals M)).
Proof.
  destruct (compose (globals true) 1%positive 0 store) as [[n st']|msg] eqn:Hrun.
  - unfold compose in Hrun.
    destruct (LinkStandardLibraries_returns lookupIntrinsicID
                Intrinsic_getType PointerType_get false 170000%N
                isGenXIntrinsic GenXIntrinsic_getAttributes
                FixFunctionAttribute getProgramAddressSpace
                Intrinsic_getAttributes persistentGroups persistentFuncs
                Int8PtrTy (globals true) 1%positive 0%Z store n st' Hrun)
      as (Hn & M & HM & _).
    exists st', M. split; [|exact HM].
    exact (f_equal (λ k, Ok (k, st')) Hn).
  - vm_compute in Hrun. discriminate Hrun.
Defined.

(** X14 on the sample: the library of common builtins has no module; the
    stage reports it once and goes on. *)
Lemma null_builtins_module_sample :
  ∃ st', lLinkCommonBuiltins lookupIntrinsicID false 170000%N isGenXIntrinsic
           GenXIntrinsic_getAttributes FixFunctionAttribute
           getProgramAddressSpace Intrinsic_getAttributes (globals true)
           1%positive store_without_builtins = Ok (tt, st') ∧
         errors st' = ["Error library module is nullptr"].
Proof.
  destruct (null_library_module_is_reported lookupIntrinsicID false 170000%N
              isGenXIntrinsic GenXIntrinsic_getAttributes FixFunctionAttribute
              getProgramAddressSpace Intrinsic_getAttributes (globals true)
              1%positive 1%positive 3%positive store_without_builtins)
    as [_ Hbuiltins]; [reflexivity|].
  eexists. split; [apply (Hbuiltins eq_refl user_module); reflexivity|].
  reflexivity.
Defined.

(** X17 on the sample: the dispatcher, which the module of the compilation
    unit does not refer to, is defined in it after the two steps. *)
Lemma dispatch_defined_sample :
  ∃ F', F' ∈ FunctionList
               (addBitcode false (Some dispatch_image)
                  (lAddDeclarationsToModule lookupIntrinsicID false 170000%N
                     isGenXIntrinsic GenXIntrinsic_getAttributes
                     FixFunctionAttribute getProgramAddressSpace
                     Intrinsic_getAttributes false user_module
                     (Some dispatch_image) user_module).1.2).1 ∧
        Name F' = "__dispatch" ∧ isDeclaration F' = false.
Proof.
  apply (declare_then_link_defines lookupIntrinsicID false 170000%N
           isGenXIntrinsic GenXIntrinsic_getAttributes FixFunctionAttribute
           getProgramAddressSpace Intrinsic_getAttributes false user_module
           dispatch_image user_module (define "__dispatch" ExternalLinkage [])).
  - compute_done.
  - compute_done.
  - reflexivity.
  - reflexivity.
  - compute_done.
  - intros F HF HnF. vm_compute in HnF.
    apply elem_of_cons in HF as [->|HF]; [discriminate HnF|].
    apply elem_of_cons in HF as [->|HF]; [discriminate HnF|].
    by apply elem_of_nil in HF.
  - reflexivity.
Defined.

(** X18 on the sample: the standard library under the suffix of the
    target. *)
Lemma lAddTargetSuffix_sample :
  wf_module (lAddTargetSuffix "_sse4" stdlib_image) ∧
  function_names (lAddTargetSuffix "_sse4" stdlib_image) =
    ["stdfn_sse4"; "unused_std_sse4"; "A_sse4"; "B_sse4"; "P_sse4";
     "__do_print"; "llvm.x86.sse.sqrt.ss"].
Proof.
  destruct (lAddTargetSuffix_renames "_sse4" stdlib_image) as [Hwf _];
    [compute_done|].
  split; [exact Hwf|reflexivity].
Defined.

(** X12 on the sample: after the standard library is linked, what the
    module defines under a name of the library is internal. *)
Lemma lLinkStdlib_demotes_sample :
  ∃ st' M',
    lLinkStdlib lookupIntrinsicID false 170000%N isGenXIntrinsic
      GenXIntrinsic_getAttributes FixFunctionAttribute getProgramAddressSpace
      Intrinsic_getAttributes (globals true) 1%positive store = Ok (tt, st') ∧
    heap st' !! 1%positive = Some (ObjModule M') ∧
    ∀ F, F ∈ FunctionList M' → isDeclaration F = false →
         Name F ∈ function_names stdlib_image → Linkage F = InternalLinkage.
Proof.
  destruct (lLinkStdlib lookupIntrinsicID false 170000%N isGenXIntrinsic
              GenXIntrinsic_getAttributes FixFunctionAttribute
              getProgramAddressSpace Intrinsic_getAttributes (globals true)
              1%positive store) as [[[] st']|msg] eqn:Hrun.
  - destruct (link_stages_demote lookupIntrinsicID false 170000%N
                isGenXIntrinsic GenXIntrinsic_getAttributes
                FixFunctionAttribute getProgramAddressSpace
                Intrinsic_getAttributes (globals true) 1%positive store st')
      as (_ & _ & Hstdlib).
    destruct (Hstdlib Hrun) as (lib & image & M' & Hlib & Himage & HM' & Hall).
    injection Hlib as <-. injection Himage as <-.
    exists st', M'. split; [reflexivity|]. split; [exact HM'|exact Hall].
  - vm_compute in Hrun. discriminate Hrun.
Defined.

(** X15 on the sample: the composition returns with the five objects of
    the store. *)
Lemma compose_keeps_objects_sample :
  ∃ n st', compose (globals true) 1%positive 0 store = Ok (n, st') ∧
           dom (heap st') = dom (heap store).
Proof.
  destruct (compose (globals true) 1%positive 0 store) as [[n st']|msg] eqn:Hrun.
  - unfold compose in Hrun.
    destruct (link_stages_keep_objects lookupIntrinsicID Intrinsic_getType
                PointerType_get false 170000%N isGenXIntrinsic
                GenXIntrinsic_getAttributes FixFunctionAttribute
                getProgramAddressSpace Intrinsic_getAttributes
                persistentGroups persistentFuncs Int8PtrTy (globals true)
                1%positive 1%positive 0%Z) as (_ & _ & _ & _ & Hkeeps).
    exists n, st'. split; [reflexivity|exact (Hkeeps store n st' Hrun)].
  - vm_compute in Hrun. discriminate Hrun.
Defined.

(** X11 on the sample: the dump directory cannot be created; the error is
    reported, nothing is printed, and the pointer, which points to no
    module, is not read. *)
Lemma debugDumpModule_full_disk :
  heap store_on_full_disk !! 9%positive = None ∧
  debugDumpModule dumping 9%positive "LinkStdlib" 0 store_on_full_disk =
    Ok (tt, {| heap := heap store; dumped := []; files := full_disk;
               errors := ["Error creating directory 'dumps': No space left on device"] |}).
Proof.
  split; [reflexivity|].
  destruct (debugDumpModule_selected dumping 9%positive "LinkStdlib" 0%Z
              store_on_full_disk) as (_ & _ & Hrefused & _).
  apply (Hrefused ltac:(split; compute_done) ltac:(split; done)
           "No space left on device"); [compute_done|reflexivity].
Defined.
End SampleStages.
